(** * IPv4 address / CIDR algebra and range consolidation

    A shallow embedding of [ip_address_utils.py], and of the record loop
    of [inetnum_file_parser.py] that calls it, and a verification of the
    properties its specification states about it and of further
    properties read off the code.

    Conventions of the embedding:
    - a Python [str] is a [string], read as a sequence of code points
      below 256 (the addresses handled are ASCII);
    - a Python [int] is a [Z]; [&], [<<] and [//] are [Z.land], [Z.shiftl]
      and [Z.div];
    - a Python exception is an [Err] result carrying the exception class;
    - an address range (a 2-tuple or 2-element list of strings) is a pair
      of strings. *)

From Stdlib Require Import ZArith List String Ascii Bool Lia.
From Stdlib Require Import Permutation Sorted.
From Stdlib Require Import Numbers.DecimalString.
Import ListNotations.

Open Scope string_scope.
Open Scope Z_scope.

(* ================================================================== *)
(** ** Exceptions *)

Inductive pyerr : Type :=
| IndexError
| ValueError.

Inductive result (A : Type) : Type :=
| Ok (a : A)
| Err (e : pyerr).

Arguments Ok {A} a.
Arguments Err {A} e.

Definition bind {A B : Type} (m : result A) (k : A -> result B) : result B :=
  match m with
  | Ok a => k a
  | Err e => Err e
  end.

Notation "x <- m ;; k" := (bind m (fun x => k))
  (at level 61, m at next level, right associativity).

Notation "' p <- m ;; k" := (bind m (fun p => k))
  (at level 61, p pattern, m at next level, right associativity).

(** A list comprehension whose element expression may raise. *)
Fixpoint mapM {A B : Type} (f : A -> result B) (l : list A) : result (list B) :=
  match l with
  | [] => Ok []
  | x :: l' => y <- f x ;; ys <- mapM f l' ;; Ok (y :: ys)
  end.

(* ================================================================== *)
(** ** The built-ins the module relies on *)

(** [s.split(sep)] for a one-character separator. *)
Fixpoint split (sep : ascii) (s : string) : list string :=
  match s with
  | EmptyString => [EmptyString]
  | String c s' =>
      if Ascii.eqb c sep then EmptyString :: split sep s'
      else match split sep s' with
           | [] => [String c EmptyString]
           | p :: ps => String c p :: ps
           end
  end.

(** [sep.join(parts)]. *)
Fixpoint join (sep : string) (parts : list string) : string :=
  match parts with
  | [] => EmptyString
  | [p] => p
  | p :: ps => p ++ sep ++ join sep ps
  end.

Definition is_digit (c : ascii) : bool :=
  let n := nat_of_ascii c in (48 <=? n)%nat && (n <=? 57)%nat.

Definition digit_val (c : ascii) : Z := Z.of_nat (nat_of_ascii c) - 48.

(** The characters [int()] strips from both ends: tab, LF, VT, FF, CR,
    FS, GS, RS, US, space, NEL and the no-break space. *)
Definition is_space (c : ascii) : bool :=
  let n := nat_of_ascii c in
  ((9 <=? n)%nat && (n <=? 13)%nat) || ((28 <=? n)%nat && (n <=? 32)%nat)
  || (n =? 133)%nat || (n =? 160)%nat.

Fixpoint lstrip (s : string) : string :=
  match s with
  | String c s' => if is_space c then lstrip s' else s
  | EmptyString => EmptyString
  end.

Fixpoint all_space (s : string) : bool :=
  match s with
  | EmptyString => true
  | String c s' => is_space c && all_space s'
  end.

(** The digit part of an integer literal given to [int()]: decimal digits,
    with single underscores allowed between two digits, up to optional
    trailing whitespace.  [prev] tells whether the previous character was
    a digit. *)
Fixpoint int_digits (prev : bool) (acc : Z) (s : string) : result Z :=
  match s with
  | EmptyString => if prev then Ok acc else Err ValueError
  | String c s' =>
      if is_digit c then int_digits true (10 * acc + digit_val c) s'
      else if Ascii.eqb c "_" then
        (if prev then
           match s' with
           | String d _ => if is_digit d then int_digits false acc s'
                           else Err ValueError
           | EmptyString => Err ValueError
           end
         else Err ValueError)
      else if prev && all_space s then Ok acc
      else Err ValueError
  end.

(** [int(s)] in base ten on an ASCII string.  The interpreter's cap on the
    number of digits of a literal is not modelled; no octet or mask comes
    near it. *)
Definition py_int (s : string) : result Z :=
  match lstrip s with
  | String "-" s' => v <- int_digits false 0 s' ;; Ok (- v)
  | String "+" s' => int_digits false 0 s'
  | s' => int_digits false 0 s'
  end.

(** [str(n)] for an integer. *)
Definition py_str (n : Z) : string := NilZero.string_of_int (Z.to_int n).

(** [1 << i]; a negative shift count raises [ValueError]. *)
Definition shl1 (i : Z) : result Z :=
  if i <? 0 then Err ValueError else Ok (Z.shiftl 1 i).

(** [range(a, b)] as a list. *)
Definition py_range (a b : Z) : list Z :=
  map (fun k => a + Z.of_nat k) (seq 0 (Z.to_nat (b - a))).

(** [sum(l)]. *)
Definition py_sum (l : list Z) : Z := fold_left Z.add l 0.

(** [l[i]] for [i >= 0]. *)
Definition py_index {A : Type} (l : list A) (i : nat) : result A :=
  match nth_error l i with
  | Some x => Ok x
  | None => Err IndexError
  end.

(** [itertools.product(l, l)]. *)
Definition product {A : Type} (l : list A) : list (A * A) :=
  flat_map (fun x => map (fun y => (x, y)) l) l.

(* ================================================================== *)
(** ** ip_address_utils.py *)

(** [get_value]: the four last dot-separated fields, least significant
    first, each read by [int] and weighted by [1 << (exponent << 3)]. *)
Fixpoint get_value_loop (ip_octets : list string) (exponents : list Z)
    (ip_num_value : Z) : result Z :=
  match exponents with
  | [] => Ok ip_num_value
  | exponent :: rest =>
      field <- py_index ip_octets (Z.to_nat exponent) ;;
      octet <- py_int field ;;
      get_value_loop ip_octets rest
        (ip_num_value + octet * Z.shiftl 1 (Z.shiftl exponent 3))
  end.

Definition get_value (ip_addr : string) : result Z :=
  let ip_octets := rev (split "." ip_addr) in
  get_value_loop ip_octets (py_range 0 4) 0.

Definition get_min_value (prefix : string) (mask : Z) : result Z :=
  ip_num_value <- get_value prefix ;;
  bits <- mapM shl1 (py_range (32 - mask) 32) ;;
  let mask_value := py_sum bits in
  Ok (Z.land ip_num_value mask_value).

Definition get_max_value (min_value : Z) (mask : Z) : Z :=
  fold_left (fun max_value i => max_value + Z.shiftl 1 i)
            (py_range 0 (32 - mask)) min_value.

(** [prefix, mask = ip_cidr.split("/")] raises [ValueError] unless the
    split has exactly two fields. *)
Definition ip_cidr_to_ip_value_range (ip_cidr : string) : result (Z * Z) :=
  match split "/" ip_cidr with
  | [prefix; mask] =>
      m <- py_int mask ;;
      min_value <- get_min_value prefix m ;;
      let max_value := get_max_value min_value m in
      Ok (min_value, max_value)
  | _ => Err ValueError
  end.

Definition value_to_ip (value : Z) : string :=
  let v1 := py_sum (map (Z.shiftl 1) (py_range 0 8)) in
  let octets :=
    map (fun i => let v2 := Z.shiftl v1 i in
                  py_str (Z.land value v2 / Z.shiftl 1 i))
        [0; 8; 16; 24] in
  join "." (rev octets).

Definition ip_range : Type := (string * string)%type.

Definition ip_cidr_to_ip_range (ip_cidr : string) : result ip_range :=
  '(min_value, max_value) <- ip_cidr_to_ip_value_range ip_cidr ;;
  Ok (value_to_ip min_value, value_to_ip max_value).

Definition is_ip_in_cidr (ip_addr ip_cidr : string) : result bool :=
  '(lo, hi) <- ip_cidr_to_ip_value_range ip_cidr ;;
  ip_addr_value <- get_value ip_addr ;;
  Ok ((lo <=? ip_addr_value) && (ip_addr_value <=? hi)).

(** The bit scan of [get_ip_cidr_from_ips]: [i] counts down from 32, the
    loop leaves at the first position where two values disagree.  Returns
    the final [(i, mask)]. *)
Fixpoint cidr_scan (values : list Z) (i : nat) (mask : Z) : Z * Z :=
  match i with
  | O => (0, mask)
  | S i' =>
      let b := Z.shiftl 1 (Z.of_nat i') in
      if existsb (fun '(value_1, value_2) =>
                    negb (Z.land value_1 b =? Z.land value_2 b))
                 (product values)
      then (Z.of_nat i', mask)
      else cidr_scan values i' (mask + b)
  end.

Definition get_ip_cidr_from_ips (ip_addrs : list string) : result string :=
  values <- mapM get_value ip_addrs ;;
  if forallb (fun '(ip_addr_1, ip_addr_2) => ip_addr_1 =? ip_addr_2)
             (product values)
  then
    first <- py_index ip_addrs 0 ;;
    Ok (first ++ "/32")
  else
    let '(i, mask) := cidr_scan values 32 0 in
    first_value <- py_index values 0 ;;
    let prefix := Z.land mask first_value in
    Ok (value_to_ip prefix ++ "/" ++ py_str (32 - (i + 1))).

Definition compare_ip_address_ranges (ip_range_1 ip_range_2 : ip_range)
  : result Z :=
  a <- get_value (fst ip_range_1) ;;
  b <- get_value (fst ip_range_2) ;;
  Ok (a - b).

(** The [and] is evaluated left to right and stops at a false conjunct. *)
Definition ip_ranges_overlap (ip_range_1 ip_range_2 : ip_range)
  : result bool :=
  a <- get_value (snd ip_range_1) ;;
  b <- get_value (fst ip_range_2) ;;
  if a >=? b then
    c <- get_value (snd ip_range_2) ;;
    d <- get_value (fst ip_range_1) ;;
    Ok (c >=? d)
  else Ok false.

(** [sorted(ip_ranges, key=functools.cmp_to_key(compare_ip_address_ranges))].
    The built-in sort is stable and only asks whether one key is below
    another, that is whether the comparison function returns a negative
    number.  For a comparison that orders by an integer key the result of a
    stable sort is determined, so the sort is modelled by a stable
    insertion sort.  When several ranges have unreadable lower bounds, which
    of their exceptions surfaces depends on the built-in's order of
    comparisons, which is not reproduced here. *)
Fixpoint insert_range (x : ip_range) (l : list ip_range)
  : result (list ip_range) :=
  match l with
  | [] => Ok [x]
  | y :: l' =>
      c <- compare_ip_address_ranges y x ;;
      if c <? 0 then r <- insert_range x l' ;; Ok (y :: r)
      else Ok (x :: l)
  end.

Fixpoint sort_ip_address_ranges (ip_ranges : list ip_range)
  : result (list ip_range) :=
  match ip_ranges with
  | [] => Ok []
  | x :: rest => s <- sort_ip_address_ranges rest ;; insert_range x s
  end.

Definition combine_ip_ranges (ip_range_1 ip_range_2 : ip_range)
  : result ip_range :=
  a <- get_value (fst ip_range_1) ;;
  b <- get_value (fst ip_range_2) ;;
  let min_ip_range := if a <? b then fst ip_range_1 else fst ip_range_2 in
  c <- get_value (snd ip_range_1) ;;
  d <- get_value (snd ip_range_2) ;;
  let max_ip_range := if c >? d then snd ip_range_1 else snd ip_range_2 in
  Ok (min_ip_range, max_ip_range).

(** [l[-1] if l else None]. *)
Definition last_or_none {A : Type} (l : list A) : option A :=
  match rev l with
  | [] => None
  | x :: _ => Some x
  end.

(** One iteration of the loop of [consolidate_ip_ranges]; a range is a
    two-element sequence, hence truthy. *)
Definition consolidate_step (consolidated_ranges : list ip_range)
    (r : ip_range) : result (list ip_range) :=
  match last_or_none consolidated_ranges with
  | Some last_consolidated_range =>
      ov <- ip_ranges_overlap r last_consolidated_range ;;
      if ov then
        c <- combine_ip_ranges r last_consolidated_range ;;
        Ok (removelast consolidated_ranges ++ [c])%list
      else Ok (consolidated_ranges ++ [r])%list
  | None => Ok (consolidated_ranges ++ [r])%list
  end.

Fixpoint consolidate_loop (consolidated_ranges : list ip_range)
    (todo : list ip_range) : result (list ip_range) :=
  match todo with
  | [] => Ok consolidated_ranges
  | r :: rest =>
      acc <- consolidate_step consolidated_ranges r ;;
      consolidate_loop acc rest
  end.

Definition consolidate_ip_ranges (ip_ranges : list ip_range)
  : result (list ip_range) :=
  s <- sort_ip_address_ranges ip_ranges ;;
  consolidate_loop [] s.

(** The progress line printed between the stages is not part of the
    returned value and is left out. *)
Definition consolidate_ip_cidrs (ip_cidrs : list string)
  : result (list string) :=
  ip_ranges <- mapM ip_cidr_to_ip_range ip_cidrs ;;
  consolidated_ranges <- consolidate_ip_ranges ip_ranges ;;
  mapM (fun r : ip_range => get_ip_cidr_from_ips [fst r; snd r])
       consolidated_ranges.

(* ================================================================== *)
(** ** Well-formed inputs *)

Fixpoint all_digits (s : string) : bool :=
  match s with
  | EmptyString => true
  | String c s' => is_digit c && all_digits s'
  end.

Definition in_bounds (lo hi : Z) (m : result Z) : bool :=
  match m with
  | Ok v => (lo <=? v) && (v <=? hi)
  | Err _ => false
  end.

(** A numeric octet: one to three decimal digits denoting 0..255. *)
Definition octet_ok (s : string) : bool :=
  all_digits s && (1 <=? length s)%nat && (length s <=? 3)%nat
  && in_bounds 0 255 (py_int s).

(** A mask length: one or two decimal digits denoting 0..32. *)
Definition mask_ok (s : string) : bool :=
  all_digits s && (1 <=? length s)%nat && (length s <=? 2)%nat
  && in_bounds 0 32 (py_int s).

(** A dotted quad: four numeric octets separated by dots. *)
Definition wf_quad (s : string) : bool :=
  match split "." s with
  | [a; b; c; d] => octet_ok a && octet_ok b && octet_ok c && octet_ok d
  | _ => false
  end.

(** A CIDR string [a.b.c.d/m]. *)
Definition wf_cidr (s : string) : bool :=
  match split "/" s with
  | [p; m] => wf_quad p && mask_ok m
  | _ => false
  end.

(** An octet in canonical decimal: no leading zero besides ["0"] itself. *)
Definition canonical_octet (s : string) : bool :=
  octet_ok s &&
  match s with
  | String "0" (String _ _) => false
  | _ => true
  end.

Definition canonical_quad (s : string) : bool :=
  match split "." s with
  | [a; b; c; d] =>
      canonical_octet a && canonical_octet b
      && canonical_octet c && canonical_octet d
  | _ => false
  end.

(** The numeric reading of an address that is known to parse. *)
Definition value_of (s : string) : Z :=
  match get_value s with
  | Ok v => v
  | Err _ => 0
  end.

Definition low (r : ip_range) : Z := value_of (fst r).
Definition high (r : ip_range) : Z := value_of (snd r).

(** A range of two dotted quads with lower bound at most upper bound. *)
Definition range_ok (r : ip_range) : bool :=
  wf_quad (fst r) && wf_quad (snd r) && (low r <=? high r).

(** [covers r v]: the address value [v] lies in the range [r]. *)
Definition covers (r : ip_range) (v : Z) : Prop := low r <= v <= high r.

(** [within r o]: the range [r] is fully contained in [o]. *)
Definition within (r o : ip_range) : Prop := low o <= low r /\ high r <= high o.

(** The address range of a CIDR string, when it has one. *)
Definition cidr_covers (c : string) (v : Z) : Prop :=
  exists lo hi, ip_cidr_to_ip_value_range c = Ok (lo, hi) /\ lo <= v <= hi.

(* ================================================================== *)
(** ** Auxiliary definitions of the proofs *)

(** Splits the boolean conjunctions among the hypotheses. *)
Ltac split_andb :=
  repeat match goal with
         | H : ?a && ?b = true |- _ =>
             let H1 := fresh H in
             let H2 := fresh H in
             apply andb_true_iff in H as [H1 H2]
         end.

(** [c not in s]. *)
Fixpoint no_char (c : ascii) (s : string) : bool :=
  match s with
  | EmptyString => true
  | String d s' => negb (Ascii.eqb d c) && no_char c s'
  end.

(** A result is [Ok v]. *)
Definition result_eqb (m : result Z) (v : Z) : bool :=
  match m with
  | Ok w => w =? v
  | Err _ => false
  end.

(** The value of the address with octets [a.b.c.d]. *)
Definition quad_value (a b c d : Z) : Z :=
  a * 2 ^ 24 + b * 2 ^ 16 + c * 2 ^ 8 + d.

(** The octet of [v] that starts at bit [i]. *)
Definition octet_at (v i : Z) : Z := (v / 2 ^ i) mod 2 ^ 8.

(** The bounds of the block of mask length [m] around the value [v]. *)
Definition block_low (v m : Z) : Z := v - v mod 2 ^ (32 - m).

Definition block_high (v m : Z) : Z := block_low v m + 2 ^ (32 - m) - 1.

(** An address that [get_value] reads without raising. *)
Definition readable (s : string) : Prop := get_value s = Ok (value_of s).

Definition readable_range (r : ip_range) : Prop :=
  readable (fst r) /\ readable (snd r).

(** The order of the sort, and the order of two ranges with a gap or at
    least no common address between them. *)
Definition le_low (a b : ip_range) : Prop := low a <= low b.
Definition before (a b : ip_range) : Prop := high a < low b.

(** A property of value ranges kept by merging: if it holds of [[a, b]]
    and of a range [[c, d]] that starts inside [[a, b]], it holds of their
    union. *)
Definition merge_closed (Q : Z -> Z -> Prop) : Prop :=
  forall a b c d, Q a b -> Q c d -> a <= c -> c <= b -> Q a (Z.max b d).

(** The invariant of the sweep of [consolidate_ip_ranges]: [acc] is the
    list of consolidated ranges after the ranges [done] were processed. *)
Record sweep_inv (Q : Z -> Z -> Prop) (done acc : list ip_range) : Prop := {
  inv_proper : forall o, In o acc -> low o <= high o;
  inv_apart : StronglySorted before acc;
  inv_cover : forall v, (exists o, In o acc /\ covers o v)
                        <-> (exists r, In r done /\ covers r v);
  inv_within : forall r, In r done -> exists o, In o acc /\ within r o;
  inv_low : forall o, In o acc -> exists r, In r done /\ fst o = fst r;
  inv_high : forall o, In o acc -> exists r, In r done /\ snd o = snd r;
  inv_shape : forall o, In o acc -> Q (low o) (high o)
}.

(** What the sweep asks of an input range. *)
Definition sweepable (Q : Z -> Z -> Prop) (r : ip_range) : Prop :=
  readable_range r /\ low r <= high r /\ Q (low r) (high r).

(** Sample inputs: ranges that overlap, nest and lie apart, and two
    ranges that touch. *)
Definition sample_ranges : list ip_range :=
  [("0.0.0.3", "0.0.0.9"); ("0.0.0.1", "0.0.0.4");
   ("0.0.0.2", "0.0.0.2"); ("10.0.0.20", "10.0.1.21")].

Definition touching_ranges : list ip_range :=
  [("0.0.0.1", "0.0.0.2"); ("0.0.0.3", "0.0.0.4")].

(** Two of the values disagree at bit [i]. *)
Definition bit_differs (values : list Z) (i : Z) : Prop :=
  exists x y, In x values /\ In y values /\ Z.testbit x i <> Z.testbit y i.

(** The mask length a CIDR string carries, as
    [ip_cidr_to_ip_value_range] reads it. *)
Definition cidr_mask (c : string) : result Z :=
  match split "/" c with
  | [_; mask] => py_int mask
  | _ => Err ValueError
  end.

(** The value ranges of CIDR blocks. *)
Definition is_block (lo hi : Z) : Prop :=
  exists v m, 0 <= v < 2 ^ 32 /\ 0 <= m <= 32 /\
    lo = block_low v m /\ hi = block_high v m.

(** The range of printed addresses that [ip_cidr_to_ip_range] makes of a
    value range. *)
Definition printed_range (lo_hi : Z * Z) : ip_range :=
  (value_to_ip (fst lo_hi), value_to_ip (snd lo_hi)).

(** A range is made of the printed forms of its two values. *)
Definition printed (r : ip_range) : Prop := r = printed_range (low r, high r).

Definition sample_cidrs : list string :=
  ["1.0.0.0/25"; "1.0.0.200/29"; "192.168.1.77/24"; "1.0.0.0/8";
   "255.255.255.255/32"; "192.168.0.0/24"].

Definition sample_addresses : list string :=
  ["192.168.43.0"; "192.168.44.0"; "192.168.45.0"; "192.168.44.0"].

(** Every end of a range of [l] is, as a string, the same end of a range
    of [src]. *)
Definition ends_from (src l : list ip_range) : Prop :=
  forall o, In o l ->
    (exists r, In r src /\ fst o = fst r) /\
    (exists r, In r src /\ snd o = snd r).

(** Two ranges of which one ends below the start of the other. *)
Definition apart_b (a b : ip_range) : bool :=
  (high a <? low b) || (high b <? low a).

(** [o] is made of ranges of [src] chained by common addresses: any two
    neighbouring values of [o] lie together in one range of [src]. *)
Definition linked (src : list ip_range) (o : ip_range) : Prop :=
  forall v, low o <= v < high o ->
    exists r, In r src /\ covers r v /\ covers r (v + 1).

(** The two values of a range. *)
Definition vals (r : ip_range) : Z * Z := (low r, high r).

(** A range of two dotted quads in canonical decimal, lower bound first. *)
Definition canonical_range (r : ip_range) : bool :=
  canonical_quad (fst r) && canonical_quad (snd r) && (low r <=? high r).

(** The spelling [consolidate_ip_cidrs] gives a block: the first address
    of the block in canonical decimal, a slash, and the mask length in
    canonical decimal. *)
Definition block_string (v m : Z) : string :=
  value_to_ip (block_low v m) ++ "/" ++ py_str m.

(** The range [ip_cidr_to_ip_range] makes of a CIDR string it accepts. *)
Definition range_of_cidr (c : string) : ip_range :=
  match ip_cidr_to_ip_range c with
  | Ok r => r
  | Err _ => ("", "")
  end.

(** [s.startswith(p)]. *)
Fixpoint starts_with (p s : string) : bool :=
  match p with
  | EmptyString => true
  | String c p' =>
      match s with
      | EmptyString => false
      | String d s' => Ascii.eqb c d && starts_with p' s'
      end
  end.

(** [s.split(sep)] for a separator of one or more characters: the
    occurrences of [sep] are found from the left and do not overlap.
    [skip] counts the characters of a found separator still to pass. *)
Fixpoint split_str_aux (sep : string) (skip : nat) (s : string) : list string :=
  match s with
  | EmptyString => [EmptyString]
  | String c s' =>
      match skip with
      | S k => split_str_aux sep k s'
      | O =>
          if starts_with sep s
          then EmptyString :: split_str_aux sep (String.length sep - 1) s'
          else match split_str_aux sep 0 s' with
               | [] => [String c EmptyString]
               | p :: ps => String c p :: ps
               end
      end
  end.

Definition split_str (sep s : string) : list string := split_str_aux sep 0 s.


(* ================================================================== *)
(** ** inetnum_file_parser.py: the record loop of [main]

    The loop reads the lines of a registry file and builds records, which
    it hands to [save_records] in batches.  The model takes the lines as
    the file yields them, and lists the batches handed to [save_records]
    in the order of the calls, in place of the writes to the CSV file and
    the database; [save_records] is taken to return.  A record, a Python
    [dict] from column names to strings, is an association list with one
    entry per key. *)

Inductive parse_error : Type :=
| KeyError
| AddressError (e : pyerr).

Inductive outcome (A : Type) : Type :=
| Parsed (a : A)
| Raised (e : parse_error).

Arguments Parsed {A} a.
Arguments Raised {A} e.

Definition inet_record : Type := list (string * string).

(** [record.get(key)]. *)
Fixpoint dict_get (key : string) (d : inet_record) : option string :=
  match d with
  | [] => None
  | (k, v) :: d' => if String.eqb k key then Some v else dict_get key d'
  end.

(** [record[key] = value]. *)
Fixpoint dict_set (key value : string) (d : inet_record) : inet_record :=
  match d with
  | [] => [(key, value)]
  | (k, v) :: d' =>
      if String.eqb k key then (k, value) :: d'
      else (k, v) :: dict_set key value d'
  end.

(** [s.rstrip()] and [s.strip()]. *)
Fixpoint rstrip (s : string) : string :=
  match s with
  | EmptyString => EmptyString
  | String c s' =>
      match rstrip s' with
      | EmptyString => if is_space c then EmptyString else String c EmptyString
      | t => String c t
      end
  end.

Definition strip (s : string) : string := lstrip (rstrip s).

(** The characters of the class of the pattern: letters, digits and the
    dash. *)
Definition is_name_char (c : ascii) : bool :=
  let n := nat_of_ascii c in
  ((97 <=? n)%nat && (n <=? 122)%nat) || ((65 <=? n)%nat && (n <=? 90)%nat)
  || ((48 <=? n)%nat && (n <=? 57)%nat) || (n =? 45)%nat.

(** The longest prefix of name characters, and what follows it. *)
Fixpoint span_name (s : string) : string * string :=
  match s with
  | String c s' =>
      if is_name_char c
      then let '(name, rest) := span_name s' in (String c name, rest)
      else (EmptyString, s)
  | EmptyString => (EmptyString, EmptyString)
  end.

(** What the dot of the pattern matches, repeated: the characters up to
    the first newline. *)
Fixpoint up_to_newline (s : string) : string :=
  match s with
  | String c s' =>
      if Ascii.eqb c "010" then EmptyString else String c (up_to_newline s')
  | EmptyString => EmptyString
  end.

(** The match of the pattern of [main] at the start of [s], when there is
    one: one or more name characters, a colon, and the rest of the line.
    A colon is no name character, so the name is the whole run of name
    characters and a colon must follow it. *)
Definition match_field (s : string) : option (string * string) :=
  match span_name s with
  | (String c name, String ":" value) =>
      Some (String c name, up_to_newline value)
  | _ => None
  end.

Record parser_state : Type := {
  records : list inet_record;
  record : inet_record;
  column_name : option string;
  num_records : Z;
  saved : list (list inet_record)
}.

Definition initial_state : parser_state :=
  {| records := []; record := []; column_name := None;
     num_records := 0; saved := [] |}.

(** [columns_downselect is None or name in columns_downselect]. *)
Definition selected (columns_downselect : option (list string))
    (name : string) : bool :=
  match columns_downselect with
  | None => true
  | Some cols => existsb (String.eqb name) cols
  end.

Definition is_comment (line : string) : bool :=
  starts_with "#" line || starts_with "%" line.

Definition is_blank (line : string) : bool := String.eqb (strip line) "".

(** The branch of the loop for a blank line: the record under way, when
    it has data, joins the records; a full batch is saved. *)
Definition end_record (batch_size : Z) (st : parser_state) : parser_state :=
  let closed :=
    match record st with
    | [] => (records st, record st)
    | _ :: _ => ((records st ++ [record st])%list, [])
    end in
  if Z.of_nat (List.length (fst closed)) =? batch_size
  then {| records := []; record := snd closed;
          column_name := column_name st;
          num_records := num_records st + batch_size;
          saved := (saved st ++ [fst closed])%list |}
  else {| records := fst closed; record := snd closed;
          column_name := column_name st;
          num_records := num_records st;
          saved := saved st |}.

(** The branch for a line [name:value]. *)
Definition field_line (columns_downselect : option (list string))
    (st : parser_state) (name value : string) : outcome parser_state :=
  if selected columns_downselect name then
    let record1 :=
      match dict_get name (record st) with
      | None => dict_set name value (record st)
      | Some old => dict_set name (old ++ String "010" value) (record st)
      end in
    if String.eqb name "inetnum" && selected columns_downselect "ip_cidr"
    then
      match get_ip_cidr_from_ips (split_str " - " value) with
      | Ok cidr =>
          Parsed {| records := records st;
                    record := dict_set "ip_cidr" cidr record1;
                    column_name := Some name;
                    num_records := num_records st; saved := saved st |}
      | Err e => Raised (AddressError e)
      end
    else
      Parsed {| records := records st; record := record1;
                column_name := Some name;
                num_records := num_records st; saved := saved st |}
  else
    Parsed {| records := records st; record := record st;
              column_name := Some name;
              num_records := num_records st; saved := saved st |}.

(** The branch for any other line: it continues the value of the last
    column seen; [record[column_name] += ...] raises [KeyError] when the
    record has no such column. *)
Definition continuation_line (columns_downselect : option (list string))
    (st : parser_state) (text : string) : outcome parser_state :=
  match column_name st with
  | Some key =>
      if selected columns_downselect key then
        match dict_get key (record st) with
        | Some old =>
            Parsed {| records := records st;
                      record := dict_set key (old ++ String "010" text)
                                         (record st);
                      column_name := column_name st;
                      num_records := num_records st; saved := saved st |}
        | None => Raised KeyError
        end
      else Parsed st
  | None =>
      match columns_downselect with
      | None => Raised KeyError
      | Some _ => Parsed st
      end
  end.

(** One iteration of [for line in inet_file]. *)
Definition parse_line (batch_size : Z)
    (columns_downselect : option (list string))
    (st : parser_state) (line : string) : outcome parser_state :=
  if is_comment line then Parsed st
  else if is_blank line then Parsed (end_record batch_size st)
  else
    match match_field (rstrip line) with
    | Some (name, value) => field_line columns_downselect st name value
    | None => continuation_line columns_downselect st (rstrip line)
    end.

Fixpoint parse_lines (batch_size : Z)
    (columns_downselect : option (list string))
    (st : parser_state) (lines : list string) : outcome parser_state :=
  match lines with
  | [] => Parsed st
  | line :: rest =>
      match parse_line batch_size columns_downselect st line with
      | Parsed st' => parse_lines batch_size columns_downselect st' rest
      | Raised e => Raised e
      end
  end.

(** After the loop the records left are saved.  The result is the list of
    batches handed to [save_records] and the count that [main] prints. *)
Definition parse_file (batch_size : Z)
    (columns_downselect : option (list string)) (lines : list string)
  : outcome (list (list inet_record) * Z) :=
  match parse_lines batch_size columns_downselect initial_state lines with
  | Parsed st =>
      match records st with
      | [] => Parsed (saved st, num_records st)
      | _ :: _ =>
          Parsed ((saved st ++ [records st])%list,
                  num_records st + Z.of_nat (List.length (records st)))
      end
  | Raised e => Raised e
  end.

(** A small registry file: a comment, two records, the second not
    followed by a blank line. *)
Definition sample_lines : list string :=
  ["# comment" ++ String "010" "";
   "inetnum:        1.2.3.0 - 1.2.3.255" ++ String "010" "";
   "netname:        EXAMPLE" ++ String "010" "";
   "descr:          first line" ++ String "010" "";
   "                second line" ++ String "010" "";
   String "010" "";
   "inetnum:        10.0.0.0 - 10.0.0.0" ++ String "010" "";
   "country:        ZZ" ++ String "010" ""].

(* ================================================================== *)
(** ** Strings: splitting and joining *)

Lemma split_no_char (sep : ascii) (s : string) :
  no_char sep s = true -> split sep s = [s].
Proof.
  induction s as [|d s IH]; simpl; [reflexivity|].
  intros H. apply andb_true_iff in H as [Hd Hs].
  apply negb_true_iff in Hd. rewrite Hd, (IH Hs). reflexivity.
Qed.

Lemma split_app (sep : ascii) (s t : string) :
  no_char sep s = true ->
  split sep (s ++ String sep t) = s :: split sep t.
Proof.
  induction s as [|d s IH]; simpl.
  - intros _. now rewrite Ascii.eqb_refl.
  - intros H. apply andb_true_iff in H as [Hd Hs].
    apply negb_true_iff in Hd. rewrite Hd, (IH Hs). reflexivity.
Qed.

Lemma split_not_nil (sep : ascii) (s : string) : split sep s <> [].
Proof.
  destruct s as [|d s]; simpl; [discriminate|].
  destruct (Ascii.eqb d sep); [discriminate|].
  destruct (split sep s); discriminate.
Qed.

Lemma join_cons (sep p : string) (q : string) (ps : list string) :
  join sep (p :: q :: ps) = p ++ sep ++ join sep (q :: ps).
Proof. reflexivity. Qed.

(** Joining the fields of a split gives the string back. *)
Lemma join_split (sep : ascii) (s : string) :
  join (String sep EmptyString) (split sep s) = s.
Proof.
  induction s as [|d s IH]; simpl; [reflexivity|].
  destruct (Ascii.eqb_spec d sep) as [->|Hne].
  - destruct (split sep s) as [|p ps] eqn:E.
    + now apply split_not_nil in E.
    + rewrite join_cons. simpl. now rewrite <- IH.
  - destruct (split sep s) as [|p ps] eqn:E.
    + now apply split_not_nil in E.
    + destruct ps as [|q ps]; simpl in *; now rewrite <- IH.
Qed.

Lemma no_char_app (c : ascii) (s t : string) :
  no_char c (s ++ t) = no_char c s && no_char c t.
Proof.
  induction s as [|d s IH]; simpl; [reflexivity|].
  now rewrite IH, andb_assoc.
Qed.

Lemma all_digits_no_char (c : ascii) (s : string) :
  is_digit c = false -> all_digits s = true -> no_char c s = true.
Proof.
  intros Hc. induction s as [|d s IH]; simpl; [reflexivity|].
  intros H. apply andb_true_iff in H as [Hd Hs].
  rewrite (IH Hs), andb_true_r. apply negb_true_iff.
  destruct (Ascii.eqb_spec d c) as [->|]; congruence.
Qed.

(* ================================================================== *)
(** ** The result monad *)

Lemma mapM_ok {A B : Type} (f : A -> result B) (g : A -> B) (l : list A) :
  Forall (fun x => f x = Ok (g x)) l -> mapM f l = Ok (map g l).
Proof.
  induction 1 as [|x l Hx _ IH]; simpl; [reflexivity|].
  now rewrite Hx, IH.
Qed.

(* ================================================================== *)
(** ** Octets and their decimal form *)

Lemma in_py_range (a b v : Z) : a <= v < b -> In v (py_range a b).
Proof.
  intros H. unfold py_range. apply in_map_iff.
  exists (Z.to_nat (v - a)). split; [lia|].
  apply in_seq. lia.
Qed.

(** Checking a decidable property of all integers of a small interval. *)
Lemma range_check (P : Z -> bool) (a b : Z) :
  forallb P (py_range a b) = true -> forall v, a <= v < b -> P v = true.
Proof.
  intros H v Hv. rewrite forallb_forall in H. apply H. now apply in_py_range.
Qed.

Lemma result_eqb_eq (m : result Z) (v : Z) : result_eqb m v = true -> m = Ok v.
Proof.
  destruct m; simpl; [|discriminate]. intros H. apply Z.eqb_eq in H. now subst.
Qed.

(** The decimal form of a number of 0..255 is a canonical octet that
    [int] reads back. *)
Lemma py_str_octet (o : Z) :
  0 <= o <= 255 ->
  py_int (py_str o) = Ok o /\ canonical_octet (py_str o) = true.
Proof.
  intros H.
  pose (P := fun v => result_eqb (py_int (py_str v)) v
                      && canonical_octet (py_str v)).
  assert (C : P o = true).
  { apply (range_check P 0 256); [vm_compute; reflexivity|lia]. }
  unfold P in C.
  apply andb_true_iff in C as [C1 C2]. split; [now apply result_eqb_eq|exact C2].
Qed.

Lemma py_str_mask (m : Z) :
  0 <= m <= 32 -> py_int (py_str m) = Ok m /\ mask_ok (py_str m) = true.
Proof.
  intros H.
  pose (P := fun v => result_eqb (py_int (py_str v)) v && mask_ok (py_str v)).
  assert (C : P m = true).
  { apply (range_check P 0 33); [vm_compute; reflexivity|lia]. }
  unfold P in C.
  apply andb_true_iff in C as [C1 C2]. split; [now apply result_eqb_eq|exact C2].
Qed.

Lemma octet_ok_inv (s : string) :
  octet_ok s = true ->
  all_digits s = true /\ exists o, py_int s = Ok o /\ 0 <= o <= 255.
Proof.
  unfold octet_ok, in_bounds. intros H.
  repeat (apply andb_true_iff in H as [H ?]).
  split; [assumption|].
  destruct (py_int s) as [o|]; [|discriminate].
  exists o. split; [reflexivity|]. lia.
Qed.

Lemma mask_ok_inv (s : string) :
  mask_ok s = true ->
  all_digits s = true /\ exists m, py_int s = Ok m /\ 0 <= m <= 32.
Proof.
  unfold mask_ok, in_bounds. intros H.
  repeat (apply andb_true_iff in H as [H ?]).
  split; [assumption|].
  destruct (py_int s) as [o|]; [|discriminate].
  exists o. split; [reflexivity|]. lia.
Qed.

Lemma canonical_octet_ok (s : string) :
  canonical_octet s = true -> octet_ok s = true.
Proof. unfold canonical_octet. intros H. now apply andb_true_iff in H. Qed.

Lemma canonical_quad_wf (s : string) :
  canonical_quad s = true -> wf_quad s = true.
Proof.
  unfold canonical_quad, wf_quad.
  destruct (split "." s) as [|a [|b [|c [|d [|]]]]]; try discriminate.
  intros H. split_andb.
  rewrite !canonical_octet_ok by assumption. reflexivity.
Qed.

Lemma digit_cases (c : ascii) :
  is_digit c = true ->
  In c ["0"; "1"; "2"; "3"; "4"; "5"; "6"; "7"; "8"; "9"]%char.
Proof.
  destruct c as [[] [] [] [] [] [] [] []]; intros H;
    vm_compute in H; try discriminate H;
    simpl; repeat (first [left; reflexivity | right]).
Qed.

(** A canonical octet is the decimal form of the number it denotes. *)
Lemma canonical_octet_str (s : string) :
  canonical_octet s = true ->
  exists o, py_int s = Ok o /\ 0 <= o <= 255 /\ py_str o = s.
Proof.
  intros C.
  assert (K : match py_int s with
              | Ok o => String.eqb (py_str o) s
              | Err _ => false
              end = true).
  { pose proof (canonical_octet_ok _ C) as O.
    unfold octet_ok in O. split_andb.
    destruct s as [|c1 [|c2 [|c3 [|c4 s]]]]; try discriminate.
    all: match goal with D : all_digits _ = true |- _ => simpl in D end.
    all: split_andb.
    all: repeat match goal with
                | D : is_digit ?c = true |- _ =>
                    apply digit_cases in D; simpl in D;
                    repeat (destruct D as [<-|D]); try contradiction
                end.
    all: first [ vm_compute; reflexivity | vm_compute in C; discriminate C ]. }
  apply canonical_octet_ok, octet_ok_inv in C as (_ & o & Ho & Hb).
  exists o. rewrite Ho in K. apply String.eqb_eq in K. auto.
Qed.

(* ================================================================== *)
(** ** [get_value] on well-formed addresses *)

Lemma get_value_fields (s a b c d : string) (va vb vc vd : Z) :
  split "." s = [a; b; c; d] ->
  py_int a = Ok va -> py_int b = Ok vb ->
  py_int c = Ok vc -> py_int d = Ok vd ->
  get_value s = Ok (quad_value va vb vc vd).
Proof.
  intros Hs Ha Hb Hc Hd. unfold get_value. rewrite Hs.
  change (py_range 0 4) with [0; 1; 2; 3].
  unfold get_value_loop.
  change (Z.to_nat 0) with 0%nat. change (Z.to_nat 1) with 1%nat.
  change (Z.to_nat 2) with 2%nat. change (Z.to_nat 3) with 3%nat.
  unfold py_index. cbn [rev app nth_error bind].
  rewrite Hd. cbn [bind]. rewrite Hc. cbn [bind].
  rewrite Hb. cbn [bind]. rewrite Ha. cbn [bind].
  f_equal. unfold quad_value.
  change (Z.shiftl 1 (Z.shiftl 0 3)) with 1.
  change (Z.shiftl 1 (Z.shiftl 1 3)) with (2 ^ 8).
  change (Z.shiftl 1 (Z.shiftl 2 3)) with (2 ^ 16).
  change (Z.shiftl 1 (Z.shiftl 3 3)) with (2 ^ 24).
  lia.
Qed.

Lemma quad_value_bounds (a b c d : Z) :
  0 <= a <= 255 -> 0 <= b <= 255 -> 0 <= c <= 255 -> 0 <= d <= 255 ->
  0 <= quad_value a b c d < 2 ^ 32.
Proof. unfold quad_value. lia. Qed.

Lemma wf_quad_value (s : string) :
  wf_quad s = true ->
  exists v, get_value s = Ok v /\ 0 <= v < 2 ^ 32.
Proof.
  unfold wf_quad.
  destruct (split "." s) as [|a [|b [|c [|d [|]]]]] eqn:Hs; try discriminate.
  intros H. split_andb.
  repeat match goal with
         | O : octet_ok _ = true |- _ =>
             apply octet_ok_inv in O as (_ & ? & ? & ?)
         end.
  eexists. split.
  - eapply get_value_fields; eassumption.
  - now apply quad_value_bounds.
Qed.

Lemma wf_quad_no_slash (s : string) :
  wf_quad s = true -> no_char "/" s = true.
Proof.
  unfold wf_quad. intros H.
  rewrite <- (join_split "." s).
  destruct (split "." s) as [|a [|b [|c [|d [|]]]]]; try discriminate.
  split_andb.
  repeat match goal with
         | O : octet_ok _ = true |- _ =>
             apply octet_ok_inv in O as (O & _);
             apply (all_digits_no_char "/") in O; [|reflexivity]
         end.
  simpl. repeat (progress (rewrite ?no_char_app; simpl)).
  repeat match goal with O : no_char _ _ = true |- _ => rewrite O; clear O end.
  reflexivity.
Qed.

(* ================================================================== *)
(** ** [value_to_ip] *)

Lemma octet_extract (v i : Z) :
  0 <= i ->
  Z.land v (Z.shiftl 255 i) / Z.shiftl 1 i = (v / 2 ^ i) mod 2 ^ 8.
Proof.
  intros Hi.
  rewrite Z.shiftl_1_l, <- !Z.shiftr_div_pow2 by assumption.
  rewrite Z.shiftr_land, Z.shiftr_shiftl_l, Z.sub_diag by lia.
  change (Z.shiftl 255 0) with (Z.ones 8).
  apply Z.land_ones. lia.
Qed.

Lemma octet_at_bounds (v i : Z) : 0 <= octet_at v i <= 255.
Proof.
  unfold octet_at. pose proof (Z.mod_pos_bound (v / 2 ^ i) (2 ^ 8)). lia.
Qed.

Lemma value_to_ip_eq (v : Z) :
  value_to_ip v =
  py_str (octet_at v 24) ++ "." ++ py_str (octet_at v 16) ++ "."
  ++ py_str (octet_at v 8) ++ "." ++ py_str (octet_at v 0).
Proof.
  unfold value_to_ip.
  change (py_sum (map (Z.shiftl 1) (py_range 0 8))) with 255.
  cbn [map rev app join].
  rewrite !octet_extract by lia. reflexivity.
Qed.

Lemma octet_at_quad (a b c d : Z) :
  0 <= a <= 255 -> 0 <= b <= 255 -> 0 <= c <= 255 -> 0 <= d <= 255 ->
  octet_at (quad_value a b c d) 24 = a /\
  octet_at (quad_value a b c d) 16 = b /\
  octet_at (quad_value a b c d) 8 = c /\
  octet_at (quad_value a b c d) 0 = d.
Proof.
  intros Ha Hb Hc Hd. unfold octet_at, quad_value.
  change (2 ^ 24) with 16777216. change (2 ^ 16) with 65536.
  change (2 ^ 8) with 256. change (2 ^ 0) with 1.
  repeat split; Z.div_mod_to_equations; lia.
Qed.

Lemma quad_of_octets (v : Z) :
  quad_value (octet_at v 24) (octet_at v 16) (octet_at v 8) (octet_at v 0)
  = v mod 2 ^ 32.
Proof.
  unfold octet_at, quad_value.
  change (2 ^ 24) with 16777216. change (2 ^ 16) with 65536.
  change (2 ^ 8) with 256. change (2 ^ 0) with 1.
  change (2 ^ 32) with 4294967296.
  Z.div_mod_to_equations; lia.
Qed.

Lemma octet_at_mod (v i : Z) :
  In i [0; 8; 16; 24] -> octet_at (v mod 2 ^ 32) i = octet_at v i.
Proof.
  unfold octet_at. change (2 ^ 32) with 4294967296. change (2 ^ 8) with 256.
  simpl. intros [<-|[<-|[<-|[<-|[]]]]].
  - change (2 ^ 0) with 1. Z.div_mod_to_equations; lia.
  - change (2 ^ 8) with 256. Z.div_mod_to_equations; lia.
  - change (2 ^ 16) with 65536. Z.div_mod_to_equations; lia.
  - change (2 ^ 24) with 16777216. Z.div_mod_to_equations; lia.
Qed.

Lemma py_str_octet_no_dot (o : Z) :
  0 <= o <= 255 -> no_char "." (py_str o) = true.
Proof.
  intros H. apply py_str_octet in H as [_ H].
  apply canonical_octet_ok, octet_ok_inv in H as [H _].
  now apply all_digits_no_char.
Qed.

Lemma split_dotted (a b c d : Z) :
  0 <= a <= 255 -> 0 <= b <= 255 -> 0 <= c <= 255 -> 0 <= d <= 255 ->
  split "." (py_str a ++ "." ++ py_str b ++ "." ++ py_str c ++ "." ++ py_str d)
  = [py_str a; py_str b; py_str c; py_str d].
Proof.
  intros Ha Hb Hc Hd.
  cbn [append].
  rewrite !split_app by now apply py_str_octet_no_dot.
  rewrite split_no_char by now apply py_str_octet_no_dot.
  reflexivity.
Qed.

Lemma split_value_to_ip (v : Z) :
  split "." (value_to_ip v) =
  [py_str (octet_at v 24); py_str (octet_at v 16);
   py_str (octet_at v 8); py_str (octet_at v 0)].
Proof. rewrite value_to_ip_eq. apply split_dotted; apply octet_at_bounds. Qed.

(** What [get_value] reads back from a printed address. *)
Lemma get_value_value_to_ip (v : Z) :
  get_value (value_to_ip v) = Ok (v mod 2 ^ 32).
Proof.
  rewrite <- quad_of_octets.
  eapply get_value_fields; [apply split_value_to_ip|..];
    apply py_str_octet, octet_at_bounds.
Qed.

Lemma value_to_ip_mod (v : Z) : value_to_ip (v mod 2 ^ 32) = value_to_ip v.
Proof.
  rewrite !value_to_ip_eq, !octet_at_mod by (simpl; auto). reflexivity.
Qed.

Lemma value_to_ip_canonical (v : Z) : canonical_quad (value_to_ip v) = true.
Proof.
  unfold canonical_quad. rewrite split_value_to_ip.
  pose proof (fun i => proj2 (py_str_octet _ (octet_at_bounds v i))) as H.
  now rewrite !H.
Qed.

Lemma value_of_value_to_ip (v : Z) :
  0 <= v < 2 ^ 32 -> value_of (value_to_ip v) = v.
Proof.
  intros H. unfold value_of. rewrite get_value_value_to_ip.
  now apply Z.mod_small.
Qed.

(** Printing the value of a canonical address gives the address back. *)
Lemma value_to_ip_get_value (a : string) (v : Z) :
  canonical_quad a = true -> get_value a = Ok v -> value_to_ip v = a.
Proof.
  unfold canonical_quad.
  destruct (split "." a) as [|p3 [|p2 [|p1 [|p0 [|]]]]] eqn:Hs; try discriminate.
  intros H Hv. split_andb.
  repeat match goal with
         | C : canonical_octet _ = true |- _ =>
             apply canonical_octet_str in C as (? & ? & ? & ?)
         end.
  erewrite get_value_fields in Hv by eassumption.
  injection Hv as <-.
  rewrite value_to_ip_eq.
  match goal with
  | |- context [quad_value ?a ?b ?c ?d] =>
      destruct (octet_at_quad a b c d) as (-> & -> & -> & ->); try assumption
  end.
  rewrite <- (join_split "." a), Hs. simpl. congruence.
Qed.

(* ================================================================== *)
(** ** The range of a CIDR block *)

Lemma fold_shift (n : nat) (v : Z) :
  fold_left (fun max_value i => max_value + Z.shiftl 1 i)
            (map (fun k => 0 + Z.of_nat k) (seq 0 n)) v
  = v + 2 ^ Z.of_nat n - 1.
Proof.
  induction n as [|n IH].
  - simpl. lia.
  - rewrite seq_S, map_app, fold_left_app, IH. cbn [map fold_left Nat.add].
    rewrite Z.add_0_l, Z.shiftl_1_l, Nat2Z.inj_succ, Z.pow_succ_r by lia. lia.
Qed.

Lemma get_max_value_eq (v m : Z) :
  m <= 32 -> get_max_value v m = v + 2 ^ (32 - m) - 1.
Proof.
  intros H. unfold get_max_value, py_range.
  rewrite fold_shift, Z2Nat.id by lia. do 3 f_equal. lia.
Qed.

Lemma mask_value_eq (m : Z) :
  0 <= m <= 32 ->
  exists bits, mapM shl1 (py_range (32 - m) 32) = Ok bits
               /\ py_sum bits = 2 ^ 32 - 2 ^ (32 - m).
Proof.
  intros H.
  pose (P := fun m => match mapM shl1 (py_range (32 - m) 32) with
                      | Ok bits => py_sum bits =? 2 ^ 32 - 2 ^ (32 - m)
                      | Err _ => false
                      end).
  assert (C : P m = true).
  { apply (range_check P 0 33); [vm_compute; reflexivity|lia]. }
  unfold P in C. destruct (mapM shl1 (py_range (32 - m) 32)) as [bits|];
    [|discriminate].
  exists bits. split; [reflexivity|]. now apply Z.eqb_eq.
Qed.

(** Clearing the low [k] bits of a 32-bit value. *)
Lemma land_high_mask (v k : Z) :
  0 <= v < 2 ^ 32 -> 0 <= k <= 32 ->
  Z.land v (2 ^ 32 - 2 ^ k) = v - v mod 2 ^ k.
Proof.
  intros Hv Hk.
  assert (E1 : 2 ^ 32 - 2 ^ k = Z.shiftl (Z.ones (32 - k)) k).
  { rewrite Z.ones_equiv, Z.shiftl_mul_pow2 by lia.
    rewrite <- Z.sub_1_r, Z.mul_sub_distr_r, <- Z.pow_add_r by lia.
    replace (32 - k + k) with 32 by lia. lia. }
  assert (E2 : v - v mod 2 ^ k = Z.shiftl (Z.shiftr v k) k).
  { rewrite Z.shiftl_mul_pow2, Z.shiftr_div_pow2 by lia.
    pose proof (Z.div_mod v (2 ^ k)). lia. }
  rewrite E1, E2. apply Z.bits_inj'. intros i Hi.
  rewrite Z.land_spec, !Z.shiftl_spec by assumption.
  destruct (Z.ltb_spec i k) as [Hlt|Hge].
  - rewrite !(Z.testbit_neg_r _ (i - k)) by lia. apply andb_false_r.
  - rewrite Z.shiftr_spec by lia. replace (i - k + k) with i by lia.
    destruct (Z.ltb_spec i 32) as [Hlt|Hge32].
    + rewrite Z.ones_spec_low by lia. apply andb_true_r.
    + rewrite Z.ones_spec_high by lia.
      rewrite <- (Z.mod_small v (2 ^ 32)) by assumption.
      rewrite Z.mod_pow2_bits_high by lia. reflexivity.
Qed.

Lemma block_bounds (v m : Z) :
  0 <= v < 2 ^ 32 -> 0 <= m <= 32 ->
  0 <= block_low v m <= v /\ v <= block_high v m <= 2 ^ 32 - 1.
Proof.
  intros Hv Hm. unfold block_high, block_low.
  assert (Hp : 0 < 2 ^ (32 - m)) by (apply Z.pow_pos_nonneg; lia).
  pose proof (Z.mod_pos_bound v _ Hp) as Hr.
  pose proof (Z.div_mod v (2 ^ (32 - m)) ltac:(lia)) as Hd.
  assert (Hq : v / 2 ^ (32 - m) < 2 ^ m).
  { apply Z.div_lt_upper_bound; [assumption|].
    rewrite <- Z.pow_add_r by lia. replace (32 - m + m) with 32 by lia. lia. }
  assert (Hs : 2 ^ (32 - m) * 2 ^ m = 2 ^ 32).
  { rewrite <- Z.pow_add_r by lia. f_equal. lia. }
  nia.
Qed.

Lemma get_min_value_eq (prefix : string) (v m : Z) :
  get_value prefix = Ok v -> 0 <= v < 2 ^ 32 -> 0 <= m <= 32 ->
  get_min_value prefix m = Ok (block_low v m).
Proof.
  intros Hp Hv Hm. unfold get_min_value. rewrite Hp. cbn [bind].
  destruct (mask_value_eq m Hm) as (bits & -> & Hs). cbn [bind].
  rewrite Hs, land_high_mask by lia. reflexivity.
Qed.

Lemma cidr_range_fields (s prefix mask : string) (v m : Z) :
  split "/" s = [prefix; mask] ->
  get_value prefix = Ok v -> 0 <= v < 2 ^ 32 ->
  py_int mask = Ok m -> 0 <= m <= 32 ->
  ip_cidr_to_ip_value_range s = Ok (block_low v m, block_high v m).
Proof.
  intros Hs Hp Hv Hi Hm. unfold ip_cidr_to_ip_value_range.
  rewrite Hs, Hi. cbn [bind].
  rewrite (get_min_value_eq _ v) by assumption. cbn [bind].
  rewrite get_max_value_eq by lia. reflexivity.
Qed.

Lemma wf_cidr_inv (s : string) :
  wf_cidr s = true ->
  exists prefix mask v m,
    split "/" s = [prefix; mask] /\
    get_value prefix = Ok v /\ 0 <= v < 2 ^ 32 /\
    py_int mask = Ok m /\ 0 <= m <= 32.
Proof.
  unfold wf_cidr.
  destruct (split "/" s) as [|p [|ms [|]]]; try discriminate.
  intros H. split_andb.
  match goal with Q : wf_quad _ = true |- _ =>
    apply wf_quad_value in Q as (v & Hv & Hb) end.
  match goal with Q : mask_ok _ = true |- _ =>
    apply mask_ok_inv in Q as (_ & m & Hm & Hmb) end.
  exists p, ms, v, m. auto.
Qed.

Lemma wf_cidr_range (s : string) :
  wf_cidr s = true ->
  exists v m, 0 <= v < 2 ^ 32 /\ 0 <= m <= 32 /\
    ip_cidr_to_ip_value_range s = Ok (block_low v m, block_high v m).
Proof.
  intros H. apply wf_cidr_inv in H as (p & ms & v & m & Hs & Hv & Hb & Hm & Hmb).
  exists v, m. repeat split; try lia.
  eapply cidr_range_fields; eassumption.
Qed.

(* ================================================================== *)
(** ** Sorting the ranges *)

Lemma readable_value (s : string) (v : Z) : get_value s = Ok v -> readable s.
Proof. unfold readable, value_of. now intros ->. Qed.

Lemma wf_quad_readable (s : string) : wf_quad s = true -> readable s.
Proof. intros H. apply wf_quad_value in H as (v & H & _). eapply readable_value, H. Qed.

Lemma range_ok_inv (r : ip_range) :
  range_ok r = true -> readable_range r /\ low r <= high r.
Proof.
  unfold range_ok, readable_range. intros H. split_andb.
  repeat split; try now apply wf_quad_readable. lia.
Qed.

Lemma compare_eq (a b : ip_range) :
  readable_range a -> readable_range b ->
  compare_ip_address_ranges a b = Ok (low a - low b).
Proof.
  intros [Ha _] [Hb _]. unfold compare_ip_address_ranges.
  rewrite Ha, Hb. reflexivity.
Qed.

Lemma insert_range_spec (x : ip_range) (l : list ip_range) :
  readable_range x -> Forall readable_range l -> StronglySorted le_low l ->
  exists out, insert_range x l = Ok out
              /\ Permutation out (x :: l) /\ StronglySorted le_low out.
Proof.
  intros Hx Hl Hs. induction l as [|y l IH]; simpl.
  - exists [x]. repeat split; auto. repeat constructor.
  - inversion Hl as [|? ? Hy Hl']; subst.
    apply StronglySorted_inv in Hs as [Hs Hy_le].
    rewrite (compare_eq y x) by assumption. cbn [bind].
    destruct (Z.ltb_spec (low y - low x) 0) as [Hlt|Hge].
    + destruct (IH Hl' Hs) as (r & -> & Hp & Hr). cbn [bind].
      exists (y :: r). repeat split.
      * rewrite Hp. apply perm_swap.
      * constructor; [assumption|].
        eapply Permutation_Forall; [symmetry; exact Hp|].
        constructor; [unfold le_low; lia|assumption].
    + exists (x :: y :: l). repeat split; auto.
      constructor; [now constructor|].
      constructor; [unfold le_low; lia|].
      eapply Forall_impl; [|exact Hy_le]. unfold le_low. intros; lia.
Qed.

Lemma sort_spec (l : list ip_range) :
  Forall readable_range l ->
  exists out, sort_ip_address_ranges l = Ok out
              /\ Permutation out l /\ StronglySorted le_low out.
Proof.
  induction 1 as [|x l Hx Hl IH]; simpl.
  - exists []. repeat split; auto. constructor.
  - destruct IH as (s & -> & Hp & Hs). cbn [bind].
    destruct (insert_range_spec x s) as (out & Ho & Hpo & Hso); auto.
    + eapply Permutation_Forall; [symmetry; exact Hp|assumption].
    + exists out. repeat split; auto. rewrite Hpo. now constructor.
Qed.

(* ================================================================== *)
(** ** The sweep *)

Lemma last_or_none_snoc {A : Type} (l : list A) (x : A) :
  last_or_none (l ++ [x])%list = Some x.
Proof. unfold last_or_none. now rewrite rev_unit. Qed.

Lemma StronglySorted_snoc {A : Type} (R : A -> A -> Prop) (l : list A) (x : A) :
  StronglySorted R (l ++ [x])%list <->
  StronglySorted R l /\ forall a, In a l -> R a x.
Proof.
  induction l as [|y l IH]; simpl.
  - split; [intros _; split; [constructor|contradiction]|].
    intros _. repeat constructor.
  - split.
    + intros H. apply StronglySorted_inv in H as [H1 H2].
      apply IH in H1 as [H1 H3]. rewrite Forall_app in H2. destruct H2 as [H2 H4].
      split; [now constructor|].
      intros a [<-|Ha]; [now inversion H4|auto].
    + intros [H1 H2]. apply StronglySorted_inv in H1 as [H1 H3].
      constructor; [apply IH; auto|].
      rewrite Forall_app. split; [assumption|]. constructor; auto.
Qed.

Lemma overlap_eq (a b : ip_range) :
  readable_range a -> readable_range b ->
  ip_ranges_overlap a b
  = Ok ((high a >=? low b) && (high b >=? low a)).
Proof.
  intros [Ha1 Ha2] [Hb1 Hb2]. unfold ip_ranges_overlap.
  rewrite Ha2, Hb1. cbn [bind]. fold (high a) (low b).
  destruct (high a >=? low b); [|reflexivity].
  rewrite Hb2, Ha1. reflexivity.
Qed.

Lemma combine_eq (a b : ip_range) :
  readable_range a -> readable_range b ->
  combine_ip_ranges a b
  = Ok (if low a <? low b then fst a else fst b,
        if high a >? high b then snd a else snd b).
Proof.
  intros [Ha1 Ha2] [Hb1 Hb2]. unfold combine_ip_ranges.
  rewrite Ha1, Hb1, Ha2, Hb2. reflexivity.
Qed.

Lemma sweep_inv_nil (Q : Z -> Z -> Prop) : sweep_inv Q [] [].
Proof.
  constructor; try (intros ? []); [constructor|].
  intros v. split; intros (? & [] & _).
Qed.

(** Elements of [acc] are as readable as the inputs they come from. *)
Lemma sweep_inv_readable (Q : Z -> Z -> Prop) (done acc : list ip_range) :
  sweep_inv Q done acc -> Forall readable_range done ->
  forall o, In o acc -> readable_range o.
Proof.
  intros I Hd o Ho. rewrite Forall_forall in Hd.
  destruct (inv_low _ _ _ I o Ho) as (r1 & Hr1 & E1).
  destruct (inv_high _ _ _ I o Ho) as (r2 & Hr2 & E2).
  split; [rewrite E1; apply (Hd r1 Hr1)|rewrite E2; apply (Hd r2 Hr2)].
Qed.

Section Step.

Variable Q : Z -> Z -> Prop.
Hypothesis Q_closed : merge_closed Q.

Variables (done : list ip_range) (r : ip_range).
Hypothesis done_readable : Forall readable_range done.
Hypothesis r_readable : readable_range r.
Hypothesis r_proper : low r <= high r.
Hypothesis r_shape : Q (low r) (high r).
Hypothesis r_above : forall d, In d done -> low d <= low r.

(** The sweep appends [r] when nothing precedes it or the last range
    ends below it. *)
Lemma sweep_append (acc : list ip_range) :
  sweep_inv Q done acc ->
  (forall o, In o acc -> high o < low r) ->
  sweep_inv Q (r :: done) (acc ++ [r])%list.
Proof.
  intros I Hb. constructor.
  - intros o Ho. apply in_app_iff in Ho as [Ho|[<-|[]]];
      [now apply (inv_proper _ _ _ I)|assumption].
  - apply StronglySorted_snoc. split; [apply (inv_apart _ _ _ I)|exact Hb].
  - intros v. split.
    + intros (o & Ho & Hv). apply in_app_iff in Ho as [Ho|[<-|[]]].
      * destruct (proj1 (inv_cover _ _ _ I v)) as (d & Hd & Hdv); [eauto|].
        exists d. simpl. auto.
      * exists r. simpl. auto.
    + intros (d & [<-|Hd] & Hv).
      * exists r. split; [apply in_app_iff; simpl; auto|assumption].
      * destruct (proj2 (inv_cover _ _ _ I v)) as (o & Ho & Hov); [eauto|].
        exists o. split; [apply in_app_iff; auto|assumption].
  - intros d [<-|Hd].
    + exists r. split; [apply in_app_iff; simpl; auto|unfold within; lia].
    + destruct (inv_within _ _ _ I d Hd) as (o & Ho & Hw).
      exists o. split; [apply in_app_iff; auto|assumption].
  - intros o Ho. apply in_app_iff in Ho as [Ho|[<-|[]]].
    + destruct (inv_low _ _ _ I o Ho) as (d & Hd & E). exists d. simpl. auto.
    + exists r. simpl. auto.
  - intros o Ho. apply in_app_iff in Ho as [Ho|[<-|[]]].
    + destruct (inv_high _ _ _ I o Ho) as (d & Hd & E). exists d. simpl. auto.
    + exists r. simpl. auto.
  - intros o Ho. apply in_app_iff in Ho as [Ho|[<-|[]]];
      [now apply (inv_shape _ _ _ I)|assumption].
Qed.

(** The sweep replaces the last range [lst] by its union with [r] when
    [r] starts inside it. *)
Lemma sweep_merge (front : list ip_range) (lst c : ip_range) :
  sweep_inv Q done (front ++ [lst])%list ->
  low r <= high lst ->
  fst c = fst lst ->
  snd c = (if high r >? high lst then snd r else snd lst) ->
  sweep_inv Q (r :: done) (front ++ [c])%list.
Proof.
  intros I Hov Hc1 Hc2.
  assert (Hlst : In lst (front ++ [lst])%list)
    by (apply in_app_iff; simpl; auto).
  assert (Hfront : forall o, In o front -> In o (front ++ [lst])%list)
    by (intros; apply in_app_iff; auto).
  assert (Hlow : low c = low lst) by (unfold low; now rewrite Hc1).
  assert (Hhigh : high c = Z.max (high lst) (high r)).
  { unfold high at 1. rewrite Hc2.
    destruct (Z.gtb_spec (high r) (high lst)); fold (high r) (high lst); lia. }
  assert (Hle : low lst <= low r).
  { destruct (inv_low _ _ _ I lst Hlst) as (d & Hd & E).
    unfold low at 1. rewrite E. now apply r_above. }
  pose proof (inv_proper _ _ _ I lst Hlst) as Hpl.
  pose proof (inv_apart _ _ _ I) as Hap.
  apply StronglySorted_snoc in Hap as [Hap1 Hap2].
  constructor.
  - intros o Ho. apply in_app_iff in Ho as [Ho|[<-|[]]];
      [apply (inv_proper _ _ _ I); auto|lia].
  - apply StronglySorted_snoc. split; [assumption|].
    intros a Ha. specialize (Hap2 a Ha). unfold before in *. lia.
  - intros v. split.
    + intros (o & Ho & Hv). apply in_app_iff in Ho as [Ho|[<-|[]]].
      * destruct (proj1 (inv_cover _ _ _ I v)) as (d & Hd & Hdv); [eauto|].
        exists d. simpl. auto.
      * unfold covers in Hv. rewrite Hlow, Hhigh in Hv.
        destruct (Z.le_gt_cases v (high lst)) as [Hv1|Hv1].
        -- destruct (proj1 (inv_cover _ _ _ I v)) as (d & Hd & Hdv).
           { exists lst. split; [assumption|unfold covers; lia]. }
           exists d. simpl. auto.
        -- exists r. split; [simpl; auto|unfold covers; lia].
    + intros (d & [<-|Hd] & Hv).
      * exists c. split; [apply in_app_iff; simpl; auto|].
        unfold covers in *. lia.
      * destruct (proj2 (inv_cover _ _ _ I v)) as (o & Ho & Hov'); [eauto|].
        apply in_app_iff in Ho as [Ho|[<-|[]]].
        -- exists o. split; [apply in_app_iff; auto|assumption].
        -- exists c. split; [apply in_app_iff; simpl; auto|].
           unfold covers in *. lia.
  - intros d [<-|Hd].
    + exists c. split; [apply in_app_iff; simpl; auto|unfold within; lia].
    + destruct (inv_within _ _ _ I d Hd) as (o & Ho & Hw).
      apply in_app_iff in Ho as [Ho|[<-|[]]].
      * exists o. split; [apply in_app_iff; auto|assumption].
      * exists c. split; [apply in_app_iff; simpl; auto|].
        unfold within in *. lia.
  - intros o Ho. apply in_app_iff in Ho as [Ho|[<-|[]]].
    + destruct (inv_low _ _ _ I o (Hfront o Ho)) as (d & Hd & E).
      exists d. simpl. auto.
    + destruct (inv_low _ _ _ I lst Hlst) as (d & Hd & E).
      exists d. simpl. split; [auto|congruence].
  - intros o Ho. apply in_app_iff in Ho as [Ho|[<-|[]]].
    + destruct (inv_high _ _ _ I o (Hfront o Ho)) as (d & Hd & E).
      exists d. simpl. auto.
    + rewrite Hc2. destruct (high r >? high lst).
      * exists r. simpl. auto.
      * destruct (inv_high _ _ _ I lst Hlst) as (d & Hd & E).
        exists d. simpl. auto.
  - intros o Ho. apply in_app_iff in Ho as [Ho|[<-|[]]].
    + apply (inv_shape _ _ _ I); auto.
    + rewrite Hlow, Hhigh.
      apply (Q_closed _ _ (low r) (high r));
        [apply (inv_shape _ _ _ I); auto|assumption..].
Qed.

Lemma consolidate_step_spec (acc : list ip_range) :
  sweep_inv Q done acc ->
  exists acc', consolidate_step acc r = Ok acc'
               /\ sweep_inv Q (r :: done) acc'.
Proof.
  intros I. unfold consolidate_step.
  destruct acc as [|lst front _] using rev_ind.
  - exists [r]. split; [reflexivity|].
    apply (sweep_append []); [assumption|intros ? []].
  - rewrite last_or_none_snoc.
    assert (Hlst : In lst (front ++ [lst])%list)
      by (apply in_app_iff; simpl; auto).
    pose proof (sweep_inv_readable _ _ _ I done_readable lst Hlst) as Rl.
    assert (Hle : low lst <= low r).
    { destruct (inv_low _ _ _ I lst Hlst) as (d & Hd & E).
      unfold low at 1. rewrite E. now apply r_above. }
    rewrite overlap_eq by assumption. cbn [bind].
    replace (high r >=? low lst) with true
      by (symmetry; apply Z.geb_le; lia).
    cbn [andb].
    destruct (Z.geb_spec (high lst) (low r)) as [Hov|Hno].
    + rewrite combine_eq by assumption. cbn [bind].
      rewrite removelast_last. eexists. split; [reflexivity|].
      apply (sweep_merge front lst); [assumption|lia| |reflexivity].
      cbn [fst]. destruct (Z.ltb_spec (low r) (low lst)) as [Hlt|_];
        [lia|reflexivity].
    + eexists. split; [reflexivity|].
      apply sweep_append; [assumption|].
      intros o Ho. apply in_app_iff in Ho as [Ho|[<-|[]]]; [|lia].
      pose proof (inv_apart _ _ _ I) as Hap.
      apply StronglySorted_snoc in Hap as [_ Hap].
      specialize (Hap o Ho). unfold before in Hap.
      pose proof (inv_proper _ _ _ I lst Hlst). lia.
Qed.

End Step.

Lemma sweep_inv_same (Q : Z -> Z -> Prop) (d1 d2 acc : list ip_range) :
  (forall x, In x d1 <-> In x d2) -> sweep_inv Q d1 acc -> sweep_inv Q d2 acc.
Proof.
  intros E I. constructor.
  - apply (inv_proper _ _ _ I).
  - apply (inv_apart _ _ _ I).
  - intros v. rewrite (inv_cover _ _ _ I v).
    split; intros (x & Hx & Hv); exists x; split; auto; now apply E.
  - intros x Hx. apply (inv_within _ _ _ I). now apply E.
  - intros o Ho. destruct (inv_low _ _ _ I o Ho) as (x & Hx & Ex).
    exists x. split; [now apply E|assumption].
  - intros o Ho. destruct (inv_high _ _ _ I o Ho) as (x & Hx & Ex).
    exists x. split; [now apply E|assumption].
  - apply (inv_shape _ _ _ I).
Qed.

Lemma consolidate_loop_spec (Q : Z -> Z -> Prop) :
  merge_closed Q ->
  forall todo done acc,
    Forall readable_range done ->
    Forall (sweepable Q) todo ->
    StronglySorted le_low todo ->
    (forall d t, In d done -> In t todo -> low d <= low t) ->
    sweep_inv Q done acc ->
    exists out, consolidate_loop acc todo = Ok out
                /\ sweep_inv Q (rev todo ++ done)%list out.
Proof.
  intros HQ. induction todo as [|r todo IH]; intros done acc Hd Ht Hs Hc I.
  - exists acc. split; [reflexivity|exact I].
  - inversion Ht as [|? ? (Hr & Hp & Hq) Ht']; subst.
    apply StronglySorted_inv in Hs as [Hs Hr_le]. rewrite Forall_forall in Hr_le.
    destruct (consolidate_step_spec Q HQ done r Hd Hr Hp Hq) with (acc := acc)
      as (acc' & Hacc & I'); [intros; apply Hc; simpl; auto|assumption|].
    cbn [consolidate_loop]. rewrite Hacc. cbn [bind].
    destruct (IH (r :: done) acc') as (out & Ho & Io); auto.
    + intros d t [<-|Hin] Hin'; [now apply Hr_le|apply Hc; simpl; auto].
    + exists out. split; [assumption|].
      cbn [rev]. now rewrite <- app_assoc.
Qed.

Lemma consolidate_ip_ranges_spec (Q : Z -> Z -> Prop) (R : list ip_range) :
  merge_closed Q -> Forall (sweepable Q) R ->
  exists out, consolidate_ip_ranges R = Ok out /\ sweep_inv Q R out.
Proof.
  intros HQ HR. unfold consolidate_ip_ranges.
  destruct (sort_spec R) as (s & -> & Hp & Hs).
  { eapply Forall_impl; [|exact HR]. now intros r (H & _). }
  cbn [bind].
  assert (Hs' : Forall (sweepable Q) s)
    by (eapply Permutation_Forall; [symmetry; exact Hp|assumption]).
  destruct (consolidate_loop_spec Q HQ s [] [] (Forall_nil _) Hs' Hs)
    as (out & Ho & I); [intros d t []|apply sweep_inv_nil|].
  exists out. split; [assumption|].
  apply (sweep_inv_same Q (rev s ++ [])%list); [|assumption].
  intros x. rewrite app_nil_r, <- in_rev. split; apply Permutation_in;
    [assumption|now symmetry].
Qed.

Lemma trivially_closed : merge_closed (fun _ _ => True).
Proof. now intros a b c d. Qed.

Lemma StronglySorted_nth {A : Type} (R : A -> A -> Prop) (l : list A) :
  StronglySorted R l ->
  forall i j a b, (i < j)%nat ->
    nth_error l i = Some a -> nth_error l j = Some b -> R a b.
Proof.
  induction 1 as [|x l Hs IH Hx]; intros i j a b Hij Ha Hb.
  - destruct i; discriminate.
  - destruct j as [|j]; [lia|]. simpl in Hb.
    destruct i as [|i]; simpl in Ha.
    + injection Ha as <-. rewrite Forall_forall in Hx.
      eapply Hx, nth_error_In, Hb.
    + apply (IH i j); auto. lia.
Qed.

(** In the output of a sweep, an earlier range ends below a later one. *)
Lemma sweep_inv_ordered (Q : Z -> Z -> Prop) (done out : list ip_range) :
  sweep_inv Q done out ->
  forall i j a b, (i < j)%nat ->
    nth_error out i = Some a -> nth_error out j = Some b -> high a < low b.
Proof. intros I. apply (StronglySorted_nth before), (inv_apart _ _ _ I). Qed.

Lemma sweep_inv_disjoint (Q : Z -> Z -> Prop) (done out : list ip_range) :
  sweep_inv Q done out ->
  forall i j a b, i <> j ->
    nth_error out i = Some a -> nth_error out j = Some b ->
    forall v, ~ (covers a v /\ covers b v).
Proof.
  intros I i j a b Hij Ha Hb v [Hva Hvb]. unfold covers in *.
  destruct (Nat.lt_total i j) as [Hlt|[Heq|Hgt]]; [|contradiction|].
  - pose proof (sweep_inv_ordered _ _ _ I i j a b Hlt Ha Hb). lia.
  - pose proof (sweep_inv_ordered _ _ _ I j i b a Hgt Hb Ha). lia.
Qed.

Lemma sweep_inv_sorted (Q : Z -> Z -> Prop) (done out : list ip_range) :
  sweep_inv Q done out -> StronglySorted le_low out.
Proof.
  intros I. pose proof (inv_proper _ _ _ I) as Hp.
  pose proof (inv_apart _ _ _ I) as Hs. clear I.
  induction Hs as [|x l Hs IH Hx]; constructor.
  - apply IH. intros o Ho. apply Hp. simpl. auto.
  - eapply Forall_impl; [|exact Hx]. intros b Hb.
    unfold le_low, before in *. specialize (Hp x (or_introl eq_refl)). lia.
Qed.

(** Every processed range lies within the output range at one position
    only. *)
Lemma sweep_inv_unique (Q : Z -> Z -> Prop) (done out : list ip_range) :
  sweep_inv Q done out ->
  (forall r, In r done -> low r <= high r) ->
  forall r, In r done ->
    exists i o, nth_error out i = Some o /\ within r o /\
      forall j o', nth_error out j = Some o' -> within r o' -> j = i.
Proof.
  intros I Hp r Hr.
  destruct (inv_within _ _ _ I r Hr) as (o & Ho & Hw).
  apply In_nth_error in Ho as [i Hi].
  exists i, o. repeat split; try assumption; try apply Hw.
  intros j o' Hj Hw'. destruct (Nat.eq_dec j i) as [|Hne]; [assumption|].
  exfalso. specialize (Hp r Hr).
  apply (sweep_inv_disjoint _ _ _ I j i o' o Hne Hj Hi (low r)).
  unfold covers, within in *. lia.
Qed.

(* ================================================================== *)
(** ** Properties of [consolidate_ip_ranges] *)

Lemma range_ok_sweepable (R : list ip_range) :
  forallb range_ok R = true -> Forall (sweepable (fun _ _ => True)) R.
Proof.
  rewrite forallb_forall, Forall_forall. intros H r Hr.
  destruct (range_ok_inv r (H r Hr)) as [H1 H2].
  split; [assumption|split; [assumption|exact I]].
Qed.

Lemma sweep_inv_range_ok (Q : Z -> Z -> Prop) (R out : list ip_range) :
  forallb range_ok R = true -> sweep_inv Q R out ->
  forallb range_ok out = true.
Proof.
  rewrite !forallb_forall. intros H I o Ho.
  destruct (inv_low _ _ _ I o Ho) as (r1 & Hr1 & E1).
  destruct (inv_high _ _ _ I o Ho) as (r2 & Hr2 & E2).
  pose proof (inv_proper _ _ _ I o Ho) as Hp.
  pose proof (H r1 Hr1) as K1. pose proof (H r2 Hr2) as K2.
  unfold range_ok in *. split_andb.
  apply Z.leb_le in Hp. rewrite Hp, E1, E2.
  repeat (apply andb_true_iff; split); auto.
Qed.

(** C1.  For every list [R] of ranges of dotted quads with lower bound at
    most upper bound, [consolidate_ip_ranges] returns a list of such
    ranges that is sorted ascending by lower bound, in which no address
    value lies in the ranges at two different positions, that covers
    exactly the values covered by [R], and in which every range of [R] is
    contained in the range at exactly one position. *)
Theorem consolidate_ip_ranges_correct (R : list ip_range) :
  forallb range_ok R = true ->
  exists out,
    consolidate_ip_ranges R = Ok out /\
    forallb range_ok out = true /\
    StronglySorted le_low out /\
    (forall i j a b, i <> j ->
       nth_error out i = Some a -> nth_error out j = Some b ->
       forall v, ~ (covers a v /\ covers b v)) /\
    (forall v, (exists o, In o out /\ covers o v)
               <-> (exists r, In r R /\ covers r v)) /\
    (forall r, In r R ->
       exists i o, nth_error out i = Some o /\ within r o /\
         forall j o', nth_error out j = Some o' -> within r o' -> j = i).
Proof.
  intros H.
  destruct (consolidate_ip_ranges_spec _ R trivially_closed
              (range_ok_sweepable R H)) as (out & Ho & I).
  exists out. split; [assumption|].
  split; [eapply sweep_inv_range_ok; eassumption|].
  split; [eapply sweep_inv_sorted; eassumption|].
  split; [eapply sweep_inv_disjoint; eassumption|].
  split; [apply (inv_cover _ _ _ I)|].
  eapply sweep_inv_unique; [eassumption|].
  intros r Hr. rewrite forallb_forall in H.
  now destruct (range_ok_inv r (H r Hr)).
Qed.

Lemma consolidate_ip_ranges_correct_witness :
  forallb range_ok sample_ranges = true /\
  exists out,
    consolidate_ip_ranges sample_ranges = Ok out /\
    StronglySorted le_low out /\
    (forall v, (exists o, In o out /\ covers o v)
               <-> (exists r, In r sample_ranges /\ covers r v)).
Proof.
  split; [reflexivity|].
  destruct (consolidate_ip_ranges_correct sample_ranges eq_refl)
    as (out & H1 & _ & H2 & _ & H3 & _).
  exists out. auto.
Defined.

(** C3, as the code has it.  For every list of well-formed ranges, of two
    ranges at different positions of the output of [consolidate_ip_ranges]
    the earlier ends strictly below the start of the later: the output
    ranges share no address.  Ranges that touch are left apart. *)
Theorem consolidate_ip_ranges_apart (R : list ip_range) :
  forallb range_ok R = true ->
  exists out,
    consolidate_ip_ranges R = Ok out /\
    forall i j a b, (i < j)%nat ->
      nth_error out i = Some a -> nth_error out j = Some b ->
      high a < low b.
Proof.
  intros H.
  destruct (consolidate_ip_ranges_spec _ R trivially_closed
              (range_ok_sweepable R H)) as (out & Ho & I).
  exists out. split; [assumption|]. eapply sweep_inv_ordered; eassumption.
Qed.

Lemma consolidate_ip_ranges_apart_witness :
  forallb range_ok sample_ranges = true /\
  exists out,
    consolidate_ip_ranges sample_ranges = Ok out /\
    forall i j a b, (i < j)%nat ->
      nth_error out i = Some a -> nth_error out j = Some b ->
      high a < low b.
Proof.
  split; [reflexivity|].
  exact (consolidate_ip_ranges_apart sample_ranges eq_refl).
Defined.

(** C3 fails as stated: two ranges that touch ([0.0.0.1, 0.0.0.2] and
    [0.0.0.3, 0.0.0.4]) come out unmerged, with no gap between them. *)
Lemma consolidate_ip_ranges_touching :
  forallb range_ok touching_ranges = true /\
  exists out a b,
    consolidate_ip_ranges touching_ranges = Ok out /\
    nth_error out 0 = Some a /\ nth_error out 1 = Some b /\
    high a < low b /\ ~ (high a + 1 < low b).
Proof.
  split; [reflexivity|].
  exists touching_ranges, ("0.0.0.1", "0.0.0.2"), ("0.0.0.3", "0.0.0.4").
  repeat split; try reflexivity.
  intros H. vm_compute in H. discriminate H.
Qed.

(* ================================================================== *)
(** ** Worked examples *)

(** C2, as the code has it.  The two adjacent /24 blocks share no address,
    so the overlap test keeps them apart and three blocks come out. *)
Theorem consolidate_adjacent_blocks :
  consolidate_ip_cidrs ["192.168.0.0/24"; "192.168.1.0/24"; "10.0.0.0/8"]
  = Ok ["10.0.0.0/8"; "192.168.0.0/24"; "192.168.1.0/24"].
Proof. vm_compute. reflexivity. Qed.

(** C2 fails as stated: the output does not consist of two blocks. *)
Lemma consolidate_adjacent_blocks_not_two :
  ~ exists a b,
      consolidate_ip_cidrs ["192.168.0.0/24"; "192.168.1.0/24"; "10.0.0.0/8"]
      = Ok [a; b].
Proof. intros (a & b & H). vm_compute in H. discriminate H. Qed.

(** C4, as the code has it.  The three addresses 192.168.43.0,
    192.168.44.0 and 192.168.45.0 agree on their first 21 bits, and the
    covering block is 192.168.40.0/21; the other two equalities hold as
    stated. *)
Theorem get_ip_cidr_from_ips_examples :
  get_ip_cidr_from_ips ["192.168.43.0"; "192.168.44.0"; "192.168.45.0"]
  = Ok "192.168.40.0/21" /\
  get_ip_cidr_from_ips ["1.2.3.4"; "1.2.3.4"] = Ok "1.2.3.4/32" /\
  get_ip_cidr_from_ips ["0.0.0.0"; "224.255.255.255"] = Ok "0.0.0.0/0".
Proof. repeat split; vm_compute; reflexivity. Qed.

(** C4 fails as stated: the first result is not 192.168.32.0/19. *)
Lemma get_ip_cidr_from_ips_not_19 :
  get_ip_cidr_from_ips ["192.168.43.0"; "192.168.44.0"; "192.168.45.0"]
  <> Ok "192.168.32.0/19".
Proof. intros H. vm_compute in H. discriminate H. Qed.

(* ================================================================== *)
(** ** Empty input *)

(** C8, as the code has it.  On an empty list [get_ip_cidr_from_ips]
    raises [IndexError], and [consolidate_ip_cidrs] raises nothing: it
    returns the empty list. *)
Theorem empty_input :
  get_ip_cidr_from_ips [] = Err IndexError /\ consolidate_ip_cidrs [] = Ok [].
Proof. split; reflexivity. Qed.

(** C8 fails as stated: [consolidate_ip_cidrs] does not raise on an empty
    list. *)
Lemma consolidate_ip_cidrs_empty_no_error :
  ~ exists e, consolidate_ip_cidrs [] = Err e.
Proof. intros (e & H). discriminate H. Qed.

(* ================================================================== *)
(** ** Masks out of range *)

(** C9, as the code has it.  A CIDR string whose mask reads as an integer
    above 32 makes [ip_cidr_to_ip_value_range] raise, and a well-formed
    CIDR string gives a pair [(min, max)] with
    [0 <= min <= max <= 2^32 - 1]. *)
Theorem ip_cidr_to_ip_value_range_mask
    (s prefix mask : string) (m : Z) (c : string) :
  split "/" s = [prefix; mask] -> py_int mask = Ok m -> 32 < m ->
  wf_cidr c = true ->
  (exists e, ip_cidr_to_ip_value_range s = Err e) /\
  (exists lo hi, ip_cidr_to_ip_value_range c = Ok (lo, hi)
                 /\ 0 <= lo <= hi /\ hi <= 2 ^ 32 - 1).
Proof.
  intros Hs Hi Hm Hc. split.
  - unfold ip_cidr_to_ip_value_range, get_min_value. rewrite Hs, Hi. cbn [bind].
    destruct (get_value prefix) as [v|e]; cbn [bind]; [|eauto].
    unfold py_range.
    destruct (Z.to_nat (32 - (32 - m))) as [|n] eqn:E; [lia|].
    cbn [seq map mapM]. unfold shl1 at 1.
    replace (32 - m + Z.of_nat 0 <? 0) with true
      by (symmetry; apply Z.ltb_lt; lia).
    cbn [bind]. eauto.
  - destruct (wf_cidr_range c Hc) as (v & k & Hv & Hk & ->).
    destruct (block_bounds v k Hv Hk). eexists _, _. split; [reflexivity|lia].
Qed.

Lemma ip_cidr_to_ip_value_range_mask_witness :
  (exists e, ip_cidr_to_ip_value_range "1.2.3.4/33" = Err e) /\
  (exists lo hi, ip_cidr_to_ip_value_range "192.168.1.77/24" = Ok (lo, hi)
                 /\ 0 <= lo <= hi /\ hi <= 2 ^ 32 - 1).
Proof.
  apply (ip_cidr_to_ip_value_range_mask "1.2.3.4/33" "1.2.3.4" "33" 33);
    [reflexivity|reflexivity|lia|reflexivity].
Defined.

(** C9 fails as stated: a negative mask is read by [int] and accepted;
    no exception is raised. *)
Lemma negative_mask_accepted :
  split "/" "1.2.3.4/-1" = ["1.2.3.4"; "-1"] /\
  py_int "-1" = Ok (-1) /\
  ip_cidr_to_ip_value_range "1.2.3.4/-1" = Ok (0, 8589934591).
Proof. repeat split; vm_compute; reflexivity. Qed.

(* ================================================================== *)
(** ** Printing and reading addresses *)

(** C10.  For every natural number [v], [value_to_ip v] is a dotted quad
    of four octets in 0..255, it is the address printed for
    [v mod 2^32], and [get_value] reads [v mod 2^32] back from it. *)
Theorem value_to_ip_total (v : Z) :
  0 <= v ->
  wf_quad (value_to_ip v) = true /\
  value_to_ip v = value_to_ip (v mod 2 ^ 32) /\
  get_value (value_to_ip v) = Ok (v mod 2 ^ 32).
Proof.
  intros _. split; [apply canonical_quad_wf, value_to_ip_canonical|].
  split; [symmetry; apply value_to_ip_mod|apply get_value_value_to_ip].
Qed.

Lemma value_to_ip_total_witness :
  wf_quad (value_to_ip 4294967301) = true /\
  value_to_ip 4294967301 = value_to_ip (4294967301 mod 2 ^ 32) /\
  get_value (value_to_ip 4294967301) = Ok (4294967301 mod 2 ^ 32).
Proof. apply (value_to_ip_total 4294967301). lia. Defined.

(** C7, as the code has it.  For every dotted quad [a] whose octets are in
    canonical decimal (no leading zero), printing the value of [a] gives
    [a] back; and for every [v] in [0, 2^32 - 1], reading the address
    printed for [v] gives [v] back. *)
Theorem address_round_trip (a : string) (v : Z) :
  canonical_quad a = true -> 0 <= v <= 2 ^ 32 - 1 ->
  (exists w, get_value a = Ok w /\ value_to_ip w = a) /\
  get_value (value_to_ip v) = Ok v.
Proof.
  intros Ha Hv. split.
  - destruct (wf_quad_value a (canonical_quad_wf a Ha)) as (w & Hw & _).
    exists w. split; [assumption|]. now apply value_to_ip_get_value.
  - rewrite get_value_value_to_ip. f_equal. apply Z.mod_small. lia.
Qed.

Lemma address_round_trip_witness :
  (exists w, get_value "192.168.1.0" = Ok w /\ value_to_ip w = "192.168.1.0") /\
  get_value (value_to_ip 3232235776) = Ok 3232235776.
Proof.
  apply (address_round_trip "192.168.1.0" 3232235776); [reflexivity|lia].
Defined.

(** C7 fails as stated: ["1.2.3.04"] has four numeric octets in 0..255,
    and printing its value gives ["1.2.3.4"]. *)
Lemma leading_zero_not_restored :
  wf_quad "1.2.3.04" = true /\
  exists w, get_value "1.2.3.04" = Ok w /\ value_to_ip w <> "1.2.3.04".
Proof.
  split; [reflexivity|]. exists 16909060. split; [reflexivity|].
  intros H. vm_compute in H. discriminate H.
Qed.

(* ================================================================== *)
(** ** Bits of address values *)

Lemma land_pow2_testbit (x y i : Z) :
  0 <= i ->
  (Z.land x (Z.shiftl 1 i) = Z.land y (Z.shiftl 1 i)
   <-> Z.testbit x i = Z.testbit y i).
Proof.
  intros Hi. rewrite Z.shiftl_1_l. split; intros H.
  - apply (f_equal (fun z => Z.testbit z i)) in H.
    rewrite !Z.land_spec, Z.pow2_bits_true, !andb_true_r in H; auto.
  - apply Z.bits_inj'. intros n Hn. rewrite !Z.land_spec.
    rewrite Z.pow2_bits_eqb by assumption.
    destruct (Z.eqb_spec i n) as [->|]; [now rewrite H|now rewrite !andb_false_r].
Qed.

Lemma high_bits_zero (x j : Z) :
  0 <= x < 2 ^ 32 -> 32 <= j -> Z.testbit x j = false.
Proof.
  intros Hx Hj. rewrite <- (Z.mod_small x (2 ^ 32)) by assumption.
  apply Z.mod_pow2_bits_high. lia.
Qed.

(** Two 32-bit values agree from bit [k] up exactly when they have the
    same quotient by [2^k]. *)
Lemma same_prefix_iff (x y k : Z) :
  0 <= x < 2 ^ 32 -> 0 <= y < 2 ^ 32 -> 0 <= k ->
  ((forall j, k <= j < 32 -> Z.testbit x j = Z.testbit y j)
   <-> x / 2 ^ k = y / 2 ^ k).
Proof.
  intros Hx Hy Hk. rewrite <- !Z.shiftr_div_pow2 by assumption. split; intros H.
  - apply Z.bits_inj'. intros n Hn. rewrite !Z.shiftr_spec by assumption.
    destruct (Z.lt_ge_cases (n + k) 32).
    + apply H. lia.
    + now rewrite !high_bits_zero by (assumption || lia).
  - intros j Hj. apply (f_equal (fun z => Z.testbit z (j - k))) in H.
    rewrite !Z.shiftr_spec in H by lia.
    now replace (j - k + k) with j in H by lia.
Qed.

(** The values of the block of mask length [m] around [p] are those with
    the same quotient by [2^(32-m)] as [p]. *)
Lemma in_block_iff (p v m : Z) :
  m <= 32 ->
  (block_low p m <= v <= block_high p m
   <-> v / 2 ^ (32 - m) = p / 2 ^ (32 - m)).
Proof.
  intros Hm. unfold block_high, block_low.
  assert (Hp : 0 < 2 ^ (32 - m)) by (apply Z.pow_pos_nonneg; lia).
  pose proof (Z.div_mod p (2 ^ (32 - m)) ltac:(lia)) as Dp.
  pose proof (Z.mod_pos_bound p _ Hp) as Bp.
  pose proof (Z.div_mod v (2 ^ (32 - m)) ltac:(lia)) as Dv.
  pose proof (Z.mod_pos_bound v _ Hp) as Bv.
  split; intros H.
  - symmetry. apply (Z.div_unique _ _ _ (v - (p - p mod 2 ^ (32 - m)))); lia.
  - rewrite H in Dv. lia.
Qed.

Lemma block_low_idem (v m : Z) :
  m <= 32 -> block_low (block_low v m) m = block_low v m.
Proof.
  intros Hm. unfold block_low.
  assert (Hp : 0 < 2 ^ (32 - m)) by (apply Z.pow_pos_nonneg; lia).
  pose proof (Z.div_mod v (2 ^ (32 - m)) ltac:(lia)) as Dv.
  replace (v - v mod 2 ^ (32 - m)) with (v / 2 ^ (32 - m) * 2 ^ (32 - m)) by lia.
  rewrite Z.mod_mul by lia. lia.
Qed.

Lemma block_low_32 (v : Z) : block_low v 32 = v.
Proof. unfold block_low. simpl. rewrite Z.mod_1_r. lia. Qed.

(** Values with equal bits below 32 are equal. *)
Lemma bits_below_32 (x y : Z) :
  0 <= x < 2 ^ 32 -> 0 <= y < 2 ^ 32 ->
  (forall j, 0 <= j < 32 -> Z.testbit x j = Z.testbit y j) -> x = y.
Proof.
  intros Hx Hy H.
  apply (same_prefix_iff x y 0) in H; try assumption; try lia.
  now rewrite !Z.div_1_r in H.
Qed.

(* ================================================================== *)
(** ** The bit scan of [get_ip_cidr_from_ips] *)

Lemma in_product {A : Type} (l : list A) (x y : A) :
  In (x, y) (product l) <-> In x l /\ In y l.
Proof.
  unfold product. rewrite in_flat_map. split.
  - intros (a & Ha & H). apply in_map_iff in H as (b & E & Hb).
    injection E as <- <-. auto.
  - intros [Hx Hy]. exists x. split; [assumption|].
    apply in_map_iff. eauto.
Qed.

Lemma all_equal_test (values : list Z) :
  forallb (fun '(a, b) => a =? b) (product values) = true
  <-> forall x y, In x values -> In y values -> x = y.
Proof.
  rewrite forallb_forall. split.
  - intros H x y Hx Hy. apply Z.eqb_eq.
    apply (H (x, y)). now apply in_product.
  - intros H [x y] Hxy. apply in_product in Hxy as [Hx Hy].
    apply Z.eqb_eq. auto.
Qed.

Lemma scan_test (values : list Z) (i : Z) :
  0 <= i ->
  existsb (fun '(value_1, value_2) =>
             negb (Z.land value_1 (Z.shiftl 1 i) =? Z.land value_2 (Z.shiftl 1 i)))
          (product values) = true
  <-> bit_differs values i.
Proof.
  intros Hi. rewrite existsb_exists. unfold bit_differs. split.
  - intros ([x y] & Hxy & H). apply in_product in Hxy as [Hx Hy].
    exists x, y. repeat split; try assumption.
    apply negb_true_iff, Z.eqb_neq in H.
    now rewrite <- land_pow2_testbit.
  - intros (x & y & Hx & Hy & H). exists (x, y).
    split; [now apply in_product|].
    apply negb_true_iff, Z.eqb_neq. now rewrite land_pow2_testbit.
Qed.

(** The scan stops at the highest bit below [n] where two values
    disagree, with the bits above it set in the mask; when there is none
    it ends at [i = 0] with all bits below [n] set. *)
Lemma cidr_scan_spec (values : list Z) (n : nat) (mask : Z) :
  (exists k, (k < n)%nat /\ bit_differs values (Z.of_nat k) /\
     (forall j, (k < j < n)%nat -> ~ bit_differs values (Z.of_nat j)) /\
     cidr_scan values n mask
     = (Z.of_nat k, mask + 2 ^ Z.of_nat n - 2 ^ (Z.of_nat k + 1)))
  \/ ((forall j, (j < n)%nat -> ~ bit_differs values (Z.of_nat j)) /\
      cidr_scan values n mask = (0, mask + 2 ^ Z.of_nat n - 1)).
Proof.
  revert mask. induction n as [|n IH]; intros mask.
  - right. split; [lia|]. simpl. f_equal. lia.
  - cbn [cidr_scan].
    assert (Hpow : 2 ^ Z.of_nat (S n) = 2 * 2 ^ Z.of_nat n)
      by (rewrite Nat2Z.inj_succ, Z.pow_succ_r; lia).
    destruct (existsb _ (product values)) eqn:E.
    + left. exists n. apply scan_test in E; [|lia].
      repeat split; [lia|assumption|lia|].
      f_equal. rewrite Hpow, Z.pow_add_r by lia. lia.
    + assert (Hn : ~ bit_differs values (Z.of_nat n)).
      { intros H. apply scan_test in H; [congruence|lia]. }
      destruct (IH (mask + Z.shiftl 1 (Z.of_nat n)))
        as [(k & Hk & Hd & Hmax & ->)|(Hnone & ->)].
      * left. exists k. repeat split; [lia|assumption| |].
        -- intros j Hj. destruct (Nat.eq_dec j n) as [->|]; [assumption|].
           apply Hmax. lia.
        -- f_equal. rewrite Z.shiftl_1_l, Hpow. lia.
      * right. split.
        -- intros j Hj. destruct (Nat.eq_dec j n) as [->|]; [assumption|].
           apply Hnone. lia.
        -- f_equal. rewrite Z.shiftl_1_l, Hpow. lia.
Qed.

(** On 32-bit values that are not all equal, the scan from bit 31 finds
    the highest bit [k] where two values disagree. *)
Lemma cidr_scan_32 (values : list Z) :
  Forall (fun v => 0 <= v < 2 ^ 32) values ->
  ~ (forall x y, In x values -> In y values -> x = y) ->
  exists k, 0 <= k < 32 /\ bit_differs values k /\
    (forall j, k < j < 32 -> ~ bit_differs values j) /\
    cidr_scan values 32 0 = (k, 2 ^ 32 - 2 ^ (k + 1)).
Proof.
  intros Hb Hne. rewrite Forall_forall in Hb.
  destruct (cidr_scan_spec values 32 0)
    as [(k & Hk & Hd & Hmax & E)|(Hnone & _)].
  - exists (Z.of_nat k). repeat split; try lia; try assumption.
    intros j Hj. rewrite <- (Z2Nat.id j) by lia. apply Hmax. lia.
  - exfalso. apply Hne. intros x y Hx Hy.
    apply bits_below_32; auto.
    intros j Hj. destruct (Bool.bool_dec (Z.testbit x j) (Z.testbit y j)) as [|D];
      [assumption|].
    exfalso. apply (Hnone (Z.to_nat j)); [lia|].
    rewrite Z2Nat.id by lia. exists x, y. auto.
Qed.

(* ================================================================== *)
(** ** The covering block of [get_ip_cidr_from_ips] *)

Lemma mapM_get_value (l : list string) :
  forallb wf_quad l = true -> mapM get_value l = Ok (map value_of l).
Proof.
  intros H. apply mapM_ok. rewrite forallb_forall in H.
  apply Forall_forall. intros s Hs. apply wf_quad_readable. auto.
Qed.

Lemma wf_quad_value_of (s : string) :
  wf_quad s = true -> 0 <= value_of s < 2 ^ 32.
Proof.
  intros H. apply wf_quad_value in H as (v & Hv & Hb).
  unfold value_of. now rewrite Hv.
Qed.

Lemma values_in_range (l : list string) :
  forallb wf_quad l = true ->
  Forall (fun v => 0 <= v < 2 ^ 32) (map value_of l).
Proof.
  intros H. rewrite forallb_forall in H. apply Forall_forall.
  intros v Hv. apply in_map_iff in Hv as (s & <- & Hs).
  apply wf_quad_value_of. auto.
Qed.

(** The two outcomes of [get_ip_cidr_from_ips] on a non-empty list of
    dotted quads. *)
Lemma get_ip_cidr_from_ips_char (first : string) (rest : list string) :
  forallb wf_quad (first :: rest) = true ->
  let values := map value_of (first :: rest) in
  ((forall x y, In x values -> In y values -> x = y) /\
   get_ip_cidr_from_ips (first :: rest) = Ok (first ++ "/32"))
  \/
  (exists k, 0 <= k < 32 /\ bit_differs values k /\
     (forall j, k < j < 32 -> ~ bit_differs values j) /\
     get_ip_cidr_from_ips (first :: rest)
     = Ok (value_to_ip (block_low (value_of first) (31 - k))
           ++ "/" ++ py_str (31 - k))).
Proof.
  intros H values. unfold get_ip_cidr_from_ips.
  rewrite (mapM_get_value _ H). cbn [bind]. fold values.
  destruct (forallb _ (product values)) eqn:E.
  - left. split; [apply all_equal_test; exact E|reflexivity].
  - right.
    destruct (cidr_scan_32 values) as (k & Hk & Hd & Hmax & Hscan).
    + apply values_in_range. exact H.
    + intros Heq. apply all_equal_test in Heq. congruence.
    + exists k. split; [lia|split; [assumption|split; [assumption|]]].
      rewrite Hscan. unfold values at 1. cbn [map py_index nth_error bind].
      assert (Hv : 0 <= value_of first < 2 ^ 32).
      { apply wf_quad_value_of. cbn [forallb] in H.
        apply andb_true_iff in H. apply H. }
      rewrite Z.land_comm, land_high_mask by lia.
      unfold block_low.
      replace (32 - (k + 1)) with (31 - k) by lia.
      replace (32 - (31 - k)) with (k + 1) by lia. reflexivity.
Qed.

Lemma prefix_shared (values : list Z) (k v0 : Z) :
  Forall (fun v => 0 <= v < 2 ^ 32) values -> In v0 values -> 0 <= k < 32 ->
  (forall j, k < j < 32 -> ~ bit_differs values j) ->
  forall v, In v values ->
    block_low v0 (31 - k) <= v <= block_high v0 (31 - k).
Proof.
  intros Hb H0 Hk Hmax v Hv. rewrite Forall_forall in Hb.
  apply in_block_iff; [lia|].
  replace (32 - (31 - k)) with (k + 1) by lia.
  apply same_prefix_iff; auto; [lia|].
  intros j Hj.
  destruct (Bool.bool_dec (Z.testbit v j) (Z.testbit v0 j)) as [|D];
    [assumption|].
  exfalso. apply (Hmax j); [lia|]. exists v, v0. auto.
Qed.

Lemma longer_mask_misses (values : list Z) (k p m : Z) :
  Forall (fun v => 0 <= v < 2 ^ 32) values -> 0 <= k < 32 ->
  bit_differs values k -> 31 - k < m <= 32 ->
  exists v, In v values /\ ~ (block_low p m <= v <= block_high p m).
Proof.
  intros Hb Hk (x & y & Hx & Hy & D) Hm. rewrite Forall_forall in Hb.
  destruct (Z_le_dec (block_low p m) x) as [L1|N]; [|exists x; split; [auto|lia]].
  destruct (Z_le_dec x (block_high p m)) as [L2|N]; [|exists x; split; [auto|lia]].
  exists y. split; [assumption|]. intros Hyb. apply D.
  apply (in_block_iff p) in Hyb; [|lia].
  assert (Hxb : x / 2 ^ (32 - m) = p / 2 ^ (32 - m))
    by (apply in_block_iff; lia).
  rewrite <- Hyb in Hxb.
  assert (Hk' : 0 <= 32 - m) by lia.
  apply (proj2 (same_prefix_iff x y (32 - m) (Hb x Hx) (Hb y Hy) Hk') Hxb).
  lia.
Qed.

Lemma cidr_string_split (prefix mask : string) :
  no_char "/" prefix = true -> no_char "/" mask = true ->
  split "/" (prefix ++ "/" ++ mask) = [prefix; mask].
Proof.
  intros Hp Hm. cbn [append]. now rewrite split_app, split_no_char.
Qed.

(** The CIDR string built from a dotted quad and a mask length. *)
Lemma cidr_string_range (prefix : string) (m : Z) :
  wf_quad prefix = true -> 0 <= m <= 32 ->
  let c := prefix ++ "/" ++ py_str m in
  wf_cidr c = true /\ cidr_mask c = Ok m /\
  ip_cidr_to_ip_value_range c
  = Ok (block_low (value_of prefix) m, block_high (value_of prefix) m).
Proof.
  intros Hp Hm c.
  destruct (py_str_mask m Hm) as [Hi Hok].
  assert (Hs : split "/" c = [prefix; py_str m]).
  { apply cidr_string_split; [now apply wf_quad_no_slash|].
    apply mask_ok_inv in Hok as [Hd _]. now apply all_digits_no_char. }
  repeat split.
  - unfold wf_cidr. now rewrite Hs, Hp, Hok.
  - unfold cidr_mask. now rewrite Hs.
  - apply (cidr_range_fields c prefix (py_str m)); auto.
    + now apply wf_quad_readable.
    + now apply wf_quad_value_of.
Qed.

Lemma all_equal_no_differs (values : list Z) (k : Z) :
  (forall x y, In x values -> In y values -> x = y) -> ~ bit_differs values k.
Proof.
  intros H (x & y & Hx & Hy & D). apply D. now rewrite (H x y Hx Hy).
Qed.

Lemma bit_differs_same (v1 v2 : list Z) (k : Z) :
  (forall x, In x v1 -> In x v2) -> bit_differs v1 k -> bit_differs v2 k.
Proof. intros H (x & y & Hx & Hy & D). exists x, y. auto. Qed.

Lemma map_value_of_incl (l1 l2 : list string) :
  (forall x, In x l1 -> In x l2) ->
  forall v, In v (map value_of l1) -> In v (map value_of l2).
Proof.
  intros H v Hv. apply in_map_iff in Hv as (s & <- & Hs).
  apply in_map. auto.
Qed.

(** The result depends on the first entry and on the set of entries
    only. *)
Lemma get_ip_cidr_from_ips_same (first : string) (rest rest' : list string) :
  forallb wf_quad (first :: rest) = true ->
  (forall x, In x (first :: rest') <-> In x (first :: rest)) ->
  get_ip_cidr_from_ips (first :: rest') = get_ip_cidr_from_ips (first :: rest).
Proof.
  intros H E.
  assert (H' : forallb wf_quad (first :: rest') = true).
  { rewrite forallb_forall in *. intros x Hx. apply H, E, Hx. }
  pose proof (map_value_of_incl _ _ (fun x => proj1 (E x))) as I1.
  pose proof (map_value_of_incl _ _ (fun x => proj2 (E x))) as I2.
  destruct (get_ip_cidr_from_ips_char first rest H)
    as [(Heq & ->)|(k & Hk & Hd & Hmax & ->)];
    destruct (get_ip_cidr_from_ips_char first rest' H')
      as [(Heq' & ->)|(k' & Hk' & Hd' & Hmax' & ->)].
  - reflexivity.
  - exfalso. apply (all_equal_no_differs _ k' Heq).
    eapply bit_differs_same; [exact I1|exact Hd'].
  - exfalso. apply (all_equal_no_differs _ k Heq').
    eapply bit_differs_same; [exact I2|exact Hd].
  - assert (k' = k); [|now subst].
    destruct (Z.lt_trichotomy k' k) as [Hlt|[Heq|Hgt]]; [|assumption|].
    + exfalso. apply (Hmax' k); [lia|].
      eapply bit_differs_same; [exact I2|exact Hd].
    + exfalso. apply (Hmax k'); [lia|].
      eapply bit_differs_same; [exact I1|exact Hd'].
Qed.

Lemma block_32 (v : Z) : block_low v 32 = v /\ block_high v 32 = v.
Proof. unfold block_high. rewrite block_low_32. simpl. lia. Qed.

(** The string returned for entries of one value. *)
Lemma cidr_of_equal (first : string) :
  wf_quad first = true ->
  let c := first ++ "/32" in
  wf_cidr c = true /\ cidr_mask c = Ok 32 /\
  ip_cidr_to_ip_value_range c = Ok (value_of first, value_of first).
Proof.
  intros H c.
  destruct (cidr_string_range first 32 H ltac:(lia)) as (H1 & H2 & H3).
  change (py_str 32) with "32" in *. fold c in H1, H2, H3.
  destruct (block_32 (value_of first)) as [E1 E2].
  rewrite E1, E2 in H3. auto.
Qed.

(** The string returned for entries that disagree first at bit [k]. *)
Lemma cidr_of_block (v0 k : Z) :
  0 <= v0 < 2 ^ 32 -> 0 <= k < 32 ->
  let c := value_to_ip (block_low v0 (31 - k)) ++ "/" ++ py_str (31 - k) in
  wf_cidr c = true /\ cidr_mask c = Ok (31 - k) /\
  ip_cidr_to_ip_value_range c
  = Ok (block_low v0 (31 - k), block_high v0 (31 - k)).
Proof.
  intros Hv Hk c.
  assert (Hm : 0 <= 31 - k <= 32) by lia.
  destruct (block_bounds v0 (31 - k) Hv Hm) as [B1 B2].
  destruct (cidr_string_range (value_to_ip (block_low v0 (31 - k))) (31 - k))
    as (H1 & H2 & H3);
    [apply canonical_quad_wf, value_to_ip_canonical|assumption|].
  fold c in H1, H2, H3.
  rewrite value_of_value_to_ip in H3 by lia.
  unfold block_high in H3 at 1. rewrite block_low_idem in H3 by lia.
  auto.
Qed.

Lemma is_ip_in_cidr_range (a c : string) (lo hi : Z) :
  wf_quad a = true -> ip_cidr_to_ip_value_range c = Ok (lo, hi) ->
  is_ip_in_cidr a c = Ok ((lo <=? value_of a) && (value_of a <=? hi)).
Proof.
  intros Ha Hc. unfold is_ip_in_cidr. rewrite Hc. cbn [bind].
  now rewrite (wf_quad_readable a Ha).
Qed.

Lemma wf_cidr_mask (c : string) (m : Z) :
  wf_cidr c = true -> cidr_mask c = Ok m ->
  exists p, 0 <= p < 2 ^ 32 /\ 0 <= m <= 32 /\
    ip_cidr_to_ip_value_range c = Ok (block_low p m, block_high p m).
Proof.
  intros Hc Hm.
  apply wf_cidr_inv in Hc as (pre & ms & p & m2 & Hs & Hp & Hpb & Hm2 & Hm2b).
  assert (m2 = m) by (unfold cidr_mask in Hm; rewrite Hs, Hm2 in Hm; congruence).
  subst m2. exists p. repeat split; try lia.
  eapply cidr_range_fields; eassumption.
Qed.

(** C6.  For every non-empty list of dotted quads, [get_ip_cidr_from_ips]
    returns a well-formed CIDR string [c] of some mask length [m] such
    that every entry lies in the block of [c] and no well-formed block of
    a mask length above [m] contains all the entries.  Entries of one value
    give the first entry with [/32]; two entries that disagree at bit 31
    give [0.0.0.0/0]; and a list with the same first entry and the same
    set of entries, whatever the repetitions, gives the same result. *)
Theorem get_ip_cidr_from_ips_smallest (first : string) (rest : list string) :
  forallb wf_quad (first :: rest) = true ->
  exists c m,
    get_ip_cidr_from_ips (first :: rest) = Ok c /\
    wf_cidr c = true /\ cidr_mask c = Ok m /\
    (forall a, In a (first :: rest) -> is_ip_in_cidr a c = Ok true) /\
    (forall c' m', wf_cidr c' = true -> cidr_mask c' = Ok m' -> m < m' ->
       exists a, In a (first :: rest) /\ is_ip_in_cidr a c' = Ok false) /\
    ((forall a b, In a (first :: rest) -> In b (first :: rest) ->
        value_of a = value_of b) -> c = first ++ "/32") /\
    ((exists a b, In a (first :: rest) /\ In b (first :: rest) /\
        Z.testbit (value_of a) 31 <> Z.testbit (value_of b) 31) ->
     c = "0.0.0.0/0") /\
    (forall rest',
       (forall x, In x (first :: rest') <-> In x (first :: rest)) ->
       get_ip_cidr_from_ips (first :: rest') = Ok c).
Proof.
  intros H.
  pose proof (values_in_range _ H) as Hb.
  assert (Hwf : forall a, In a (first :: rest) -> wf_quad a = true)
    by (now apply forallb_forall).
  assert (Hf : wf_quad first = true) by (apply Hwf; simpl; auto).
  assert (Hsame : forall rest',
             (forall x, In x (first :: rest') <-> In x (first :: rest)) ->
             get_ip_cidr_from_ips (first :: rest')
             = get_ip_cidr_from_ips (first :: rest))
    by (intros; now apply get_ip_cidr_from_ips_same).
  destruct (get_ip_cidr_from_ips_char first rest H)
    as [(Heq & Hres)|(k & Hk & Hd & Hmax & Hres)].
  - (* all the values are equal *)
    destruct (cidr_of_equal first Hf) as (C1 & C2 & C3).
    exists (first ++ "/32"), 32.
    split; [assumption|]. split; [assumption|]. split; [assumption|].
    split; [|split; [|split; [|split]]].
    + intros a Ha. rewrite (is_ip_in_cidr_range a _ _ _ (Hwf a Ha) C3).
      rewrite (Heq (value_of a) (value_of first));
        [|now apply in_map|apply in_map; simpl; auto].
      now rewrite Z.leb_refl.
    + intros c' m' Hc' Hm' Hlt. exfalso.
      destruct (wf_cidr_mask c' m' Hc' Hm') as (p & _ & Hm & _). lia.
    + reflexivity.
    + intros (a & b & Ha & Hb' & D). exfalso. apply D.
      now rewrite (Heq (value_of a) (value_of b)) by now apply in_map.
    + intros rest' E. now rewrite (Hsame rest' E).
  - (* bit [k] is the highest where two values disagree *)
    assert (Hv0 : 0 <= value_of first < 2 ^ 32) by now apply wf_quad_value_of.
    destruct (cidr_of_block (value_of first) k Hv0 Hk) as (C1 & C2 & C3).
    eexists _, (31 - k).
    split; [exact Hres|]. split; [assumption|]. split; [assumption|].
    split; [|split; [|split; [|split]]].
    + intros a Ha. rewrite (is_ip_in_cidr_range a _ _ _ (Hwf a Ha) C3).
      destruct (prefix_shared _ k (value_of first) Hb
                  ltac:(simpl; auto) Hk Hmax (value_of a)) as [L1 L2];
        [now apply in_map|].
      apply Z.leb_le in L1, L2. now rewrite L1, L2.
    + intros c' m' Hc' Hm' Hlt.
      destruct (wf_cidr_mask c' m' Hc' Hm') as (p & _ & Hm & Hrange).
      destruct (longer_mask_misses _ k p m' Hb Hk Hd ltac:(lia))
        as (v & Hv & Hout).
      apply in_map_iff in Hv as (a & <- & Ha).
      exists a. split; [assumption|].
      rewrite (is_ip_in_cidr_range a _ _ _ (Hwf a Ha) Hrange).
      f_equal. apply andb_false_iff.
      destruct (Z.leb_spec (block_low p m') (value_of a)); [|auto].
      destruct (Z.leb_spec (value_of a) (block_high p m')); [|auto].
      exfalso. apply Hout. lia.
    + intros Hall. exfalso.
      apply (all_equal_no_differs _ k) in Hd; [assumption|].
      intros x y Hx Hy.
      apply in_map_iff in Hx as (a & <- & Ha).
      apply in_map_iff in Hy as (b & <- & Hb'). auto.
    + intros (a & b & Ha & Hb' & D).
      assert (k = 31).
      { destruct (Z.eq_dec k 31) as [|Hne]; [assumption|]. exfalso.
        apply (Hmax 31); [lia|].
        exists (value_of a), (value_of b).
        repeat split; try assumption; now apply in_map. }
      subst k. change (31 - 31) with 0.
      replace (block_low (value_of first) 0) with 0; [reflexivity|].
      unfold block_low. change (32 - 0) with 32.
      rewrite Z.mod_small; lia.
    + intros rest' E. now rewrite (Hsame rest' E).
Qed.

Lemma get_ip_cidr_from_ips_smallest_witness :
  forallb wf_quad sample_addresses = true /\
  exists c m,
    get_ip_cidr_from_ips sample_addresses = Ok c /\
    wf_cidr c = true /\ cidr_mask c = Ok m /\
    (forall a, In a sample_addresses -> is_ip_in_cidr a c = Ok true).
Proof.
  split; [reflexivity|].
  destruct (get_ip_cidr_from_ips_smallest
              "192.168.43.0" ["192.168.44.0"; "192.168.45.0"; "192.168.44.0"]
              eq_refl)
    as (c & m & H1 & H2 & H3 & H4 & _).
  exists c, m. auto.
Defined.

(* ================================================================== *)
(** ** Blocks under the sweep *)

Lemma block_low_mul (v m : Z) :
  m <= 32 -> block_low v m = 2 ^ (32 - m) * (v / 2 ^ (32 - m)).
Proof.
  intros Hm. unfold block_low.
  assert (Hp : 0 < 2 ^ (32 - m)) by (apply Z.pow_pos_nonneg; lia).
  pose proof (Z.div_mod v (2 ^ (32 - m)) ltac:(lia)). lia.
Qed.

Lemma nested_arith (B E q1 q2 : Z) :
  0 < B -> 0 < E ->
  B * q2 <= B * E * q1 + B * E - 1 ->
  B * q2 + B - 1 <= B * E * q1 + B * E - 1.
Proof.
  intros HB HE H.
  assert (Hq : q2 < E * q1 + E)
    by (apply (Z.mul_lt_mono_pos_l B); [assumption|lia]).
  nia.
Qed.

Lemma same_start_arith (B E q1 q2 : Z) :
  0 < B -> 1 <= E ->
  B * q1 <= B * E * q2 -> B * E * q2 <= B * q1 + B - 1 ->
  q1 = E * q2.
Proof.
  intros HB HE H1 H2.
  assert (Hq1 : q1 <= E * q2)
    by (apply (Z.mul_le_mono_pos_l _ _ B); [assumption|lia]).
  assert (Hq2 : E * q2 < q1 + 1)
    by (apply (Z.mul_lt_mono_pos_l B); [assumption|lia]).
  lia.
Qed.

Lemma pow2_split (k j : Z) :
  0 <= j <= k -> 2 ^ k = 2 ^ j * 2 ^ (k - j).
Proof.
  intros H. rewrite <- Z.pow_add_r by lia. f_equal. lia.
Qed.

(** Blocks are nested or apart: a block that starts inside another one
    ends inside it, or starts where it starts and contains it. *)
Lemma is_block_closed : merge_closed is_block.
Proof.
  intros a b c d (v1 & m1 & Hv1 & Hm1 & -> & ->)
         (v2 & m2 & Hv2 & Hm2 & -> & ->) Hac Hcb.
  assert (P1 : 0 < 2 ^ (32 - m1)) by (apply Z.pow_pos_nonneg; lia).
  assert (P2 : 0 < 2 ^ (32 - m2)) by (apply Z.pow_pos_nonneg; lia).
  destruct (Z_le_dec m1 m2) as [Hle|Hgt].
  - (* the second block is the shorter one: it ends inside the first *)
    exists v1, m1.
    split; [assumption|]. split; [assumption|]. split; [reflexivity|].
    apply Z.max_l. unfold block_high in *.
    rewrite !block_low_mul in * by lia.
    assert (PE : 0 < 2 ^ (32 - m1 - (32 - m2)))
      by (apply Z.pow_pos_nonneg; lia).
    rewrite (pow2_split (32 - m1) (32 - m2)) in * by lia.
    now apply nested_arith.
  - (* the second block is the longer one: both start at the same value *)
    exists v2, m2.
    split; [assumption|]. split; [assumption|].
    assert (PE : 0 < 2 ^ (32 - m2 - (32 - m1)))
      by (apply Z.pow_pos_nonneg; lia).
    assert (Hlow : block_low v1 m1 = block_low v2 m2).
    { unfold block_high in Hcb. rewrite !block_low_mul in * by lia.
      rewrite (pow2_split (32 - m2) (32 - m1)) in * by lia.
      assert (HE : 1 <= 2 ^ (32 - m2 - (32 - m1))) by lia.
      rewrite (same_start_arith _ _ _ _ P1 HE Hac Hcb). ring. }
    split; [assumption|].
    apply Z.max_r. unfold block_high. rewrite Hlow.
    assert (2 ^ (32 - m1) <= 2 ^ (32 - m2))
      by (apply Z.pow_le_mono_r; lia).
    lia.
Qed.

(** The covering block of the two ends of a block is the block itself. *)
Lemma block_cidr (lo hi : Z) :
  is_block lo hi ->
  exists c, get_ip_cidr_from_ips [value_to_ip lo; value_to_ip hi] = Ok c /\
    wf_cidr c = true /\ ip_cidr_to_ip_value_range c = Ok (lo, hi).
Proof.
  intros (v & m & Hv & Hm & Hlo & Hhi).
  destruct (block_bounds v m Hv Hm) as [B1 B2]. rewrite <- Hlo, <- Hhi in *.
  assert (Rlo : 0 <= lo < 2 ^ 32) by lia.
  assert (Rhi : 0 <= hi < 2 ^ 32) by lia.
  assert (W : forallb wf_quad [value_to_ip lo; value_to_ip hi] = true).
  { cbn [forallb].
    now rewrite !canonical_quad_wf by apply value_to_ip_canonical. }
  pose proof (values_in_range _ W) as Hb.
  destruct (get_ip_cidr_from_ips_char _ _ W)
    as [(Heq & ->)|(k & Hk & Hd & Hmax & ->)];
    cbn [map] in *; rewrite !value_of_value_to_ip in * by assumption.
  - assert (E : lo = hi) by (apply Heq; simpl; auto). rewrite <- E.
    eexists. split; [reflexivity|].
    destruct (cidr_of_equal (value_to_ip lo)) as (C1 & _ & C3);
      [apply canonical_quad_wf, value_to_ip_canonical|].
    rewrite value_of_value_to_ip in C3 by assumption. auto.
  - eexists. split; [reflexivity|].
    destruct (cidr_of_block lo k Rlo Hk) as (C1 & _ & C3).
    split; [assumption|].
    destruct (prefix_shared _ k lo Hb ltac:(simpl; auto) Hk Hmax lo)
      as [L1 L2]; [simpl; auto|].
    destruct (prefix_shared _ k lo Hb ltac:(simpl; auto) Hk Hmax hi)
      as [L3 L4]; [simpl; auto|].
    assert (Hmk : m <= 31 - k).
    { destruct (Z_le_dec m (31 - k)) as [|N]; [assumption|]. exfalso.
      destruct (longer_mask_misses _ k v m Hb Hk Hd ltac:(lia))
        as (x & Hx & Hout).
      rewrite <- Hlo, <- Hhi in Hout.
      destruct Hx as [<-|[<-|[]]]; lia. }
    assert (Hpow : 2 ^ (32 - (31 - k)) <= 2 ^ (32 - m))
      by (apply Z.pow_le_mono_r; lia).
    unfold block_high in *. rewrite C3. f_equal. f_equal; lia.
Qed.

Lemma Forall2_In_l {A B : Type} (P : A -> B -> Prop) (l1 : list A) (l2 : list B) :
  Forall2 P l1 l2 -> forall x, In x l1 -> exists y, In y l2 /\ P x y.
Proof.
  induction 1 as [|a b l1 l2 Hab _ IH]; intros x Hx; [contradiction|].
  destruct Hx as [<-|Hx]; [exists b; simpl; auto|].
  destruct (IH x Hx) as (y & Hy & Hp). exists y. simpl. auto.
Qed.

Lemma Forall2_In_r {A B : Type} (P : A -> B -> Prop) (l1 : list A) (l2 : list B) :
  Forall2 P l1 l2 -> forall y, In y l2 -> exists x, In x l1 /\ P x y.
Proof.
  induction 1 as [|a b l1 l2 Hab _ IH]; intros y Hy; [contradiction|].
  destruct Hy as [<-|Hy]; [exists a; simpl; auto|].
  destruct (IH y Hy) as (x & Hx & Hp). exists x. simpl. auto.
Qed.

Lemma Forall2_nth_r {A B : Type} (P : A -> B -> Prop) (l1 : list A) (l2 : list B) :
  Forall2 P l1 l2 ->
  forall i y, nth_error l2 i = Some y ->
    exists x, nth_error l1 i = Some x /\ P x y.
Proof.
  induction 1 as [|a b l1 l2 Hab _ IH]; intros i y Hy.
  - destruct i; discriminate.
  - destruct i as [|i]; simpl in *; [injection Hy as <-; eauto|auto].
Qed.

Lemma cidr_covers_iff (c : string) (lo hi v : Z) :
  ip_cidr_to_ip_value_range c = Ok (lo, hi) ->
  (cidr_covers c v <-> lo <= v <= hi).
Proof.
  intros H. unfold cidr_covers. rewrite H. split.
  - intros (lo' & hi' & E & Hv). now injection E as <- <-.
  - intros Hv. eauto.
Qed.

(** The first stage of [consolidate_ip_cidrs]: every CIDR string becomes
    the range of the printed ends of its block. *)
Lemma cidrs_to_ranges (cidrs : list string) :
  forallb wf_cidr cidrs = true ->
  exists ranges,
    mapM ip_cidr_to_ip_range cidrs = Ok ranges /\
    Forall2 (fun c r => sweepable is_block r /\ printed r /\
                        forall v, cidr_covers c v <-> covers r v)
            cidrs ranges.
Proof.
  induction cidrs as [|c cidrs IH]; intros H.
  - exists []. split; [reflexivity|constructor].
  - cbn [forallb] in H. apply andb_true_iff in H as [Hc H].
    destruct (IH H) as (ranges & E & F).
    destruct (wf_cidr_range c Hc) as (v & m & Hv & Hm & Hr).
    destruct (block_bounds v m Hv Hm) as [B1 B2].
    set (lo := block_low v m) in *. set (hi := block_high v m) in *.
    exists (printed_range (lo, hi) :: ranges).
    cbn [mapM]. unfold ip_cidr_to_ip_range at 1. rewrite Hr. cbn [bind].
    rewrite E. cbn [bind]. split; [reflexivity|].
    assert (Llo : low (printed_range (lo, hi)) = lo)
      by (apply value_of_value_to_ip; lia).
    assert (Lhi : high (printed_range (lo, hi)) = hi)
      by (apply value_of_value_to_ip; lia).
    constructor; [|assumption]. split; [|split].
    + split; [|split].
      * split; eapply readable_value, get_value_value_to_ip.
      * rewrite Llo, Lhi. lia.
      * rewrite Llo, Lhi. exists v, m. auto.
    + unfold printed. now rewrite Llo, Lhi.
    + intros w. rewrite (cidr_covers_iff c lo hi w Hr).
      unfold covers. now rewrite Llo, Lhi.
Qed.

(** The sweep keeps the printed form of the ends. *)
Lemma sweep_printed (Q : Z -> Z -> Prop) (R out : list ip_range) :
  sweep_inv Q R out -> (forall r, In r R -> printed r) ->
  forall o, In o out -> printed o.
Proof.
  intros I HR o Ho.
  destruct (inv_low _ _ _ I o Ho) as (r1 & Hr1 & E1).
  destruct (inv_high _ _ _ I o Ho) as (r2 & Hr2 & E2).
  pose proof (HR r1 Hr1) as P1. pose proof (HR r2 Hr2) as P2.
  unfold printed, printed_range in *. cbn [fst snd] in *.
  apply (f_equal fst) in P1. apply (f_equal snd) in P2. cbn [fst snd] in *.
  unfold low, high in *. destruct o as [a b]. cbn [fst snd] in *.
  rewrite E1, E2. congruence.
Qed.

(** The last stage of [consolidate_ip_cidrs]: every consolidated block
    becomes the CIDR string of that block. *)
Lemma ranges_to_cidrs (ranges : list ip_range) :
  Forall (fun o => is_block (low o) (high o) /\ printed o) ranges ->
  exists out,
    mapM (fun r : ip_range => get_ip_cidr_from_ips [fst r; snd r]) ranges
    = Ok out /\
    Forall2 (fun r c => wf_cidr c = true /\
                        forall v, cidr_covers c v <-> covers r v)
            ranges out.
Proof.
  induction 1 as [|o ranges (Hblock & Hpr) _ (out & E & F)].
  - exists []. split; [reflexivity|constructor].
  - destruct (block_cidr _ _ Hblock) as (c & Hc & Hwf & Hrange).
    exists (c :: out). cbn [mapM].
    unfold printed, printed_range in Hpr. rewrite Hpr at 1 2.
    cbn [fst snd]. rewrite Hc, E. cbn [bind]. split; [reflexivity|].
    constructor; [|assumption]. split; [assumption|].
    intros v. now rewrite (cidr_covers_iff c _ _ v Hrange).
Qed.

(** C5.  For every list of well-formed CIDR strings,
    [consolidate_ip_cidrs] returns a list of well-formed CIDR strings in
    which no address value lies in the blocks at two different positions,
    and whose blocks cover the values of the input blocks, and no other
    value. *)
Theorem consolidate_ip_cidrs_correct (cidrs : list string) :
  forallb wf_cidr cidrs = true ->
  exists out,
    consolidate_ip_cidrs cidrs = Ok out /\
    forallb wf_cidr out = true /\
    (forall i j a b, i <> j ->
       nth_error out i = Some a -> nth_error out j = Some b ->
       forall v, ~ (cidr_covers a v /\ cidr_covers b v)) /\
    (forall v, (exists c, In c cidrs /\ cidr_covers c v)
               <-> (exists o, In o out /\ cidr_covers o v)).
Proof.
  intros H.
  destruct (cidrs_to_ranges cidrs H) as (ranges & E1 & F1).
  assert (Hsw : Forall (sweepable is_block) ranges).
  { apply Forall_forall. intros r Hr.
    destruct (Forall2_In_r _ _ _ F1 r Hr) as (c & _ & Hs & _). exact Hs. }
  assert (Hpr : forall r, In r ranges -> printed r).
  { intros r Hr.
    destruct (Forall2_In_r _ _ _ F1 r Hr) as (c & _ & _ & Hp & _). exact Hp. }
  destruct (consolidate_ip_ranges_spec is_block ranges is_block_closed Hsw)
    as (merged & E2 & I).
  destruct (ranges_to_cidrs merged) as (out & E3 & F3).
  { apply Forall_forall. intros o Ho. split.
    - apply (inv_shape _ _ _ I o Ho).
    - apply (sweep_printed _ _ _ I Hpr o Ho). }
  exists out. unfold consolidate_ip_cidrs. rewrite E1. cbn [bind].
  rewrite E2. cbn [bind]. split; [exact E3|]. split; [|split].
  - apply forallb_forall. intros c Hc.
    destruct (Forall2_In_r _ _ _ F3 c Hc) as (o & _ & Hwf & _). exact Hwf.
  - intros i j a b Hij Ha Hb v [Hva Hvb].
    destruct (Forall2_nth_r _ _ _ F3 i a Ha) as (oa & Hoa & _ & Ca).
    destruct (Forall2_nth_r _ _ _ F3 j b Hb) as (ob & Hob & _ & Cb).
    apply (sweep_inv_disjoint _ _ _ I i j oa ob Hij Hoa Hob v).
    split; [now apply Ca|now apply Cb].
  - intros v. split.
    + intros (c & Hc & Hv).
      destruct (Forall2_In_l _ _ _ F1 c Hc) as (r & Hr & _ & _ & Cr).
      destruct (proj2 (inv_cover _ _ _ I v)) as (o & Ho & Hov).
      { exists r. split; [assumption|now apply Cr]. }
      destruct (Forall2_In_l _ _ _ F3 o Ho) as (c' & Hc' & _ & Cc').
      exists c'. split; [assumption|now apply Cc'].
    + intros (c' & Hc' & Hv).
      destruct (Forall2_In_r _ _ _ F3 c' Hc') as (o & Ho & _ & Co).
      destruct (proj1 (inv_cover _ _ _ I v)) as (r & Hr & Hrv).
      { exists o. split; [assumption|now apply Co]. }
      destruct (Forall2_In_r _ _ _ F1 r Hr) as (c & Hc & _ & _ & Cc).
      exists c. split; [assumption|now apply Cc].
Qed.

Lemma consolidate_ip_cidrs_correct_witness :
  forallb wf_cidr sample_cidrs = true /\
  exists out,
    consolidate_ip_cidrs sample_cidrs = Ok out /\
    forallb wf_cidr out = true /\
    (forall v, (exists c, In c sample_cidrs /\ cidr_covers c v)
               <-> (exists o, In o out /\ cidr_covers o v)).
Proof.
  split; [reflexivity|].
  destruct (consolidate_ip_cidrs_correct sample_cidrs eq_refl)
    as (out & H1 & H2 & _ & H3).
  exists out. auto.
Defined.

(* ================================================================== *)
(** ** [get_value] and the shape of its argument *)

(** [get_value] reads the four last fields, whatever comes before them. *)
Lemma get_value_rev (s f0 f1 f2 f3 : string) (rest : list string) :
  rev (split "." s) = f0 :: f1 :: f2 :: f3 :: rest ->
  get_value s =
  (d <- py_int f0 ;; c <- py_int f1 ;; b <- py_int f2 ;; a <- py_int f3 ;;
   Ok (quad_value a b c d)).
Proof.
  intros Hs. unfold get_value. rewrite Hs.
  change (py_range 0 4) with [0; 1; 2; 3].
  unfold get_value_loop.
  change (Z.to_nat 0) with 0%nat. change (Z.to_nat 1) with 1%nat.
  change (Z.to_nat 2) with 2%nat. change (Z.to_nat 3) with 3%nat.
  unfold py_index. cbn [nth_error bind].
  destruct (py_int f0) as [d|]; [|reflexivity]. cbn [bind].
  destruct (py_int f1) as [c|]; [|reflexivity]. cbn [bind].
  destruct (py_int f2) as [b|]; [|reflexivity]. cbn [bind].
  destruct (py_int f3) as [a|]; [|reflexivity]. cbn [bind].
  f_equal. unfold quad_value.
  change (Z.shiftl 1 (Z.shiftl 0 3)) with 1.
  change (Z.shiftl 1 (Z.shiftl 1 3)) with (2 ^ 8).
  change (Z.shiftl 1 (Z.shiftl 2 3)) with (2 ^ 16).
  change (Z.shiftl 1 (Z.shiftl 3 3)) with (2 ^ 24).
  lia.
Qed.

(** X1.  An address with fewer than four dot-separated fields makes
    [get_value] raise; when all the fields present are integers the
    exception is [IndexError]. *)
Theorem get_value_too_few_fields (s : string) :
  (List.length (split "." s) < 4)%nat ->
  (exists e, get_value s = Err e) /\
  ((forall f, In f (split "." s) -> exists v, py_int f = Ok v) ->
   get_value s = Err IndexError).
Proof.
  intros Hlen. unfold get_value.
  rewrite <- length_rev in Hlen.
  assert (Hin : forall f, In f (rev (split "." s)) -> In f (split "." s))
    by (intros f; apply in_rev).
  change (py_range 0 4) with [0; 1; 2; 3].
  unfold get_value_loop.
  change (Z.to_nat 0) with 0%nat. change (Z.to_nat 1) with 1%nat.
  change (Z.to_nat 2) with 2%nat. change (Z.to_nat 3) with 3%nat.
  unfold py_index.
  destruct (rev (split "." s)) as [|f0 [|f1 [|f2 [|f3 rest]]]];
    cbn [List.length] in Hlen; try lia; cbn [nth_error bind].
  - split; [eauto|reflexivity].
  - split.
    + destruct (py_int f0); cbn [bind]; eauto.
    + intros H. destruct (H f0) as (v0 & ->); [apply Hin; simpl; auto|].
      reflexivity.
  - split.
    + destruct (py_int f0); cbn [bind]; [|eauto].
      destruct (py_int f1); cbn [bind]; eauto.
    + intros H. destruct (H f0) as (v0 & ->); [apply Hin; simpl; auto|].
      destruct (H f1) as (v1 & ->); [apply Hin; simpl; auto|]. reflexivity.
  - split.
    + destruct (py_int f0); cbn [bind]; [|eauto].
      destruct (py_int f1); cbn [bind]; [|eauto].
      destruct (py_int f2); cbn [bind]; eauto.
    + intros H. destruct (H f0) as (v0 & ->); [apply Hin; simpl; auto|].
      destruct (H f1) as (v1 & ->); [apply Hin; simpl; auto|].
      destruct (H f2) as (v2 & ->); [apply Hin; simpl; auto|]. reflexivity.
Qed.

Lemma get_value_too_few_fields_witness :
  (exists e, get_value "10.20.30" = Err e) /\
  ((forall f, In f (split "." "10.20.30") -> exists v, py_int f = Ok v) ->
   get_value "10.20.30" = Err IndexError).
Proof. apply (get_value_too_few_fields "10.20.30"). simpl. lia. Defined.

(** X2.  Fields in front of the four last ones are ignored: when [s] has
    at least four fields, putting a field [p] and a dot in front of it
    does not change what [get_value] returns. *)
Theorem get_value_extra_fields (p s : string) :
  no_char "." p = true -> (4 <= List.length (split "." s))%nat ->
  get_value (p ++ "." ++ s) = get_value s.
Proof.
  intros Hp Hlen. cbn [append].
  assert (Hs : split "." (p ++ String "." s) = p :: split "." s)
    by now apply split_app.
  rewrite <- length_rev in Hlen.
  destruct (rev (split "." s)) as [|f0 [|f1 [|f2 [|f3 rest]]]] eqn:E;
    cbn [List.length] in Hlen; try lia.
  rewrite (get_value_rev s f0 f1 f2 f3 rest E).
  apply (get_value_rev _ f0 f1 f2 f3 (rest ++ [p])%list).
  rewrite Hs. cbn [rev]. rewrite E. reflexivity.
Qed.

Lemma get_value_extra_fields_witness :
  get_value ("9" ++ "." ++ "1.2.3.4") = get_value "1.2.3.4".
Proof.
  apply (get_value_extra_fields "9" "1.2.3.4"); [reflexivity|simpl; lia].
Defined.

(* ================================================================== *)
(** ** Whitespace around an address *)



















(* ================================================================== *)
(** ** The geometry of a CIDR block *)

Lemma wf_cidr_parts (c prefix mask : string) :
  wf_cidr c = true -> split "/" c = [prefix; mask] ->
  wf_quad prefix = true /\ exists m, py_int mask = Ok m /\ 0 <= m <= 32.
Proof.
  unfold wf_cidr. intros H E. rewrite E in H. split_andb.
  split; [assumption|].
  match goal with Q : mask_ok _ = true |- _ =>
    apply mask_ok_inv in Q as (_ & m & Hm & Hb) end.
  eauto.
Qed.

Lemma wf_cidr_parts_range (c prefix mask : string) (m : Z) :
  wf_cidr c = true -> split "/" c = [prefix; mask] -> py_int mask = Ok m ->
  0 <= m <= 32 /\ 0 <= value_of prefix < 2 ^ 32 /\
  ip_cidr_to_ip_value_range c
  = Ok (block_low (value_of prefix) m, block_high (value_of prefix) m).
Proof.
  intros Hc Hs Hm.
  destruct (wf_cidr_parts c prefix mask Hc Hs) as (Hp & m' & Hm' & Hb).
  assert (m' = m) by congruence. subst m'.
  split; [assumption|]. split; [now apply wf_quad_value_of|].
  apply (cidr_range_fields c prefix mask); auto.
  - now apply wf_quad_readable.
  - now apply wf_quad_value_of.
Qed.

(** X4.  For a dotted quad [a] and a well-formed CIDR string with prefix
    [prefix] and mask length [m], [is_ip_in_cidr] answers whether [a] and
    the prefix have the same [m] leading bits, that is the same quotient
    by [2^(32-m)]; the low bits of the prefix play no part. *)
Theorem is_ip_in_cidr_leading_bits (a c prefix mask : string) (m : Z) :
  wf_quad a = true -> wf_cidr c = true ->
  split "/" c = [prefix; mask] -> py_int mask = Ok m ->
  is_ip_in_cidr a c
  = Ok (value_of a / 2 ^ (32 - m) =? value_of prefix / 2 ^ (32 - m)).
Proof.
  intros Ha Hc Hs Hm.
  destruct (wf_cidr_parts_range c prefix mask m Hc Hs Hm) as (Hb & _ & Hr).
  rewrite (is_ip_in_cidr_range a c _ _ Ha Hr). f_equal.
  pose proof (in_block_iff (value_of prefix) (value_of a) m ltac:(lia)) as I.
  destruct (Z.eqb_spec (value_of a / 2 ^ (32 - m))
                       (value_of prefix / 2 ^ (32 - m))) as [E|N].
  - apply I in E. apply andb_true_iff. split; apply Z.leb_le; lia.
  - apply andb_false_iff.
    destruct (Z.leb_spec (block_low (value_of prefix) m) (value_of a));
      [|now left].
    destruct (Z.leb_spec (value_of a) (block_high (value_of prefix) m));
      [|now right].
    exfalso. apply N, I. lia.
Qed.

Lemma is_ip_in_cidr_leading_bits_witness :
  is_ip_in_cidr "210.105.41.0" "210.105.44.170/21"
  = Ok (value_of "210.105.41.0" / 2 ^ (32 - 21)
        =? value_of "210.105.44.170" / 2 ^ (32 - 21)).
Proof.
  apply (is_ip_in_cidr_leading_bits
           "210.105.41.0" "210.105.44.170/21" "210.105.44.170" "21" 21);
    reflexivity.
Defined.

(** X5.  The value range of a well-formed CIDR string of mask length [m]
    starts at a multiple of [2^(32-m)], holds [2^(32-m)] values, and
    contains the value of the prefix as written. *)
Theorem ip_cidr_to_ip_value_range_aligned (c prefix mask : string) (m : Z) :
  wf_cidr c = true -> split "/" c = [prefix; mask] -> py_int mask = Ok m ->
  exists lo hi,
    ip_cidr_to_ip_value_range c = Ok (lo, hi) /\
    lo mod 2 ^ (32 - m) = 0 /\ hi - lo + 1 = 2 ^ (32 - m) /\
    lo <= value_of prefix <= hi.
Proof.
  intros Hc Hs Hm.
  destruct (wf_cidr_parts_range c prefix mask m Hc Hs Hm) as (Hb & Hv & Hr).
  destruct (block_bounds _ m Hv Hb) as [B1 B2].
  eexists _, _. split; [exact Hr|]. split; [|split; [|lia]].
  - rewrite block_low_mul by lia. rewrite Z.mul_comm. apply Z.mod_mul.
    apply Z.pow_nonzero; lia.
  - unfold block_high. lia.
Qed.

Lemma ip_cidr_to_ip_value_range_aligned_witness :
  exists lo hi,
    ip_cidr_to_ip_value_range "210.105.44.170/21" = Ok (lo, hi) /\
    lo mod 2 ^ (32 - 21) = 0 /\ hi - lo + 1 = 2 ^ (32 - 21) /\
    lo <= value_of "210.105.44.170" <= hi.
Proof.
  apply (ip_cidr_to_ip_value_range_aligned
           "210.105.44.170/21" "210.105.44.170" "21" 21); reflexivity.
Defined.

(** X6.  A prefix with bits set below the mask is normalised silently: two
    well-formed CIDR strings with the same mask length whose prefixes have
    the same leading bits denote the same value range. *)
Theorem ip_cidr_to_ip_value_range_normalises
    (c1 p1 k1 c2 p2 k2 : string) (m : Z) :
  wf_cidr c1 = true -> split "/" c1 = [p1; k1] -> py_int k1 = Ok m ->
  wf_cidr c2 = true -> split "/" c2 = [p2; k2] -> py_int k2 = Ok m ->
  value_of p1 / 2 ^ (32 - m) = value_of p2 / 2 ^ (32 - m) ->
  ip_cidr_to_ip_value_range c1 = ip_cidr_to_ip_value_range c2.
Proof.
  intros Hc1 Hs1 Hm1 Hc2 Hs2 Hm2 E.
  destruct (wf_cidr_parts_range c1 p1 k1 m Hc1 Hs1 Hm1) as (Hb & _ & ->).
  destruct (wf_cidr_parts_range c2 p2 k2 m Hc2 Hs2 Hm2) as (_ & _ & ->).
  unfold block_high. rewrite !block_low_mul, E by lia. reflexivity.
Qed.

Lemma ip_cidr_to_ip_value_range_normalises_witness :
  ip_cidr_to_ip_value_range "210.105.44.170/21"
  = ip_cidr_to_ip_value_range "210.105.40.0/21".
Proof.
  apply (ip_cidr_to_ip_value_range_normalises
           "210.105.44.170/21" "210.105.44.170" "21"
           "210.105.40.0/21" "210.105.40.0" "21" 21); reflexivity.
Defined.

(** X7.  For a well-formed CIDR string, [ip_cidr_to_ip_range] returns two
    dotted quads in canonical decimal that [get_value] reads back as the
    two ends of the value range, and both lie in the block. *)
Theorem ip_cidr_to_ip_range_ends (c : string) :
  wf_cidr c = true ->
  exists a b lo hi,
    ip_cidr_to_ip_range c = Ok (a, b) /\
    ip_cidr_to_ip_value_range c = Ok (lo, hi) /\
    canonical_quad a = true /\ canonical_quad b = true /\
    get_value a = Ok lo /\ get_value b = Ok hi /\
    is_ip_in_cidr a c = Ok true /\ is_ip_in_cidr b c = Ok true.
Proof.
  intros Hc.
  destruct (wf_cidr_range c Hc) as (v & m & Hv & Hm & Hr).
  destruct (block_bounds v m Hv Hm) as [B1 B2].
  set (lo := block_low v m) in *. set (hi := block_high v m) in *.
  exists (value_to_ip lo), (value_to_ip hi), lo, hi.
  assert (Glo : get_value (value_to_ip lo) = Ok lo)
    by (rewrite get_value_value_to_ip, Z.mod_small; [reflexivity|lia]).
  assert (Ghi : get_value (value_to_ip hi) = Ok hi)
    by (rewrite get_value_value_to_ip, Z.mod_small; [reflexivity|lia]).
  assert (In_block : forall w, lo <= w <= hi ->
            is_ip_in_cidr (value_to_ip w) c = Ok true).
  { intros w Hw.
    rewrite (is_ip_in_cidr_range _ c lo hi
               (canonical_quad_wf _ (value_to_ip_canonical w)) Hr).
    rewrite value_of_value_to_ip by lia. f_equal.
    apply andb_true_iff. split; apply Z.leb_le; lia. }
  unfold ip_cidr_to_ip_range. rewrite Hr. cbn [bind].
  repeat split; try assumption; try apply value_to_ip_canonical;
    apply In_block; lia.
Qed.

Lemma ip_cidr_to_ip_range_ends_witness :
  exists a b lo hi,
    ip_cidr_to_ip_range "210.105.44.170/21" = Ok (a, b) /\
    ip_cidr_to_ip_value_range "210.105.44.170/21" = Ok (lo, hi) /\
    canonical_quad a = true /\ canonical_quad b = true /\
    get_value a = Ok lo /\ get_value b = Ok hi /\
    is_ip_in_cidr a "210.105.44.170/21" = Ok true /\
    is_ip_in_cidr b "210.105.44.170/21" = Ok true.
Proof. apply (ip_cidr_to_ip_range_ends "210.105.44.170/21"). reflexivity. Defined.

(* ================================================================== *)
(** ** More on the covering block *)

Lemma block_low_same_quotient (v w m : Z) :
  m <= 32 -> v / 2 ^ (32 - m) = w / 2 ^ (32 - m) ->
  block_low v m = block_low w m.
Proof. intros Hm E. now rewrite !block_low_mul, E by lia. Qed.

(** X8.  The block returned by [get_ip_cidr_from_ips] for a non-empty list
    of dotted quads contains every value between two of the entries: given
    the two ends of an address range, it covers the whole range. *)
Theorem get_ip_cidr_from_ips_covers_hull
    (first : string) (rest : list string) (a b : string) (v : Z) :
  forallb wf_quad (first :: rest) = true ->
  In a (first :: rest) -> In b (first :: rest) ->
  value_of a <= v <= value_of b ->
  exists c, get_ip_cidr_from_ips (first :: rest) = Ok c /\ cidr_covers c v.
Proof.
  intros H Ha Hb Hv.
  pose proof (values_in_range _ H) as Hr.
  assert (Hf : wf_quad first = true).
  { rewrite forallb_forall in H. apply H. simpl. auto. }
  destruct (get_ip_cidr_from_ips_char first rest H)
    as [(Heq & ->)|(k & Hk & Hd & Hmax & ->)].
  - eexists. split; [reflexivity|].
    destruct (cidr_of_equal first Hf) as (_ & _ & C3).
    apply (cidr_covers_iff _ _ _ v C3).
    rewrite (Heq (value_of a) (value_of first)) in Hv;
      [|now apply in_map|apply in_map; simpl; auto].
    rewrite (Heq (value_of b) (value_of first)) in Hv;
      [|now apply in_map|apply in_map; simpl; auto].
    exact Hv.
  - eexists. split; [reflexivity|].
    destruct (cidr_of_block (value_of first) k (wf_quad_value_of _ Hf) Hk)
      as (_ & _ & C3).
    apply (cidr_covers_iff _ _ _ v C3).
    assert (H0 : In (value_of first) (map value_of (first :: rest)))
      by (apply in_map; simpl; auto).
    destruct (prefix_shared _ k _ Hr H0 Hk Hmax (value_of a));
      [now apply in_map|].
    destruct (prefix_shared _ k _ Hr H0 Hk Hmax (value_of b));
      [now apply in_map|].
    lia.
Qed.

Lemma get_ip_cidr_from_ips_covers_hull_witness :
  exists c, get_ip_cidr_from_ips ["1.2.3.0"; "1.2.4.255"] = Ok c
            /\ cidr_covers c 16909200.
Proof.
  apply (get_ip_cidr_from_ips_covers_hull
           "1.2.3.0" ["1.2.4.255"] "1.2.3.0" "1.2.4.255" 16909200);
    [reflexivity|simpl; auto|simpl; auto|].
  vm_compute. split; discriminate.
Defined.

(** The result on canonical entries depends on the set of entries only. *)
Lemma get_ip_cidr_from_ips_set
    (first first' : string) (rest rest' : list string) :
  forallb canonical_quad (first :: rest) = true ->
  (forall x, In x (first' :: rest') <-> In x (first :: rest)) ->
  get_ip_cidr_from_ips (first' :: rest') = get_ip_cidr_from_ips (first :: rest).
Proof.
  intros Hcan E.
  assert (Hc : forall x, In x (first :: rest) -> canonical_quad x = true)
    by now apply forallb_forall.
  assert (H : forallb wf_quad (first :: rest) = true).
  { apply forallb_forall. intros x Hx. apply canonical_quad_wf, Hc, Hx. }
  assert (H' : forallb wf_quad (first' :: rest') = true).
  { apply forallb_forall. intros x Hx. apply canonical_quad_wf, Hc, E, Hx. }
  assert (F1 : In first (first :: rest)) by (simpl; auto).
  assert (F2 : In first' (first :: rest)) by (apply E; simpl; auto).
  pose proof (map_value_of_incl _ _ (fun x => proj1 (E x))) as I1.
  pose proof (map_value_of_incl _ _ (fun x => proj2 (E x))) as I2.
  pose proof (values_in_range _ H) as Hr.
  destruct (get_ip_cidr_from_ips_char first rest H)
    as [(Heq & ->)|(k & Hk & Hd & Hmax & ->)];
    destruct (get_ip_cidr_from_ips_char first' rest' H')
      as [(Heq' & ->)|(k' & Hk' & Hd' & Hmax' & ->)].
  - (* one value: one canonical string *)
    assert (Ev : value_of first' = value_of first)
      by (apply Heq; now apply in_map).
    assert (first' = first); [|now subst].
    rewrite <- (value_to_ip_get_value first' (value_of first') (Hc _ F2)
                  (wf_quad_readable _ (canonical_quad_wf _ (Hc _ F2)))).
    rewrite Ev.
    apply (value_to_ip_get_value first (value_of first) (Hc _ F1)
             (wf_quad_readable _ (canonical_quad_wf _ (Hc _ F1)))).
  - exfalso. apply (all_equal_no_differs _ k' Heq).
    eapply bit_differs_same; [exact I1|exact Hd'].
  - exfalso. apply (all_equal_no_differs _ k Heq').
    eapply bit_differs_same; [exact I2|exact Hd].
  - assert (k' = k).
    { destruct (Z.lt_trichotomy k' k) as [Hlt|[Heq|Hgt]]; [|assumption|].
      - exfalso. apply (Hmax' k); [lia|].
        eapply bit_differs_same; [exact I2|exact Hd].
      - exfalso. apply (Hmax k'); [lia|].
        eapply bit_differs_same; [exact I1|exact Hd']. }
    subst k'. do 3 f_equal.
    apply block_low_same_quotient; [lia|].
    apply in_block_iff; [lia|].
    apply (prefix_shared _ k _ Hr); try assumption; now apply in_map.
Qed.

(** X9.  On dotted quads in canonical decimal the result of
    [get_ip_cidr_from_ips] depends on the set of entries only: neither
    their order nor repetitions change the string returned. *)
Theorem get_ip_cidr_from_ips_order_free (l l' : list string) :
  l <> [] -> forallb canonical_quad l = true ->
  (forall x, In x l' <-> In x l) ->
  get_ip_cidr_from_ips l' = get_ip_cidr_from_ips l.
Proof.
  intros Hne Hcan E.
  destruct l as [|first rest]; [contradiction|].
  destruct l' as [|first' rest'].
  - exfalso. apply (proj2 (E first)). simpl. auto.
  - now apply get_ip_cidr_from_ips_set.
Qed.

Lemma get_ip_cidr_from_ips_order_free_witness :
  get_ip_cidr_from_ips ["2.0.3.4"; "2.30.4.5"; "2.255.2.3"; "2.0.3.4"]
  = get_ip_cidr_from_ips ["2.255.2.3"; "2.0.3.4"; "2.30.4.5"].
Proof.
  apply get_ip_cidr_from_ips_order_free;
    [discriminate|reflexivity|].
  intros x. simpl. tauto.
Defined.

Lemma mod_same_bits (x y j : Z) :
  x mod 2 ^ 32 = y mod 2 ^ 32 -> 0 <= j < 32 ->
  Z.testbit x j = Z.testbit y j.
Proof.
  intros E Hj.
  rewrite <- (Z.mod_pow2_bits_low x 32 j), <- (Z.mod_pow2_bits_low y 32 j)
    by lia.
  now rewrite E.
Qed.

(** X10.  [get_ip_cidr_from_ips] does not reject octets above 255.  When
    the values read differ but agree modulo [2^32], no bit below 32 tells
    them apart, the scan runs to its end, and the result is the first
    value, reduced modulo [2^32], with mask length 31. *)
Theorem get_ip_cidr_from_ips_fall_through
    (first : string) (rest : list string) (values : list Z) :
  mapM get_value (first :: rest) = Ok values ->
  (exists x y, In x values /\ In y values /\ x <> y) ->
  (forall x y, In x values -> In y values -> x mod 2 ^ 32 = y mod 2 ^ 32) ->
  get_ip_cidr_from_ips (first :: rest)
  = Ok (value_to_ip (value_of first) ++ "/31").
Proof.
  intros Hv (x & y & Hx & Hy & Hxy) Hmod.
  unfold get_ip_cidr_from_ips. rewrite Hv. cbn [bind].
  destruct (forallb _ (product values)) eqn:E.
  { exfalso. apply Hxy. now apply (proj1 (all_equal_test values) E). }
  destruct (cidr_scan_spec values 32 0)
    as [(k & Hk & (u & w & Hu & Hw & D) & _)|(_ & ->)].
  { exfalso. apply D. apply mod_same_bits; [now apply Hmod|lia]. }
  cbn [mapM] in Hv.
  destruct (get_value first) as [v0|] eqn:G; [|discriminate Hv].
  cbn [bind] in Hv. destruct (mapM get_value rest); [|discriminate Hv].
  cbn [bind] in Hv. injection Hv as <-.
  cbn [py_index nth_error bind].
  unfold value_of. rewrite G.
  change (0 + 2 ^ Z.of_nat 32 - 1) with (Z.ones 32).
  rewrite Z.land_comm, Z.land_ones, value_to_ip_mod by lia.
  reflexivity.
Qed.

Lemma get_ip_cidr_from_ips_fall_through_witness :
  get_ip_cidr_from_ips ["256.0.0.7"; "0.0.0.7"]
  = Ok (value_to_ip (value_of "256.0.0.7") ++ "/31").
Proof.
  apply (get_ip_cidr_from_ips_fall_through
           "256.0.0.7" ["0.0.0.7"] [4294967303; 7]).
  - reflexivity.
  - exists 4294967303, 7. simpl. split; [auto|split; [auto|discriminate]].
  - intros x y [<-|[<-|[]]] [<-|[<-|[]]]; reflexivity.
Defined.

(* ================================================================== *)
(** ** What the sweep returns, whatever the input *)

Lemma bind_inv {A B : Type} (m : result A) (k : A -> result B) (b : B) :
  bind m k = Ok b -> exists a, m = Ok a /\ k a = Ok b.
Proof. destruct m; cbn [bind]; [eauto|discriminate]. Qed.

Lemma insert_range_perm (x : ip_range) (l out : list ip_range) :
  insert_range x l = Ok out -> Permutation out (x :: l).
Proof.
  revert out. induction l as [|y l IH]; intros out H; cbn [insert_range] in H.
  - injection H as <-. reflexivity.
  - apply bind_inv in H as (c & _ & H).
    destruct (c <? 0).
    + apply bind_inv in H as (r & Hr & H). injection H as <-.
      rewrite (IH r Hr). apply perm_swap.
    + injection H as <-. reflexivity.
Qed.

Lemma sort_perm (l out : list ip_range) :
  sort_ip_address_ranges l = Ok out -> Permutation out l.
Proof.
  revert out. induction l as [|x l IH]; intros out H;
    cbn [sort_ip_address_ranges] in H.
  - injection H as <-. constructor.
  - apply bind_inv in H as (s & Hs & H).
    rewrite (insert_range_perm _ _ _ H). constructor. auto.
Qed.

Lemma combine_ends (a b c : ip_range) :
  combine_ip_ranges a b = Ok c ->
  (fst c = fst a \/ fst c = fst b) /\ (snd c = snd a \/ snd c = snd b).
Proof.
  unfold combine_ip_ranges. intros H.
  apply bind_inv in H as (v1 & _ & H). apply bind_inv in H as (v2 & _ & H).
  apply bind_inv in H as (v3 & _ & H). apply bind_inv in H as (v4 & _ & H).
  injection H as <-. cbn [fst snd].
  split; [destruct (v1 <? v2)|destruct (v3 >? v4)]; auto.
Qed.

(** One step of the sweep appends the range or replaces the last range
    by a range made of ends of the two. *)
Lemma consolidate_step_shape (acc acc' : list ip_range) (r : ip_range) :
  consolidate_step acc r = Ok acc' ->
  acc' = (acc ++ [r])%list \/
  exists front lst c,
    acc = (front ++ [lst])%list /\ acc' = (front ++ [c])%list /\
    (fst c = fst r \/ fst c = fst lst) /\ (snd c = snd r \/ snd c = snd lst).
Proof.
  unfold consolidate_step.
  destruct acc as [|lst front _] using rev_ind.
  - cbn. intros H. injection H as <-. now left.
  - rewrite last_or_none_snoc. intros H.
    apply bind_inv in H as (ov & _ & H). destruct ov.
    + apply bind_inv in H as (c & Hc & H). injection H as <-.
      rewrite removelast_last. right. exists front, lst, c.
      repeat split; try reflexivity; now apply combine_ends in Hc.
    + injection H as <-. now left.
Qed.

Lemma consolidate_loop_shape (todo acc out : list ip_range) :
  consolidate_loop acc todo = Ok out ->
  (List.length out <= List.length acc + List.length todo)%nat /\
  (List.length acc <= List.length out)%nat /\
  (todo <> [] -> out <> []) /\
  forall src, ends_from src acc -> (forall r, In r todo -> In r src) ->
              ends_from src out.
Proof.
  revert acc out. induction todo as [|r todo IH]; intros acc out H;
    cbn [consolidate_loop] in H.
  - injection H as <-. cbn [List.length].
    split; [lia|]. split; [lia|]. split; [intros C; now contradiction C|auto].
  - apply bind_inv in H as (acc' & Hstep & H).
    destruct (IH acc' out H) as (L1 & L2 & _ & E).
    assert (Hlen : (List.length acc <= List.length acc'
                    <= List.length acc + 1)%nat /\ acc' <> []).
    { destruct (consolidate_step_shape _ _ _ Hstep)
        as [->|(front & lst & c & -> & -> & _)];
        rewrite ?length_app; cbn [List.length]; (split; [lia|]);
        intros C; apply app_eq_nil in C as [_ C]; discriminate C. }
    destruct Hlen as [Hlen Hne].
    cbn [List.length]. split; [lia|]. split; [lia|]. split.
    + intros _ C. subst out. destruct acc'; [now apply Hne|].
      cbn [List.length] in L2. lia.
    + intros src Hacc Hsrc. apply E; [|intros x Hx; apply Hsrc; simpl; auto].
      assert (Hr : In r src) by (apply Hsrc; simpl; auto).
      destruct (consolidate_step_shape _ _ _ Hstep)
        as [->|(front & lst & c & -> & -> & Hc1 & Hc2)]; intros o Ho;
        apply in_app_iff in Ho as [Ho|[<-|[]]].
      * apply Hacc, Ho.
      * split; exists r; auto.
      * apply Hacc, in_app_iff. auto.
      * destruct (Hacc lst) as [(r1 & Hr1 & E1) (r2 & Hr2 & E2)];
          [apply in_app_iff; simpl; auto|].
        split.
        -- destruct Hc1 as [->| ->]; [exists r; auto|exists r1; auto].
        -- destruct Hc2 as [->| ->]; [exists r; auto|exists r2; auto].
Qed.

(** X11.  Whenever [consolidate_ip_ranges] returns, it returns at most as
    many ranges as it was given, at least one when it was given one, and
    every lower and upper bound it returns is, as a string, the lower or
    upper bound of a range it was given. *)
Theorem consolidate_ip_ranges_shape (R out : list ip_range) :
  consolidate_ip_ranges R = Ok out ->
  (List.length out <= List.length R)%nat /\
  (R <> [] -> out <> []) /\
  ends_from R out.
Proof.
  unfold consolidate_ip_ranges. intros H.
  apply bind_inv in H as (s & Hs & H).
  pose proof (sort_perm _ _ Hs) as P.
  destruct (consolidate_loop_shape _ _ _ H) as (L1 & _ & Hne & E).
  cbn [List.length] in L1. rewrite (Permutation_length P) in L1.
  split; [lia|]. split.
  - intros HR. apply Hne. intros C. subst s.
    apply Permutation_nil in P. contradiction.
  - apply E; [intros o []|].
    intros r Hr. now apply (Permutation_in _ P).
Qed.

Lemma consolidate_ip_ranges_shape_witness :
  (List.length [("0.0.0.1", "0.0.0.9"); ("10.0.0.20", "10.0.1.21")]
   <= List.length sample_ranges)%nat /\
  (sample_ranges <> [] ->
   [("0.0.0.1", "0.0.0.9"); ("10.0.0.20", "10.0.1.21")] <> []) /\
  ends_from sample_ranges
    [("0.0.0.1", "0.0.0.9"); ("10.0.0.20", "10.0.1.21")].
Proof. apply (consolidate_ip_ranges_shape sample_ranges). reflexivity. Defined.

(* ================================================================== *)
(** ** Ranges that are already apart *)

Lemma insert_range_front (x : ip_range) (l : list ip_range) :
  readable_range x -> Forall readable_range l -> Forall (le_low x) l ->
  insert_range x l = Ok (x :: l).
Proof.
  intros Hx Hl Hle. destruct l as [|y l]; [reflexivity|].
  inversion Hl; subst. inversion Hle; subst. cbn [insert_range].
  rewrite (compare_eq y x) by assumption. cbn [bind].
  destruct (Z.ltb_spec (low y - low x) 0); [unfold le_low in *; lia|reflexivity].
Qed.

(** The sort returns a list that is in order as it is. *)
Lemma sort_sorted (l : list ip_range) :
  Forall readable_range l -> StronglySorted le_low l ->
  sort_ip_address_ranges l = Ok l.
Proof.
  intros Hl Hs. induction Hs as [|x l Hs IH Hx]; [reflexivity|].
  inversion Hl; subst. cbn [sort_ip_address_ranges].
  rewrite IH by assumption. cbn [bind]. now apply insert_range_front.
Qed.

Lemma before_le_low (l : list ip_range) :
  (forall o, In o l -> low o <= high o) ->
  StronglySorted before l -> StronglySorted le_low l.
Proof.
  intros Hp Hs. induction Hs as [|x l Hs IH Hx]; constructor.
  - apply IH. intros o Ho. apply Hp. simpl. auto.
  - eapply Forall_impl; [|exact Hx]. intros b Hb.
    unfold le_low, before in *. specialize (Hp x (or_introl eq_refl)). lia.
Qed.

Lemma StronglySorted_app_l {A : Type} (R : A -> A -> Prop) (l1 l2 : list A) :
  StronglySorted R (l1 ++ l2)%list -> StronglySorted R l1.
Proof.
  induction l1 as [|x l1 IH]; cbn [app]; intros H; [constructor|].
  apply StronglySorted_inv in H as [H1 H2]. apply Forall_app in H2 as [H2 _].
  constructor; auto.
Qed.

(** The sweep leaves ranges that lie apart as they are. *)
Lemma consolidate_loop_apart (todo acc : list ip_range) :
  Forall readable_range (acc ++ todo)%list ->
  StronglySorted before (acc ++ todo)%list ->
  consolidate_loop acc todo = Ok (acc ++ todo)%list.
Proof.
  revert acc. induction todo as [|r todo IH]; intros acc Hr Hs.
  - now rewrite app_nil_r.
  - cbn [consolidate_loop].
    replace (acc ++ r :: todo)%list with ((acc ++ [r]) ++ todo)%list in *
      by (now rewrite <- app_assoc).
    assert (Hstep : consolidate_step acc r = Ok (acc ++ [r])%list).
    { unfold consolidate_step.
      destruct acc as [|lst front _] using rev_ind; [reflexivity|].
      rewrite last_or_none_snoc.
      apply Forall_app in Hr as [Hr _]. apply Forall_app in Hr as [Hr Hrr].
      apply Forall_app in Hr as [_ Hrl].
      inversion Hrr; subst. inversion Hrl; subst.
      rewrite overlap_eq by assumption. cbn [bind].
      assert (Hb : before lst r).
      { apply StronglySorted_app_l in Hs.
        apply StronglySorted_snoc in Hs as [_ Hs].
        apply Hs, in_app_iff. simpl. auto. }
      unfold before in Hb.
      destruct (high r >=? low lst); cbn [andb]; [|reflexivity].
      destruct (Z.geb_spec (high lst) (low r)); [lia|reflexivity]. }
    rewrite Hstep. cbn [bind]. now apply IH.
Qed.

Lemma consolidate_apart (l : list ip_range) :
  Forall readable_range l -> (forall o, In o l -> low o <= high o) ->
  StronglySorted before l -> consolidate_ip_ranges l = Ok l.
Proof.
  intros Hr Hp Hs. unfold consolidate_ip_ranges.
  rewrite sort_sorted; [|assumption|now apply before_le_low].
  cbn [bind]. now apply (consolidate_loop_apart l []).
Qed.

(** X12.  Merging is idempotent: merging the output of
    [consolidate_ip_ranges] on well-formed ranges returns that output
    unchanged. *)
Theorem consolidate_ip_ranges_idempotent (R out : list ip_range) :
  forallb range_ok R = true ->
  consolidate_ip_ranges R = Ok out ->
  consolidate_ip_ranges out = Ok out.
Proof.
  intros H Ho.
  destruct (consolidate_ip_ranges_spec _ R trivially_closed
              (range_ok_sweepable R H)) as (out' & Ho' & I).
  assert (out' = out) by congruence. subst out'.
  apply consolidate_apart.
  - apply Forall_forall. apply (sweep_inv_readable _ _ _ I).
    apply Forall_forall. intros r Hr. rewrite forallb_forall in H.
    now destruct (range_ok_inv r (H r Hr)).
  - apply (inv_proper _ _ _ I).
  - apply (inv_apart _ _ _ I).
Qed.

Lemma consolidate_ip_ranges_idempotent_witness :
  consolidate_ip_ranges
    [("0.0.0.1", "0.0.0.9"); ("10.0.0.20", "10.0.1.21")]
  = Ok [("0.0.0.1", "0.0.0.9"); ("10.0.0.20", "10.0.1.21")].
Proof.
  apply (consolidate_ip_ranges_idempotent sample_ranges); reflexivity.
Defined.

Lemma ForallOrdPairs_perm {A : Type} (R : A -> A -> Prop) (l l' : list A) :
  (forall a b, R a b -> R b a) ->
  Permutation l l' -> ForallOrdPairs R l -> ForallOrdPairs R l'.
Proof.
  intros Hsym P. induction P as [|x l l' P IH|x y l|l l' l'' P1 IH1 P2 IH2];
    intros H.
  - constructor.
  - inversion H; subst. constructor; [|auto].
    eapply Permutation_Forall; eassumption.
  - inversion H as [|? ? Hy H']; subst. inversion H' as [|? ? Hx H'']; subst.
    inversion Hy; subst.
    constructor; [constructor; auto|]. constructor; assumption.
  - auto.
Qed.

Lemma sorted_disjoint_apart (l : list ip_range) :
  (forall o, In o l -> low o <= high o) ->
  StronglySorted le_low l ->
  ForallOrdPairs (fun a b => forall v, ~ (covers a v /\ covers b v)) l ->
  StronglySorted before l.
Proof.
  intros Hp Hs Hd. induction Hs as [|x l Hs IH Hx]; [constructor|].
  inversion Hd as [|? ? Hdx Hd']; subst.
  constructor; [apply IH; auto; intros o Ho; apply Hp; simpl; auto|].
  apply Forall_forall. intros b Hb.
  rewrite Forall_forall in Hx, Hdx.
  specialize (Hx b Hb). specialize (Hdx b Hb (low b)).
  pose proof (Hp x (or_introl eq_refl)). pose proof (Hp b (or_intror Hb)).
  unfold before, le_low, covers in *.
  destruct (Z_lt_dec (high x) (low b)); [assumption|].
  exfalso. apply Hdx. lia.
Qed.

(** X13.  Well-formed ranges of which no two share an address are returned
    as they are, in ascending order of their lower bounds. *)
Theorem consolidate_ip_ranges_disjoint_input (R : list ip_range) :
  forallb range_ok R = true ->
  ForallOrdPairs (fun a b => forall v, ~ (covers a v /\ covers b v)) R ->
  exists out,
    consolidate_ip_ranges R = Ok out /\
    Permutation out R /\ StronglySorted le_low out.
Proof.
  intros H Hd.
  assert (Hr : Forall readable_range R).
  { apply Forall_forall. intros r Hr. rewrite forallb_forall in H.
    now destruct (range_ok_inv r (H r Hr)). }
  assert (Hp : forall r, In r R -> low r <= high r).
  { intros r Hr'. rewrite forallb_forall in H.
    now destruct (range_ok_inv r (H r Hr')). }
  destruct (sort_spec R Hr) as (s & Hs & P & Hsorted).
  exists s. split; [|auto].
  unfold consolidate_ip_ranges. rewrite Hs. cbn [bind].
  apply (consolidate_loop_apart s []).
  - eapply Permutation_Forall; [symmetry; exact P|assumption].
  - apply sorted_disjoint_apart; [|assumption|].
    + intros o Ho. apply Hp. now apply (Permutation_in _ P).
    + apply (ForallOrdPairs_perm _ R s); [|now symmetry|assumption].
      intros a b Hab v [Hb Ha]. apply (Hab v). auto.
Qed.

Lemma apart_b_sound (a b : ip_range) :
  apart_b a b = true -> forall v, ~ (covers a v /\ covers b v).
Proof.
  unfold apart_b, covers. intros H v [Ha Hb].
  apply orb_true_iff in H as [H|H]; apply Z.ltb_lt in H; lia.
Qed.

Lemma consolidate_ip_ranges_disjoint_input_witness :
  exists out,
    consolidate_ip_ranges
      [("10.0.0.0", "10.0.0.9"); ("0.0.0.3", "0.0.0.4"); ("0.0.0.1", "0.0.0.2")]
    = Ok out /\
    Permutation out
      [("10.0.0.0", "10.0.0.9"); ("0.0.0.3", "0.0.0.4"); ("0.0.0.1", "0.0.0.2")]
    /\ StronglySorted le_low out.
Proof.
  apply consolidate_ip_ranges_disjoint_input; [reflexivity|].
  repeat first [ apply FOP_nil | apply FOP_cons
               | apply Forall_nil | apply Forall_cons
               | apply apart_b_sound; reflexivity ].
Defined.

(* ================================================================== *)
(** ** The output does not depend on the order of the input *)

(** The two cases of a step of the sweep on sorted input, with the values
    of the range it makes. *)
Lemma consolidate_step_cases (Q : Z -> Z -> Prop)
    (done acc : list ip_range) (r : ip_range) :
  Forall readable_range done -> readable_range r -> low r <= high r ->
  (forall d, In d done -> low d <= low r) ->
  sweep_inv Q done acc ->
  (consolidate_step acc r = Ok (acc ++ [r])%list)
  \/ (exists front lst c,
        acc = (front ++ [lst])%list /\
        consolidate_step acc r = Ok (front ++ [c])%list /\
        low lst <= low r <= high lst /\
        low c = low lst /\ high c = Z.max (high lst) (high r)).
Proof.
  intros Hd Hr Hp Habove I. unfold consolidate_step.
  destruct acc as [|lst front _] using rev_ind; [now left|].
  rewrite last_or_none_snoc.
  assert (Hlst : In lst (front ++ [lst])%list)
    by (apply in_app_iff; simpl; auto).
  pose proof (sweep_inv_readable _ _ _ I Hd lst Hlst) as Rl.
  assert (Hle : low lst <= low r).
  { destruct (inv_low _ _ _ I lst Hlst) as (d & Hd' & E).
    unfold low at 1. rewrite E. now apply Habove. }
  rewrite overlap_eq by assumption. cbn [bind].
  replace (high r >=? low lst) with true by (symmetry; apply Z.geb_le; lia).
  cbn [andb].
  destruct (Z.geb_spec (high lst) (low r)) as [Hov|Hno]; [|now left].
  right. rewrite combine_eq by assumption. cbn [bind].
  rewrite removelast_last. eexists front, lst, _.
  split; [reflexivity|]. split; [reflexivity|]. split; [lia|].
  destruct (Z.ltb_spec (low r) (low lst)); [lia|].
  destruct (Z.gtb_spec (high r) (high lst)); (split; [reflexivity|]);
    unfold high in *; cbn [snd] in *; lia.
Qed.

Lemma linked_more (s1 s2 : list ip_range) (o : ip_range) :
  (forall x, In x s1 -> In x s2) -> linked s1 o -> linked s2 o.
Proof.
  intros H L v Hv. destruct (L v Hv) as (r & Hr & C). exists r. auto.
Qed.

(** The sweep keeps every consolidated range linked. *)
Lemma consolidate_loop_linked (Q : Z -> Z -> Prop) :
  merge_closed Q ->
  forall todo done acc out,
    Forall readable_range done ->
    Forall (sweepable Q) todo ->
    StronglySorted le_low todo ->
    (forall d t, In d done -> In t todo -> low d <= low t) ->
    sweep_inv Q done acc ->
    (forall o, In o acc -> linked done o) ->
    consolidate_loop acc todo = Ok out ->
    forall o, In o out -> linked (rev todo ++ done)%list o.
Proof.
  intros HQ. induction todo as [|r todo IH];
    intros done acc out Hd Ht Hs Hc I L H.
  - cbn in H. injection H as <-. exact L.
  - inversion Ht as [|? ? (Hr & Hp & Hq) Ht']; subst.
    apply StronglySorted_inv in Hs as [Hs Hr_le]. rewrite Forall_forall in Hr_le.
    assert (Habove : forall d, In d done -> low d <= low r)
      by (intros; apply Hc; simpl; auto).
    destruct (consolidate_step_spec Q HQ done r Hd Hr Hp Hq Habove acc I)
      as (acc' & Hacc & I').
    cbn [consolidate_loop] in H. rewrite Hacc in H. cbn [bind] in H.
    assert (L' : forall o, In o acc' -> linked (r :: done) o).
    { destruct (consolidate_step_cases Q done acc r Hd Hr Hp Habove I)
        as [E|(front & lst & c & Ea & E & Hlr & Hlc & Hhc)];
        rewrite E in Hacc; injection Hacc as <-; intros o Ho;
        apply in_app_iff in Ho as [Ho|[<-|[]]].
      - apply (linked_more done); [simpl; auto|]. auto.
      - intros v Hv. exists r. unfold covers. simpl. split; [auto|lia].
      - apply (linked_more done); [simpl; auto|].
        apply L. subst acc. apply in_app_iff. auto.
      - intros v Hv. rewrite Hlc, Hhc in Hv.
        destruct (Z_lt_dec v (high lst)) as [Hlt|Hge].
        + destruct (L lst) with (v := v) as (d & Hd' & C);
            [subst acc; apply in_app_iff; simpl; auto|lia|].
          exists d. simpl. auto.
        + exists r. unfold covers. simpl. split; [auto|lia]. }
    intros o Ho. cbn [rev]. rewrite <- app_assoc. cbn [app].
    apply (IH (r :: done) acc' out); auto.
    intros d t [<-|Hin] Hin'; [now apply Hr_le|apply Hc; simpl; auto].
Qed.

Lemma consolidate_linked (R out : list ip_range) :
  forallb range_ok R = true -> consolidate_ip_ranges R = Ok out ->
  sweep_inv (fun _ _ => True) R out /\ forall o, In o out -> linked R o.
Proof.
  intros H Ho.
  pose proof (range_ok_sweepable R H) as Hsw.
  destruct (consolidate_ip_ranges_spec _ R trivially_closed Hsw)
    as (out' & Ho' & I).
  assert (out' = out) by congruence. subst out'. split; [assumption|].
  unfold consolidate_ip_ranges in Ho.
  apply bind_inv in Ho as (s & Hs & Hloop).
  destruct (sort_spec R) as (s' & Hs' & P & Hsorted).
  { eapply Forall_impl; [|exact Hsw]. now intros r (Hr & _). }
  assert (s' = s) by congruence. subst s'.
  intros o Hin.
  apply (linked_more (rev s ++ [])%list).
  { intros x. rewrite app_nil_r, <- in_rev. now apply Permutation_in. }
  apply (consolidate_loop_linked _ trivially_closed s [] [] out); auto.
  - eapply Permutation_Forall; [symmetry; exact P|assumption].
  - intros d t [].
  - apply sweep_inv_nil.
  - intros ? [].
Qed.

Lemma apart_same (l : list ip_range) (a b : ip_range) (v : Z) :
  StronglySorted before l -> In a l -> In b l ->
  covers a v -> covers b v -> a = b.
Proof.
  intros Hs. induction Hs as [|x l Hs IH Hx]; intros Ha Hb Ca Cb;
    [contradiction|].
  rewrite Forall_forall in Hx. unfold covers, before in *.
  destruct Ha as [<-|Ha], Hb as [<-|Hb]; auto.
  - specialize (Hx b Hb). lia.
  - specialize (Hx a Ha). lia.
Qed.

(** A linked range of one merge lies within one range of another merge of
    the same input. *)
Lemma linked_within (R out1 out2 : list ip_range) (o1 : ip_range) :
  (forall r, In r R -> low r <= high r) ->
  (exists r, In r R /\ low o1 = low r) ->
  linked R o1 ->
  (forall r, In r R -> exists o, In o out2 /\ within r o) ->
  StronglySorted before out2 ->
  exists o2, In o2 out2 /\ within o1 o2.
Proof.
  intros HpR (r & Hr & El) L W2 A2.
  destruct (W2 r Hr) as (o2 & Ho2 & [W1 W3]).
  specialize (HpR r Hr).
  exists o2. split; [assumption|]. split; [lia|].
  assert (Hwalk : forall n : nat,
            low o1 + Z.of_nat n <= high o1 -> low o1 + Z.of_nat n <= high o2).
  { induction n as [|n IHn]; intros Hn.
    - lia.
    - rewrite Nat2Z.inj_succ in *.
      specialize (IHn ltac:(lia)).
      destruct (L (low o1 + Z.of_nat n)) as (r' & Hr' & C1 & C2); [lia|].
      destruct (W2 r' Hr') as (o2' & Ho2' & [V1 V2]).
      assert (o2' = o2).
      { apply (apart_same out2 _ _ (low o1 + Z.of_nat n) A2 Ho2' Ho2);
          unfold covers in *; lia. }
      subst o2'. unfold covers in *. lia. }
  destruct (Z_le_dec (low o1) (high o1)) as [Hle|Hgt]; [|lia].
  specialize (Hwalk (Z.to_nat (high o1 - low o1))).
  rewrite Z2Nat.id in Hwalk by lia. lia.
Qed.

(** Two merges of the same input have ranges of the same values. *)
Lemma merged_same_vals (Q : Z -> Z -> Prop) (R out1 out2 : list ip_range) :
  (forall r, In r R -> low r <= high r) ->
  sweep_inv Q R out1 -> sweep_inv Q R out2 ->
  (forall o, In o out1 -> linked R o) ->
  (forall o, In o out2 -> linked R o) ->
  forall o1, In o1 out1 -> exists o2, In o2 out2 /\ vals o1 = vals o2.
Proof.
  intros HpR I1 I2 L1 L2 o1 Ho1.
  assert (F : forall Q' out o, sweep_inv Q' R out -> In o out ->
                exists r, In r R /\ low o = low r).
  { intros Q' out o I Ho. destruct (inv_low _ _ _ I o Ho) as (r & Hr & E).
    exists r. split; [assumption|]. unfold low. now rewrite E. }
  destruct (linked_within R out1 out2 o1 HpR (F _ _ _ I1 Ho1) (L1 o1 Ho1)
              (inv_within _ _ _ I2) (inv_apart _ _ _ I2))
    as (o2 & Ho2 & [W1 W2]).
  destruct (linked_within R out2 out1 o2 HpR (F _ _ _ I2 Ho2) (L2 o2 Ho2)
              (inv_within _ _ _ I1) (inv_apart _ _ _ I1))
    as (o1' & Ho1' & [W3 W4]).
  pose proof (inv_proper _ _ _ I1 o1 Ho1) as P1.
  assert (o1' = o1).
  { apply (apart_same out1 _ _ (low o1) (inv_apart _ _ _ I1) Ho1' Ho1);
      unfold covers; lia. }
  subst o1'. exists o2. split; [assumption|].
  unfold vals. f_equal; lia.
Qed.

Lemma sorted_vals_eq (l1 l2 : list ip_range) :
  StronglySorted before l1 -> StronglySorted before l2 ->
  (forall o, In o l1 -> low o <= high o) ->
  (forall o, In o l2 -> low o <= high o) ->
  (forall o1, In o1 l1 -> exists o2, In o2 l2 /\ vals o1 = vals o2) ->
  (forall o2, In o2 l2 -> exists o1, In o1 l1 /\ vals o2 = vals o1) ->
  map vals l1 = map vals l2.
Proof.
  intros S1. revert l2. induction S1 as [|x t1 S1 IH Hx];
    intros l2 S2 P1 P2 M12 M21.
  - destruct l2 as [|y t2]; [reflexivity|].
    destruct (M21 y (or_introl eq_refl)) as (o & [] & _).
  - destruct S2 as [|y t2 S2 Hy].
    { destruct (M12 x (or_introl eq_refl)) as (o & [] & _). }
    rewrite Forall_forall in Hx, Hy.
    pose proof (P1 x (or_introl eq_refl)) as Px.
    pose proof (P2 y (or_introl eq_refl)) as Py.
    assert (Exy : vals x = vals y).
    { destruct (M12 x (or_introl eq_refl)) as (o2 & [<-|Ho2] & E2);
        [assumption|].
      exfalso. specialize (Hy o2 Ho2).
      destruct (M21 y (or_introl eq_refl)) as (o1 & [<-|Ho1] & E1);
        unfold vals, before in *.
      - injection E1 as A B. injection E2 as C D. lia.
      - specialize (Hx o1 Ho1). unfold before in Hx.
        injection E1 as A B. injection E2 as C D. lia. }
    cbn [map]. f_equal; [assumption|].
    apply IH; auto.
    + intros o Ho. apply P1. simpl. auto.
    + intros o Ho. apply P2. simpl. auto.
    + intros o1 Ho1. destruct (M12 o1 (or_intror Ho1)) as (o2 & [<-|Ho2] & E);
        [|eauto].
      exfalso. specialize (Hx o1 Ho1). unfold vals, before in *.
      injection Exy as A B. injection E as C D. lia.
    + intros o2 Ho2. destruct (M21 o2 (or_intror Ho2)) as (o1 & [<-|Ho1] & E);
        [|eauto].
      exfalso. specialize (Hy o2 Ho2). unfold vals, before in *.
      injection Exy as A B. injection E as C D. lia.
Qed.

Lemma range_ok_same_set (R R' : list ip_range) :
  forallb range_ok R = true -> (forall x, In x R' <-> In x R) ->
  forallb range_ok R' = true.
Proof.
  rewrite !forallb_forall. intros H E x Hx. apply H, E, Hx.
Qed.

Lemma consolidate_same_vals (R R' out out' : list ip_range) :
  forallb range_ok R = true -> (forall x, In x R' <-> In x R) ->
  consolidate_ip_ranges R = Ok out -> consolidate_ip_ranges R' = Ok out' ->
  map vals out' = map vals out.
Proof.
  intros H E Ho Ho'.
  pose proof (range_ok_same_set R R' H E) as H'.
  destruct (consolidate_linked R out H Ho) as [I L].
  destruct (consolidate_linked R' out' H' Ho') as [I' L'].
  apply (sweep_inv_same _ R' R) in I'; [|exact E].
  assert (L'' : forall o, In o out' -> linked R o).
  { intros o Hin. apply (linked_more R'); [intros x; apply E|auto]. }
  assert (HpR : forall r, In r R -> low r <= high r).
  { intros r Hr. rewrite forallb_forall in H.
    now destruct (range_ok_inv r (H r Hr)). }
  apply sorted_vals_eq.
  - apply (inv_apart _ _ _ I').
  - apply (inv_apart _ _ _ I).
  - apply (inv_proper _ _ _ I').
  - apply (inv_proper _ _ _ I).
  - apply (merged_same_vals (fun _ _ => True) R out' out); assumption.
  - apply (merged_same_vals (fun _ _ => True) R out out'); assumption.
Qed.

(** X14.  The merge does not depend on the order of its input, nor on
    repetitions in it: two lists with the same well-formed ranges give
    outputs whose ranges have the same values, in the same order. *)
Theorem consolidate_ip_ranges_order_free (R R' : list ip_range) :
  forallb range_ok R = true -> (forall x, In x R' <-> In x R) ->
  exists out out',
    consolidate_ip_ranges R = Ok out /\ consolidate_ip_ranges R' = Ok out' /\
    map vals out' = map vals out.
Proof.
  intros H E.
  pose proof (range_ok_same_set R R' H E) as H'.
  destruct (consolidate_ip_ranges_spec _ R trivially_closed
              (range_ok_sweepable R H)) as (out & Ho & _).
  destruct (consolidate_ip_ranges_spec _ R' trivially_closed
              (range_ok_sweepable R' H')) as (out' & Ho' & _).
  exists out, out'. split; [assumption|]. split; [assumption|].
  now apply (consolidate_same_vals R R').
Qed.

Lemma consolidate_ip_ranges_order_free_witness :
  exists out out',
    consolidate_ip_ranges sample_ranges = Ok out /\
    consolidate_ip_ranges (rev sample_ranges ++ sample_ranges)%list = Ok out' /\
    map vals out' = map vals out.
Proof.
  apply consolidate_ip_ranges_order_free; [reflexivity|].
  intros x. rewrite in_app_iff, <- in_rev. tauto.
Defined.

Lemma canonical_same_value (a b : string) :
  canonical_quad a = true -> canonical_quad b = true ->
  value_of a = value_of b -> a = b.
Proof.
  intros Ha Hb E.
  rewrite <- (value_to_ip_get_value a (value_of a) Ha
                (wf_quad_readable _ (canonical_quad_wf _ Ha))).
  rewrite E.
  apply (value_to_ip_get_value b (value_of b) Hb
           (wf_quad_readable _ (canonical_quad_wf _ Hb))).
Qed.

Lemma canonical_range_ok (r : ip_range) :
  canonical_range r = true -> range_ok r = true.
Proof.
  unfold canonical_range, range_ok. intros H. split_andb.
  now rewrite !canonical_quad_wf by assumption.
Qed.

Lemma canonical_vals_eq (l1 l2 : list ip_range) :
  (forall o, In o l1 ->
     canonical_quad (fst o) = true /\ canonical_quad (snd o) = true) ->
  (forall o, In o l2 ->
     canonical_quad (fst o) = true /\ canonical_quad (snd o) = true) ->
  map vals l1 = map vals l2 -> l1 = l2.
Proof.
  revert l2. induction l1 as [|[a b] l1 IH]; intros [|[a' b'] l2] C1 C2 E;
    try discriminate; [reflexivity|].
  cbn [map] in E. injection E as Ea Eb E.
  destruct (C1 (a, b) (or_introl eq_refl)) as [Ca Cb].
  destruct (C2 (a', b') (or_introl eq_refl)) as [Ca' Cb'].
  unfold low, high in *. cbn [fst snd] in *.
  f_equal.
  - f_equal; now apply canonical_same_value.
  - apply IH; auto; intros o Ho; [apply C1|apply C2]; simpl; auto.
Qed.

Lemma consolidate_canonical_same (R R' : list ip_range) :
  forallb canonical_range R = true -> (forall x, In x R' <-> In x R) ->
  consolidate_ip_ranges R' = consolidate_ip_ranges R.
Proof.
  intros Hc E.
  assert (Hcan : forall r, In r R -> canonical_range r = true)
    by now apply forallb_forall.
  assert (H : forallb range_ok R = true).
  { apply forallb_forall. intros r Hr. now apply canonical_range_ok, Hcan. }
  pose proof (range_ok_same_set R R' H E) as H'.
  destruct (consolidate_ip_ranges_spec _ R trivially_closed
              (range_ok_sweepable R H)) as (out & Ho & I).
  destruct (consolidate_ip_ranges_spec _ R' trivially_closed
              (range_ok_sweepable R' H')) as (out' & Ho' & I').
  rewrite Ho, Ho'. f_equal.
  assert (C : forall S o out0, sweep_inv (fun _ _ => True) S out0 ->
                (forall x, In x S -> In x R) -> In o out0 ->
                canonical_quad (fst o) = true /\ canonical_quad (snd o) = true).
  { intros S o out0 I0 HS Hin.
    destruct (inv_low _ _ _ I0 o Hin) as (r1 & Hr1 & E1).
    destruct (inv_high _ _ _ I0 o Hin) as (r2 & Hr2 & E2).
    pose proof (Hcan r1 (HS r1 Hr1)) as K1.
    pose proof (Hcan r2 (HS r2 Hr2)) as K2.
    unfold canonical_range in K1, K2. split_andb.
    rewrite E1, E2. auto. }
  apply canonical_vals_eq.
  - intros o. apply (C R' o out' I'). intros x. apply E.
  - intros o. apply (C R o out I). auto.
  - now apply (consolidate_same_vals R R').
Qed.

(** X15.  On ranges of dotted quads in canonical decimal the merge
    returns the same list whatever the order of its input and whatever
    the repetitions in it. *)
Theorem consolidate_ip_ranges_order_free_canonical (R R' : list ip_range) :
  forallb canonical_range R = true -> (forall x, In x R' <-> In x R) ->
  consolidate_ip_ranges R' = consolidate_ip_ranges R.
Proof. intros H E. now apply consolidate_canonical_same. Qed.

Lemma consolidate_ip_ranges_order_free_canonical_witness :
  consolidate_ip_ranges (rev sample_ranges ++ sample_ranges)%list
  = consolidate_ip_ranges sample_ranges.
Proof.
  apply consolidate_ip_ranges_order_free_canonical; [reflexivity|].
  intros x. rewrite in_app_iff, <- in_rev. tauto.
Defined.

(* ================================================================== *)
(** ** The spelling of the consolidated blocks *)

Lemma pow2_eq_1 (k : Z) : 0 <= k -> 2 ^ k = 1 -> k = 0.
Proof.
  intros Hk E. destruct (Z.eq_dec k 0) as [|N]; [assumption|].
  pose proof (Z.pow_gt_1 2 k ltac:(lia)) as [G _]. specialize (G ltac:(lia)). lia.
Qed.

(** The covering block of the two ends of a block, as a string. *)
Lemma block_cidr_string (v m : Z) :
  0 <= v < 2 ^ 32 -> 0 <= m <= 32 ->
  get_ip_cidr_from_ips
    [value_to_ip (block_low v m); value_to_ip (block_high v m)]
  = Ok (block_string v m).
Proof.
  intros Hv Hm. unfold block_string.
  destruct (block_bounds v m Hv Hm) as [B1 B2].
  set (lo := block_low v m) in *. set (hi := block_high v m) in *.
  assert (Hhi : hi = lo + 2 ^ (32 - m) - 1) by reflexivity.
  assert (Rlo : 0 <= lo < 2 ^ 32) by lia.
  assert (Rhi : 0 <= hi < 2 ^ 32) by lia.
  assert (W : forallb wf_quad [value_to_ip lo; value_to_ip hi] = true).
  { cbn [forallb].
    now rewrite !canonical_quad_wf by apply value_to_ip_canonical. }
  pose proof (values_in_range _ W) as Hb.
  destruct (get_ip_cidr_from_ips_char _ _ W)
    as [(Heq & ->)|(k & Hk & Hd & Hmax & ->)];
    cbn [map] in *; rewrite !value_of_value_to_ip in * by assumption.
  - assert (E : lo = hi) by (apply Heq; simpl; auto).
    assert (m = 32).
    { assert (32 - m = 0) by (apply pow2_eq_1; lia). lia. }
    subst m. reflexivity.
  - destruct (prefix_shared _ k lo Hb ltac:(simpl; auto) Hk Hmax lo)
      as [L1 L2]; [simpl; auto|].
    destruct (prefix_shared _ k lo Hb ltac:(simpl; auto) Hk Hmax hi)
      as [L3 L4]; [simpl; auto|].
    assert (Hmk : m <= 31 - k).
    { destruct (Z_le_dec m (31 - k)) as [|N]; [assumption|]. exfalso.
      destruct (longer_mask_misses _ k v m Hb Hk Hd ltac:(lia))
        as (x & Hx & Hout).
      fold lo hi in Hout. destruct Hx as [<-|[<-|[]]]; lia. }
    assert (Hpow : 2 ^ (32 - (31 - k)) <= 2 ^ (32 - m))
      by (apply Z.pow_le_mono_r; lia).
    unfold block_high in L2, L4.
    assert (Epow : 2 ^ (32 - (31 - k)) = 2 ^ (32 - m)) by lia.
    apply Z.pow_inj_r in Epow; [|lia..].
    assert (31 - k = m) by lia. subst m.
    assert (El : block_low lo (31 - k) = lo) by lia.
    now rewrite El.
Qed.

Lemma block_string_range (v m : Z) :
  0 <= v < 2 ^ 32 -> 0 <= m <= 32 ->
  wf_cidr (block_string v m) = true /\
  ip_cidr_to_ip_range (block_string v m)
  = Ok (printed_range (block_low v m, block_high v m)).
Proof.
  intros Hv Hm. destruct (block_bounds v m Hv Hm) as [B1 B2].
  destruct (cidr_string_range (value_to_ip (block_low v m)) m)
    as (H1 & _ & H3);
    [apply canonical_quad_wf, value_to_ip_canonical|assumption|].
  fold (block_string v m) in H1, H3. split; [assumption|].
  unfold ip_cidr_to_ip_range. rewrite H3. cbn [bind].
  rewrite value_of_value_to_ip by lia.
  unfold block_high at 1. now rewrite block_low_idem by lia.
Qed.

Lemma mapM_Forall2 {A B : Type} (f : A -> result B) (l : list A) (out : list B) :
  Forall2 (fun x y => f x = Ok y) l out -> mapM f l = Ok out.
Proof.
  induction 1 as [|x y l out Hxy _ IH]; cbn [mapM]; [reflexivity|].
  now rewrite Hxy, IH.
Qed.

Lemma mapM_length {A B : Type} (f : A -> result B) (l : list A) (out : list B) :
  mapM f l = Ok out -> List.length out = List.length l.
Proof.
  revert out. induction l as [|x l IH]; intros out H; cbn [mapM] in H.
  - now injection H as <-.
  - apply bind_inv in H as (y & _ & H). apply bind_inv in H as (ys & Hys & H).
    injection H as <-. cbn [List.length]. f_equal. auto.
Qed.

Lemma mapM_error {A B : Type} (f : A -> result B) (l : list A) (x : A) (e : pyerr) :
  In x l -> f x = Err e -> exists e', mapM f l = Err e'.
Proof.
  induction l as [|y l IH]; intros Hin Hx; [contradiction|]. cbn [mapM].
  destruct Hin as [->|Hin].
  - rewrite Hx. cbn [bind]. eauto.
  - destruct (f y); cbn [bind]; [|eauto].
    destruct (IH Hin Hx) as (e' & ->). cbn [bind]. eauto.
Qed.

(** The last stage spells every consolidated block in the one way. *)
Lemma ranges_to_block_strings (ranges : list ip_range) :
  Forall (fun o => is_block (low o) (high o) /\ printed o) ranges ->
  exists out,
    mapM (fun r : ip_range => get_ip_cidr_from_ips [fst r; snd r]) ranges
    = Ok out /\
    Forall2 (fun c r => ip_cidr_to_ip_range c = Ok r) out ranges /\
    Forall (fun c => exists v m, 0 <= v < 2 ^ 32 /\ 0 <= m <= 32
                                 /\ c = block_string v m) out.
Proof.
  induction 1 as [|o ranges (Hblock & Hpr) _ (out & E & F & N)].
  - exists []. repeat split; constructor.
  - destruct Hblock as (v & m & Hv & Hm & Hlo & Hhi).
    exists (block_string v m :: out). cbn [mapM].
    unfold printed, printed_range in Hpr. rewrite Hpr at 1 2.
    cbn [fst snd]. rewrite Hlo, Hhi, block_cidr_string, E by assumption.
    cbn [bind]. split; [reflexivity|]. split.
    + constructor; [|assumption].
      destruct (block_string_range v m Hv Hm) as [_ ->].
      rewrite <- Hlo, <- Hhi. f_equal. symmetry. exact Hpr.
    + constructor; [|assumption]. exists v, m. auto.
Qed.

(** The stages of [consolidate_ip_cidrs] on well-formed input. *)
Lemma consolidate_ip_cidrs_stages (cidrs out : list string) :
  forallb wf_cidr cidrs = true -> consolidate_ip_cidrs cidrs = Ok out ->
  exists merged,
    Forall readable_range merged /\
    (forall o, In o merged -> low o <= high o) /\
    StronglySorted before merged /\
    mapM (fun r : ip_range => get_ip_cidr_from_ips [fst r; snd r]) merged
    = Ok out /\
    Forall2 (fun c r => ip_cidr_to_ip_range c = Ok r) out merged /\
    Forall (fun c => exists v m, 0 <= v < 2 ^ 32 /\ 0 <= m <= 32
                                 /\ c = block_string v m) out.
Proof.
  intros H Ho.
  destruct (cidrs_to_ranges cidrs H) as (ranges & E1 & F1).
  assert (Hsw : Forall (sweepable is_block) ranges).
  { apply Forall_forall. intros r Hr.
    destruct (Forall2_In_r _ _ _ F1 r Hr) as (c & _ & Hs & _). exact Hs. }
  assert (Hpr : forall r, In r ranges -> printed r).
  { intros r Hr.
    destruct (Forall2_In_r _ _ _ F1 r Hr) as (c & _ & _ & Hp & _). exact Hp. }
  destruct (consolidate_ip_ranges_spec is_block ranges is_block_closed Hsw)
    as (merged & E2 & I).
  destruct (ranges_to_block_strings merged) as (out' & E3 & F3 & N3).
  { apply Forall_forall. intros o Hin. split.
    - apply (inv_shape _ _ _ I o Hin).
    - apply (sweep_printed _ _ _ I Hpr o Hin). }
  unfold consolidate_ip_cidrs in Ho. rewrite E1 in Ho. cbn [bind] in Ho.
  rewrite E2 in Ho. cbn [bind] in Ho.
  assert (out' = out) by congruence. subst out'.
  exists merged. split; [|split; [|split; [|auto]]].
  - apply Forall_forall. apply (sweep_inv_readable _ _ _ I).
    eapply Forall_impl; [|exact Hsw]. now intros r (Hr & _).
  - apply (inv_proper _ _ _ I).
  - apply (inv_apart _ _ _ I).
Qed.

(** X16.  A single well-formed CIDR string is returned in normal spelling:
    the first address of its block in canonical decimal and the mask
    length in canonical decimal.  A string that is spelled that way, such
    as [255.255.255.255/32], comes back unchanged. *)
Theorem consolidate_ip_cidrs_single (c prefix mask : string) (m : Z) :
  wf_cidr c = true -> split "/" c = [prefix; mask] -> py_int mask = Ok m ->
  consolidate_ip_cidrs [c] = Ok [block_string (value_of prefix) m].
Proof.
  intros Hc Hs Hm.
  destruct (wf_cidr_parts_range c prefix mask m Hc Hs Hm) as (Hb & Hv & Hr).
  unfold consolidate_ip_cidrs. cbn [mapM].
  unfold ip_cidr_to_ip_range at 1. rewrite Hr. cbn [bind].
  change (consolidate_ip_ranges [?r]) with (Ok [r]). cbn [bind mapM fst snd].
  now rewrite block_cidr_string.
Qed.

Lemma consolidate_ip_cidrs_single_witness :
  consolidate_ip_cidrs ["210.105.44.170/21"]
  = Ok [block_string (value_of "210.105.44.170") 21].
Proof.
  apply (consolidate_ip_cidrs_single
           "210.105.44.170/21" "210.105.44.170" "21" 21); reflexivity.
Defined.

(** X17.  Every string [consolidate_ip_cidrs] returns for well-formed
    input is in normal spelling, and consolidating its output again
    returns that output unchanged. *)
Theorem consolidate_ip_cidrs_idempotent (cidrs out : list string) :
  forallb wf_cidr cidrs = true -> consolidate_ip_cidrs cidrs = Ok out ->
  Forall (fun c => exists v m, 0 <= v < 2 ^ 32 /\ 0 <= m <= 32
                               /\ c = block_string v m) out /\
  consolidate_ip_cidrs out = Ok out.
Proof.
  intros H Ho.
  destruct (consolidate_ip_cidrs_stages cidrs out H Ho)
    as (merged & Hr & Hp & Hs & E & F & N).
  split; [assumption|].
  unfold consolidate_ip_cidrs.
  rewrite (mapM_Forall2 _ _ _ F). cbn [bind].
  rewrite (consolidate_apart merged Hr Hp Hs). cbn [bind]. exact E.
Qed.

Lemma consolidate_ip_cidrs_idempotent_witness :
  Forall (fun c => exists v m, 0 <= v < 2 ^ 32 /\ 0 <= m <= 32
                               /\ c = block_string v m)
         ["1.0.0.0/8"; "192.168.0.0/24"; "192.168.1.0/24";
          "255.255.255.255/32"] /\
  consolidate_ip_cidrs ["1.0.0.0/8"; "192.168.0.0/24"; "192.168.1.0/24";
                        "255.255.255.255/32"]
  = Ok ["1.0.0.0/8"; "192.168.0.0/24"; "192.168.1.0/24";
        "255.255.255.255/32"].
Proof.
  apply (consolidate_ip_cidrs_idempotent sample_cidrs); reflexivity.
Defined.

(** X18.  Whenever [consolidate_ip_cidrs] returns, it returns at most as
    many strings as it was given, and at least one when it was given
    one. *)
Theorem consolidate_ip_cidrs_count (cidrs out : list string) :
  consolidate_ip_cidrs cidrs = Ok out ->
  (List.length out <= List.length cidrs)%nat /\ (cidrs <> [] -> out <> []).
Proof.
  unfold consolidate_ip_cidrs. intros H.
  apply bind_inv in H as (ranges & E1 & H).
  apply bind_inv in H as (merged & E2 & E3).
  apply mapM_length in E1, E3.
  unfold consolidate_ip_ranges in E2.
  apply bind_inv in E2 as (s & Hs & Hloop).
  pose proof (Permutation_length (sort_perm _ _ Hs)) as Ls.
  destruct (consolidate_loop_shape _ _ _ Hloop) as (L1 & _ & Hne & _).
  cbn [List.length] in L1. split; [lia|].
  intros Hc C. subst out. cbn [List.length] in E3.
  destruct merged; [|discriminate E3].
  destruct s as [|x s]; [|now apply Hne].
  destruct cidrs; [now apply Hc|].
  cbn [List.length] in *. lia.
Qed.

Lemma consolidate_ip_cidrs_count_witness :
  (List.length ["1.0.0.0/8"; "192.168.0.0/24"; "192.168.1.0/24";
                "255.255.255.255/32"]
   <= List.length sample_cidrs)%nat /\
  (sample_cidrs <> [] ->
   ["1.0.0.0/8"; "192.168.0.0/24"; "192.168.1.0/24"; "255.255.255.255/32"]
   <> []).
Proof. apply (consolidate_ip_cidrs_count sample_cidrs). reflexivity. Defined.

(** X19.  One CIDR string that cannot be converted makes the whole call
    raise: [consolidate_ip_cidrs] returns no partial result. *)
Theorem consolidate_ip_cidrs_all_or_nothing
    (cidrs : list string) (c : string) (e : pyerr) :
  In c cidrs -> ip_cidr_to_ip_range c = Err e ->
  exists e', consolidate_ip_cidrs cidrs = Err e'.
Proof.
  intros Hin He. unfold consolidate_ip_cidrs.
  destruct (mapM_error _ cidrs c e Hin He) as (e' & ->). cbn [bind]. eauto.
Qed.

Lemma consolidate_ip_cidrs_all_or_nothing_witness :
  exists e', consolidate_ip_cidrs ["10.0.0.0/8"; "10.0.0/8"; "1.2.3.4/32"]
             = Err e'.
Proof.
  apply (consolidate_ip_cidrs_all_or_nothing _ "10.0.0/8" IndexError);
    [simpl; auto|reflexivity].
Defined.

Lemma mapM_range_of_cidr (cidrs : list string) :
  forallb wf_cidr cidrs = true ->
  mapM ip_cidr_to_ip_range cidrs = Ok (map range_of_cidr cidrs) /\
  forallb canonical_range (map range_of_cidr cidrs) = true.
Proof.
  induction cidrs as [|c cidrs IH]; intros H; [split; reflexivity|].
  cbn [forallb] in H. apply andb_true_iff in H as [Hc H].
  destruct (IH H) as [E C].
  destruct (wf_cidr_range c Hc) as (v & m & Hv & Hm & Hr).
  destruct (block_bounds v m Hv Hm) as [B1 B2].
  assert (Er : ip_cidr_to_ip_range c
               = Ok (printed_range (block_low v m, block_high v m))).
  { unfold ip_cidr_to_ip_range. now rewrite Hr. }
  cbn [mapM map forallb]. unfold range_of_cidr at 1 3.
  rewrite Er, E. cbn [bind]. split; [reflexivity|]. rewrite C, andb_true_r.
  unfold canonical_range, printed_range, low, high. cbn [fst snd].
  rewrite !value_to_ip_canonical, !value_of_value_to_ip by lia.
  apply Z.leb_le. lia.
Qed.

(** X20.  On well-formed CIDR strings the result of
    [consolidate_ip_cidrs] depends on the set of input strings only, not
    on their order or on repetitions. *)
Theorem consolidate_ip_cidrs_order_free (cidrs cidrs' : list string) :
  forallb wf_cidr cidrs = true -> (forall c, In c cidrs' <-> In c cidrs) ->
  consolidate_ip_cidrs cidrs' = consolidate_ip_cidrs cidrs.
Proof.
  intros H E.
  assert (H' : forallb wf_cidr cidrs' = true).
  { rewrite forallb_forall in *. intros c Hc. apply H, E, Hc. }
  destruct (mapM_range_of_cidr cidrs H) as [E1 C1].
  destruct (mapM_range_of_cidr cidrs' H') as [E1' _].
  unfold consolidate_ip_cidrs. rewrite E1, E1'. cbn [bind].
  rewrite (consolidate_canonical_same (map range_of_cidr cidrs)
             (map range_of_cidr cidrs') C1); [reflexivity|].
  intros r. rewrite !in_map_iff.
  split; intros (c & Hc & Hin); exists c; split; auto; now apply E.
Qed.

Lemma consolidate_ip_cidrs_order_free_witness :
  consolidate_ip_cidrs (rev sample_cidrs ++ sample_cidrs)%list
  = consolidate_ip_cidrs sample_cidrs.
Proof.
  apply consolidate_ip_cidrs_order_free; [reflexivity|].
  intros c. rewrite in_app_iff, <- in_rev. tauto.
Defined.

(* ================================================================== *)
(** ** The [inetnum] field of a registry record *)









(* ================================================================== *)
(** ** Further edge behaviour *)

(** X22.  [get_max_value] adds [2^(32-mask) - 1] to its first argument
    for every mask length up to 32, negative ones included, and returns
    its first argument unchanged for a mask length of 32 or more. *)
Theorem get_max_value_closed_form (min_value m1 m2 : Z) :
  m1 <= 32 -> 32 <= m2 ->
  get_max_value min_value m1 = min_value + 2 ^ (32 - m1) - 1 /\
  get_max_value min_value m2 = min_value.
Proof.
  intros H1 H2. split.
  - now apply get_max_value_eq.
  - unfold get_max_value, py_range.
    replace (Z.to_nat (32 - m2 - 0)) with 0%nat by lia. reflexivity.
Qed.

Lemma get_max_value_closed_form_witness :
  get_max_value 167772160 (-1) = 167772160 + 2 ^ (32 - (-1)) - 1 /\
  get_max_value 167772160 40 = 167772160.
Proof. apply (get_max_value_closed_form 167772160 (-1) 40); lia. Defined.

(** X23.  Round trip between a block and its two ends: for the normal
    spelling of a block, [ip_cidr_to_ip_range] gives the two ends and
    [get_ip_cidr_from_ips] gives the spelling back from them. *)
Theorem block_round_trip (v m : Z) :
  0 <= v < 2 ^ 32 -> 0 <= m <= 32 ->
  exists a b,
    ip_cidr_to_ip_range (block_string v m) = Ok (a, b) /\
    get_ip_cidr_from_ips [a; b] = Ok (block_string v m).
Proof.
  intros Hv Hm.
  destruct (block_string_range v m Hv Hm) as [_ E].
  exists (value_to_ip (block_low v m)), (value_to_ip (block_high v m)).
  split; [exact E|now apply block_cidr_string].
Qed.

Lemma block_round_trip_witness :
  exists a b,
    ip_cidr_to_ip_range (block_string 3530107050 21) = Ok (a, b) /\
    get_ip_cidr_from_ips [a; b] = Ok (block_string 3530107050 21).
Proof. apply (block_round_trip 3530107050 21); lia. Defined.

(** X24.  On ranges with readable bounds, [sort_ip_address_ranges]
    returns a rearrangement of its input in ascending order of the lower
    bounds; a list that is in that order already is returned as it is. *)
Theorem sort_ip_address_ranges_sorts (l : list ip_range) :
  Forall readable_range l ->
  (exists out, sort_ip_address_ranges l = Ok out
               /\ Permutation out l /\ StronglySorted le_low out) /\
  (StronglySorted le_low l -> sort_ip_address_ranges l = Ok l).
Proof.
  intros H. split; [now apply sort_spec|now apply sort_sorted].
Qed.

Lemma sort_ip_address_ranges_sorts_witness :
  (exists out, sort_ip_address_ranges sample_ranges = Ok out
               /\ Permutation out sample_ranges /\ StronglySorted le_low out) /\
  (StronglySorted le_low sample_ranges ->
   sort_ip_address_ranges sample_ranges = Ok sample_ranges).
Proof.
  apply sort_ip_address_ranges_sorts.
  repeat constructor.
Defined.

Lemma compare_unreadable (a b : ip_range) (e : pyerr) :
  get_value (fst a) = Err e \/ get_value (fst b) = Err e ->
  exists e', compare_ip_address_ranges a b = Err e'.
Proof.
  unfold compare_ip_address_ranges. intros [H|H].
  - rewrite H. cbn [bind]. eauto.
  - destruct (get_value (fst a)); cbn [bind]; [|eauto].
    rewrite H. cbn [bind]. eauto.
Qed.

Lemma sort_unreadable (l : list ip_range) (r : ip_range) (e : pyerr) :
  (2 <= List.length l)%nat -> In r l -> get_value (fst r) = Err e ->
  exists e', sort_ip_address_ranges l = Err e'.
Proof.
  revert r e. induction l as [|x rest IH]; intros r e Hlen Hin He;
    [contradiction|].
  cbn [sort_ip_address_ranges].
  destruct (sort_ip_address_ranges rest) as [s|e0] eqn:Es; cbn [bind];
    [|eauto].
  pose proof (sort_perm _ _ Es) as P.
  destruct s as [|y s].
  { apply Permutation_nil in P. subst rest. cbn [List.length] in Hlen. lia. }
  cbn [insert_range].
  assert (Hy : In y rest) by (apply (Permutation_in _ P); simpl; auto).
  assert (Hunread : exists e1, get_value (fst y) = Err e1
                               \/ get_value (fst x) = Err e1).
  { destruct Hin as [<-|Hin]; [eauto|].
    destruct rest as [|z [|z' rest']]; [contradiction| |].
    - destruct Hin as [<-|[]]. destruct Hy as [<-|[]]. eauto.
    - exfalso. destruct (IH r e) as (e' & Ee); [cbn; lia|assumption..|].
      congruence. }
  destruct Hunread as (e1 & Hu).
  destruct (compare_unreadable y x e1 Hu) as (e' & ->). cbn [bind]. eauto.
Qed.

(** X25.  A list of one range is returned by [consolidate_ip_ranges] as
    it is, without a look at its bounds; in a list of two or more, one
    lower bound that [get_value] cannot read makes the call raise. *)
Theorem consolidate_ip_ranges_unreadable
    (l : list ip_range) (r : ip_range) (e : pyerr) :
  (2 <= List.length l)%nat -> In r l -> get_value (fst r) = Err e ->
  consolidate_ip_ranges [r] = Ok [r] /\
  exists e', consolidate_ip_ranges l = Err e'.
Proof.
  intros Hlen Hin He. split; [reflexivity|].
  unfold consolidate_ip_ranges.
  destruct (sort_unreadable l r e Hlen Hin He) as (e' & ->). cbn [bind]. eauto.
Qed.

Lemma consolidate_ip_ranges_unreadable_witness :
  consolidate_ip_ranges [("1.2.3", "1.2.3.4")] = Ok [("1.2.3", "1.2.3.4")] /\
  exists e', consolidate_ip_ranges
               [("0.0.0.1", "0.0.0.2"); ("1.2.3", "1.2.3.4")] = Err e'.
Proof.
  apply (consolidate_ip_ranges_unreadable _ ("1.2.3", "1.2.3.4") IndexError);
    [simpl; lia|simpl; auto|reflexivity].
Defined.

(** X26.  One entry that [get_value] cannot read makes
    [get_ip_cidr_from_ips] raise, wherever it stands in the list. *)
Theorem get_ip_cidr_from_ips_unreadable
    (l : list string) (a : string) (e : pyerr) :
  In a l -> get_value a = Err e ->
  exists e', get_ip_cidr_from_ips l = Err e'.
Proof.
  intros Hin He. unfold get_ip_cidr_from_ips.
  destruct (mapM_error _ l a e Hin He) as (e' & ->). cbn [bind]. eauto.
Qed.

Lemma get_ip_cidr_from_ips_unreadable_witness :
  exists e', get_ip_cidr_from_ips ["1.2.3.4"; "1.2.3.x"; "1.2.3.5"] = Err e'.
Proof.
  apply (get_ip_cidr_from_ips_unreadable _ "1.2.3.x" ValueError);
    [simpl; auto|reflexivity].
Defined.

(** X27.  A string without a slash is no CIDR string: the three
    functions that take one raise [ValueError] on it, before they look
    at anything else. *)
Theorem cidr_without_slash (s a : string) :
  no_char "/" s = true ->
  ip_cidr_to_ip_value_range s = Err ValueError /\
  ip_cidr_to_ip_range s = Err ValueError /\
  is_ip_in_cidr a s = Err ValueError.
Proof.
  intros H.
  assert (E : ip_cidr_to_ip_value_range s = Err ValueError).
  { unfold ip_cidr_to_ip_value_range. now rewrite (split_no_char "/" s H). }
  unfold ip_cidr_to_ip_range, is_ip_in_cidr. rewrite E. auto.
Qed.

Lemma cidr_without_slash_witness :
  ip_cidr_to_ip_value_range "10.0.0.0" = Err ValueError /\
  ip_cidr_to_ip_range "10.0.0.0" = Err ValueError /\
  is_ip_in_cidr "not an address" "10.0.0.0" = Err ValueError.
Proof. apply cidr_without_slash. reflexivity. Defined.

(* ================================================================== *)
(** ** The record loop of the registry parser *)

Lemma parse_lines_app (batch_size : Z) (down : option (list string))
    (l1 l2 : list string) (st : parser_state) :
  parse_lines batch_size down st (l1 ++ l2)%list
  = match parse_lines batch_size down st l1 with
    | Parsed st' => parse_lines batch_size down st' l2
    | Raised e => Raised e
    end.
Proof.
  revert st. induction l1 as [|line l1 IH]; intros st; cbn [app parse_lines];
    [reflexivity|].
  destruct (parse_line batch_size down st line); [apply IH|reflexivity].
Qed.

(** Only a blank line touches the records, the batches and the count. *)
Lemma parse_line_cases (batch_size : Z) (down : option (list string))
    (st st' : parser_state) (line : string) :
  parse_line batch_size down st line = Parsed st' ->
  (records st' = records st /\ saved st' = saved st
   /\ num_records st' = num_records st)
  \/ (is_comment line = false /\ is_blank line = true
      /\ st' = end_record batch_size st).
Proof.
  unfold parse_line. destruct (is_comment line).
  { intros H. injection H as <-. now left. }
  destruct (is_blank line).
  { intros H. injection H as <-. now right. }
  intros H. left.
  destruct (match_field (rstrip line)) as [[name value]|].
  - unfold field_line in H.
    destruct (selected down name).
    + destruct (String.eqb name "inetnum" && selected down "ip_cidr").
      * destruct (get_ip_cidr_from_ips _); [|discriminate H].
        injection H as <-. auto.
      * injection H as <-. auto.
    + injection H as <-. auto.
  - unfold continuation_line in H.
    destruct (column_name st) as [key|].
    + destruct (selected down key).
      * destruct (dict_get key (record st)); [|discriminate H].
        injection H as <-. auto.
      * injection H as <-. auto.
    + destruct down; [|discriminate H]. injection H as <-. auto.
Qed.

(** X28.  A record is closed by a blank line only.  When no line of the
    file is blank, comment lines apart, nothing is handed to
    [save_records] and the count is zero, whatever fields were read: the
    last record of a file that does not end in a blank line is lost. *)
Theorem parse_file_needs_blank_line (batch_size : Z)
    (down : option (list string)) (lines : list string)
    (result : list (list inet_record) * Z) :
  (forall line, In line lines -> is_comment line = true \/ is_blank line = false) ->
  parse_file batch_size down lines = Parsed result ->
  result = ([], 0).
Proof.
  intros Hlines. unfold parse_file.
  assert (Inv : forall st st',
            parse_lines batch_size down st lines = Parsed st' ->
            records st = [] /\ saved st = [] /\ num_records st = 0 ->
            records st' = [] /\ saved st' = [] /\ num_records st' = 0).
  { induction lines as [|line rest IH]; intros st st' H I;
      cbn [parse_lines] in H.
    - now injection H as <-.
    - destruct (parse_line batch_size down st line) as [st1|] eqn:E;
        [|discriminate H].
      apply (IH (fun l Hl => Hlines l (or_intror Hl)) st1 st' H).
      destruct (parse_line_cases _ _ _ _ _ E) as [(-> & -> & ->)|(C & B & _)];
        [assumption|].
      destruct (Hlines line (or_introl eq_refl)); congruence. }
  destruct (parse_lines batch_size down initial_state lines) as [st|] eqn:E;
    [|discriminate].
  destruct (Inv _ _ E) as (-> & -> & ->); [now repeat split|].
  intros H. now injection H as <-.
Qed.

Lemma parse_file_needs_blank_line_witness :
  parse_file 500000 None
    ["inetnum:        10.0.0.0 - 10.0.0.255" ++ String "010" "";
     "country:        ZZ" ++ String "010" ""]
  = Parsed ([], 0).
Proof.
  assert (H : forall line,
            In line ["inetnum:        10.0.0.0 - 10.0.0.255" ++ String "010" "";
                     "country:        ZZ" ++ String "010" ""] ->
            is_comment line = true \/ is_blank line = false).
  { intros line [<-|[<-|[]]]; right; reflexivity. }
  destruct (parse_file 500000 None _) as [result|] eqn:E;
    [|vm_compute in E; discriminate E].
  now rewrite (parse_file_needs_blank_line _ _ _ _ H E).
Defined.

(** X29.  Comment lines, which start with [#] or [%], are skipped: a
    comment line anywhere in the file changes nothing of the result. *)
Theorem parse_file_skips_comments (batch_size : Z)
    (down : option (list string)) (l1 l2 : list string) (c : string) :
  is_comment c = true ->
  parse_file batch_size down (l1 ++ c :: l2)%list
  = parse_file batch_size down (l1 ++ l2)%list.
Proof.
  intros Hc. unfold parse_file. rewrite !parse_lines_app.
  destruct (parse_lines batch_size down initial_state l1) as [st|];
    [|reflexivity].
  cbn [parse_lines]. unfold parse_line at 1. now rewrite Hc.
Qed.

Lemma parse_file_skips_comments_witness :
  parse_file 1 None
    (firstn 3 sample_lines ++ "% remark" :: skipn 3 sample_lines)%list
  = parse_file 1 None (firstn 3 sample_lines ++ skipn 3 sample_lines)%list.
Proof. apply parse_file_skips_comments. reflexivity. Defined.

Lemma Forall_removelast {A : Type} (P : A -> Prop) (l : list A) :
  Forall P l -> Forall P (removelast l).
Proof.
  induction 1 as [|x l Hx Hl IH]; cbn [removelast]; [constructor|].
  destruct l; [constructor|]. constructor; assumption.
Qed.

(** The invariant of the loop: the count is the number of records saved,
    the batches saved are full, and no record kept or saved is empty. *)
Lemma parse_lines_count (batch_size : Z) (down : option (list string))
    (lines : list string) (st st' : parser_state) :
  parse_lines batch_size down st lines = Parsed st' ->
  (num_records st = Z.of_nat (List.length (List.concat (saved st))) /\
   Forall (fun b => Z.of_nat (List.length b) = batch_size) (saved st) /\
   Forall (fun r => r <> []) (records st) /\
   Forall (Forall (fun r => r <> [])) (saved st)) ->
  (num_records st' = Z.of_nat (List.length (List.concat (saved st'))) /\
   Forall (fun b => Z.of_nat (List.length b) = batch_size) (saved st') /\
   Forall (fun r => r <> []) (records st') /\
   Forall (Forall (fun r => r <> [])) (saved st')).
Proof.
  revert st. induction lines as [|line rest IH]; intros st H I;
    cbn [parse_lines] in H.
  - now injection H as <-.
  - destruct (parse_line batch_size down st line) as [st1|] eqn:E;
      [|discriminate H].
    apply (IH st1 H). destruct I as (I1 & I2 & I3 & I4).
    destruct (parse_line_cases _ _ _ _ _ E) as [(-> & -> & ->)|(_ & _ & ->)];
      [auto|].
    unfold end_record.
    assert (Hclosed : Forall (fun r => r <> [])
                        (fst match record st with
                             | [] => (records st, record st)
                             | _ :: _ => ((records st ++ [record st])%list, [])
                             end)).
    { destruct (record st) eqn:R; cbn [fst]; [assumption|].
      apply Forall_app. split; [assumption|].
      constructor; [discriminate|constructor]. }
    destruct (Z.eqb_spec (Z.of_nat (List.length
                (fst match record st with
                     | [] => (records st, record st)
                     | _ :: _ => ((records st ++ [record st])%list, [])
                     end))) batch_size) as [Eb|Nb]; cbn.
    + rewrite concat_app, length_app. cbn [List.concat]. rewrite app_nil_r.
      repeat split.
      * lia.
      * apply Forall_app. split; [assumption|]. constructor; [assumption|constructor].
      * constructor.
      * apply Forall_app. split; [assumption|]. constructor; [assumption|constructor].
    + auto.
Qed.

(** X30.  The count that [main] prints is the number of records handed to
    [save_records]; every batch but the last holds exactly [batch_size]
    records; and no empty record is saved. *)
Theorem parse_file_count (batch_size : Z) (down : option (list string))
    (lines : list string) (batches : list (list inet_record)) (n : Z) :
  parse_file batch_size down lines = Parsed (batches, n) ->
  n = Z.of_nat (List.length (List.concat batches)) /\
  Forall (fun b => Z.of_nat (List.length b) = batch_size) (removelast batches) /\
  Forall (Forall (fun r => r <> [])) batches.
Proof.
  unfold parse_file.
  destruct (parse_lines batch_size down initial_state lines) as [st|] eqn:E;
    [|discriminate].
  destruct (parse_lines_count _ _ _ _ _ E) as (I1 & I2 & I3 & I4).
  { cbn. repeat split; constructor. }
  destruct (records st) as [|r rs] eqn:R; intros H; injection H as <- <-.
  - split; [assumption|]. split; [now apply Forall_removelast|assumption].
  - rewrite concat_app, length_app, removelast_last. cbn [List.concat].
    rewrite app_nil_r. cbn [List.length]. split; [lia|]. split; [assumption|].
    apply Forall_app. split; [assumption|]. constructor; [assumption|constructor].
Qed.

Lemma parse_file_count_witness :
  1 = Z.of_nat (List.length (List.concat
        [[[("inetnum", "        1.2.3.0 - 1.2.3.255");
           ("ip_cidr", "1.2.3.0/24"); ("netname", "        EXAMPLE")]]])) /\
  Forall (fun b => Z.of_nat (List.length b) = 7)
         (removelast
            [[[("inetnum", "        1.2.3.0 - 1.2.3.255");
               ("ip_cidr", "1.2.3.0/24"); ("netname", "        EXAMPLE")]]]) /\
  Forall (Forall (fun r => r <> []))
         [[[("inetnum", "        1.2.3.0 - 1.2.3.255");
            ("ip_cidr", "1.2.3.0/24"); ("netname", "        EXAMPLE")]]].
Proof.
  apply (parse_file_count 7 None
           ["inetnum:        1.2.3.0 - 1.2.3.255" ++ String "010" "";
            "netname:        EXAMPLE" ++ String "010" "";
            String "010" ""]).
  reflexivity.
Defined.
